(** * Instagram-to-Bluesky migration pipeline: a shallow embedding

    The development follows [src/models.py] and [src/engines.py]:
    the pydantic models become records, Python integers become [Z],
    exceptions become the [Raise] branch of [result], and the engines'
    mutable attributes (the in-memory queue, the files of the queue
    directory, the remote service) are threaded through a state and
    error monad.  Library calls whose code is not part of the repository
    (the atproto client, the rich-text builder, [datetime], the archive
    files) are the fields of the class [Environment]. *)

From stdpp Require Import gmap strings list fin_maps pretty sorting.
From Stdlib Require Import ZArith Lia.

Open Scope Z_scope.

(** ** Python preliminaries *)

(** The exceptions the modelled code can raise. *)
Inductive exn :=
| AttributeError
| TypeError
| ValueError
| IndexError
| AssertionError
| ValidationError
| OSError
| RemoteError.

Inductive result (A : Type) :=
| Ok (a : A)
| Raise (e : exn).
Arguments Ok {A} a.
Arguments Raise {A} e.

Definition rbind {A B} (r : result A) (k : A → result B) : result B :=
  match r with
  | Ok a => k a
  | Raise e => Raise e
  end.

(** [len(x)] as a Python integer. *)
Definition len {A} (l : list A) : Z := Z.of_nat (length l).

(** A Python [str] is held as the bytes of its UTF-8 encoding.  A
    character starts at a byte that is not a continuation byte
    ([10xxxxxx]) and runs over the continuation bytes that follow it;
    [len(s)] and the bounds of a slice count characters, not bytes. *)
Definition is_continuation (c : Ascii.ascii) : bool :=
  match c with
  | Ascii.Ascii _ _ _ _ _ _ b6 b7 => b7 && negb b6
  end.

Fixpoint count_chars (s : string) : nat :=
  match s with
  | EmptyString => 0
  | String c s' => (if is_continuation c then 0 else 1) + count_chars s'
  end.

Definition slen (s : string) : Z := Z.of_nat (count_chars s).

(** The first [k] characters of [s], each with its continuation bytes. *)
Fixpoint take_chars (k : nat) (s : string) : string :=
  match s with
  | EmptyString => EmptyString
  | String c s' =>
      if is_continuation c then String c (take_chars k s')
      else match k with
           | O => EmptyString
           | S k' => String c (take_chars k' s')
           end
  end.

(** [s.endswith(suffix)]: the bytes of an encoded suffix end the bytes of
    [s] exactly when its characters end the characters of [s]. *)
Definition endswith (s suffix : string) : bool :=
  let n := String.length s in
  let k := String.length suffix in
  (k <=? n)%nat && String.eqb (String.substring (n - k) k s) suffix.

(** [s[:k]] with Python's slice rules: a negative bound counts from the
    end, and bounds are clipped to the string. *)
Definition slice_to (s : string) (k : Z) : string :=
  let n := slen s in
  let stop := if k <? 0 then Z.max 0 (n + k) else Z.min k n in
  take_chars (Z.to_nat stop) s.

(** [l[i]] with Python's index rules: negative indices count from the
    end, anything outside [-len, len) raises [IndexError]. *)
Definition py_index {A} (l : list A) (i : Z) : result A :=
  let n := len l in
  let j := if i <? 0 then n + i else i in
  if (0 <=? j) && (j <? n) then
    match l !! Z.to_nat j with
    | Some x => Ok x
    | None => Raise IndexError
    end
  else Raise IndexError.

(** A stable sort by an integer key, as [sorted(l, key=...)]: elements
    with equal keys keep their relative order. *)
Section StableSort.
Context {A : Type} (key : A → Z).

Fixpoint insert_by (x : A) (l : list A) : list A :=
  match l with
  | [] => [x]
  | y :: l' => if key x <=? key y then x :: y :: l' else y :: insert_by x l'
  end.

Definition sorted_by (l : list A) : list A := foldr insert_by [] l.

End StableSort.

(** ** Data model ([src/models.py]) *)

Inductive MigrationMediaStrategy := ORDERED | VIDEOLAST.

(** A naive [datetime] object, by its calendar fields. *)
Record datetime := {
  year : Z; month : Z; day : Z;
  hour : Z; minute : Z; second : Z
}.

(** [MigrationConfig].  The model allows extra keys; the only extra key
    the engines read is [max_videos_per_post], which the class does not
    declare: [None] stands for "the attribute does not exist". *)
Record MigrationConfig := {
  min_date : option datetime;
  max_date : option datetime;
  queue_dir : string;
  endpoint : string;
  media_strategy : option MigrationMediaStrategy;
  max_images_per_post : Z;
  post_text_limit : Z;
  post_text_truncate_suffix : string;
  api_rate_limit_delay_secs : Z;
  max_videos_per_post : option Z
}.

(** [InstagramArchiveMedia].  [m_title] is an extra key of the archive:
    [None] when the key is absent, [Some None] when it is [null]. The
    dictionaries no engine reads are kept as opaque JSON text. *)
Record InstagramArchiveMedia := {
  m_uri : string;
  m_media_metadata : string;
  m_creation_timestamp : option Z;
  m_backup_uri : option string;
  m_title : option (option string)
}.

Record InstagramArchivePost := {
  p_media : list InstagramArchiveMedia;
  p_title : option string;
  p_creation_timestamp : option Z
}.

Inductive BlueSkyMigrationJobState := READY | PROCESSED | FAILED.

(** A facet as the rich-text builder returns it (opaque JSON text). *)
Definition Facet := string.

Record BlueSkyMigrationJob := {
  archive_index : Z;
  text : string;
  rich_text : string;
  facets : list Facet;
  created_at : string;
  embed : list InstagramArchiveMedia;
  state : BlueSkyMigrationJobState;
  job_index : Z;
  root_index : option Z;
  parent_index : option Z;
  cid : option string;
  uri : option string
}.

Global Instance state_eq_dec : EqDecision BlueSkyMigrationJobState.
Proof. solve_decision. Defined.

(** ** The media partitioner ([_partition_media]) *)

Inductive kind := video | image.

Global Instance kind_eq_dec : EqDecision kind.
Proof. solve_decision. Defined.

(** [entry.uri.endswith(".mp4")] *)
Definition is_mp4 (entry : InstagramArchiveMedia) : bool :=
  endswith (m_uri entry) ".mp4".

Definition kind_of (entry : InstagramArchiveMedia) : kind :=
  if is_mp4 entry then video else image.

(** The local variables of the partitioning loop. *)
Record partition_state := {
  partitions : list (list InstagramArchiveMedia);
  current_partition : list InstagramArchiveMedia;
  current_partition_type : option kind
}.

(** [self.config.max_videos_per_post] *)
Definition get_max_videos_per_post (config : MigrationConfig) : result Z :=
  match max_videos_per_post config with
  | Some v => Ok v
  | None => Raise AttributeError
  end.

(** Lines 191-199: the two accumulators of the videos-last reordering. *)
Definition videolast_step (acc : list InstagramArchiveMedia * list InstagramArchiveMedia)
    (entry : InstagramArchiveMedia) :=
  let '(images, videos) := acc in
  if is_mp4 entry then (images, videos ++ [entry]) else (images ++ [entry], videos).

Definition reorder (strategy : option MigrationMediaStrategy)
    (media : list InstagramArchiveMedia) : list InstagramArchiveMedia :=
  match strategy with
  | Some VIDEOLAST =>
      let '(images, videos) := fold_left videolast_step media ([], []) in
      images ++ videos
  | _ => media
  end.

(** Lines 203-231: one iteration of the partitioning loop. *)
Definition partition_step (config : MigrationConfig) (st : partition_state)
    (entry : InstagramArchiveMedia) : result partition_state :=
  let ty :=
    match current_partition_type st with
    | None => if is_mp4 entry then video else image
    | Some t => t
    end in
  let fill (limit : Z) :=
    if len (current_partition st) <? limit then
      {| partitions := partitions st;
         current_partition := current_partition st ++ [entry];
         current_partition_type := Some ty |}
    else
      {| partitions := partitions st ++ [current_partition st];
         current_partition := [entry];
         current_partition_type := Some ty |} in
  match ty, is_mp4 entry with
  | video, true =>
      rbind (get_max_videos_per_post config) (λ limit, Ok (fill limit))
  | image, false => Ok (fill (max_images_per_post config))
  | _, _ =>
      Ok {| partitions := partitions st ++ [current_partition st];
            current_partition := [entry];
            current_partition_type := Some (if is_mp4 entry then video else image) |}
  end.

Fixpoint partition_loop (config : MigrationConfig) (st : partition_state)
    (media : list InstagramArchiveMedia) : result partition_state :=
  match media with
  | [] => Ok st
  | entry :: rest =>
      rbind (partition_step config st entry) (λ st', partition_loop config st' rest)
  end.

Definition _partition_media (config : MigrationConfig)
    (media : list InstagramArchiveMedia) (strategy : option MigrationMediaStrategy)
    : result (list (list InstagramArchiveMedia)) :=
  rbind
    (partition_loop config
       {| partitions := []; current_partition := []; current_partition_type := None |}
       (reorder strategy media))
    (λ st,
       match current_partition st with
       | [] => Ok (partitions st)
       | _ :: _ => Ok (partitions st ++ [current_partition st])
       end).

(** Sample media and configurations used in the examples. *)
Definition sample_media (u : string) : InstagramArchiveMedia :=
  {| m_uri := u; m_media_metadata := "{}"; m_creation_timestamp := None;
     m_backup_uri := None; m_title := None |}.

(** [MigrationConfig(queue_dir=..., endpoint=...)]: every default of the class. *)
Definition default_config : MigrationConfig :=
  {| min_date := None; max_date := None; queue_dir := "queue";
     endpoint := "https://bsky.social"; media_strategy := Some ORDERED;
     max_images_per_post := 4; post_text_limit := 300;
     post_text_truncate_suffix := "..."; api_rate_limit_delay_secs := 3;
     max_videos_per_post := None |}.

Definition with_max_videos (v : Z) (config : MigrationConfig) : MigrationConfig :=
  {| min_date := min_date config; max_date := max_date config;
     queue_dir := queue_dir config; endpoint := endpoint config;
     media_strategy := media_strategy config;
     max_images_per_post := max_images_per_post config;
     post_text_limit := post_text_limit config;
     post_text_truncate_suffix := post_text_truncate_suffix config;
     api_rate_limit_delay_secs := api_rate_limit_delay_secs config;
     max_videos_per_post := Some v |}.

Definition with_max_images (v : Z) (config : MigrationConfig) : MigrationConfig :=
  {| min_date := min_date config; max_date := max_date config;
     queue_dir := queue_dir config; endpoint := endpoint config;
     media_strategy := media_strategy config;
     max_images_per_post := v;
     post_text_limit := post_text_limit config;
     post_text_truncate_suffix := post_text_truncate_suffix config;
     api_rate_limit_delay_secs := api_rate_limit_delay_secs config;
     max_videos_per_post := max_videos_per_post config |}.

Definition with_text_limit (v : Z) (config : MigrationConfig) : MigrationConfig :=
  {| min_date := min_date config; max_date := max_date config;
     queue_dir := queue_dir config; endpoint := endpoint config;
     media_strategy := media_strategy config;
     max_images_per_post := max_images_per_post config;
     post_text_limit := v;
     post_text_truncate_suffix := post_text_truncate_suffix config;
     api_rate_limit_delay_secs := api_rate_limit_delay_secs config;
     max_videos_per_post := max_videos_per_post config |}.

Definition with_delay (v : Z) (config : MigrationConfig) : MigrationConfig :=
  {| min_date := min_date config; max_date := max_date config;
     queue_dir := queue_dir config; endpoint := endpoint config;
     media_strategy := media_strategy config;
     max_images_per_post := max_images_per_post config;
     post_text_limit := post_text_limit config;
     post_text_truncate_suffix := post_text_truncate_suffix config;
     api_rate_limit_delay_secs := v;
     max_videos_per_post := max_videos_per_post config |}.

(** ** Dates *)

(** Zero-padded decimal, as the [%02d] and [%04d] of the date formats. *)
Definition pad (width : nat) (z : Z) : string :=
  let s := pretty z in
  String.concat "" (replicate (width - String.length s)%nat "0") +:+ s.

(** [dt.isoformat()] of a datetime without microseconds: the year has
    four digits on every platform. *)
Definition isoformat (dt : datetime) : string :=
  pad 4 (year dt) +:+ "-" +:+ pad 2 (month dt) +:+ "-" +:+ pad 2 (day dt)
  +:+ "T" +:+ pad 2 (hour dt) +:+ ":" +:+ pad 2 (minute dt)
  +:+ ":" +:+ pad 2 (second dt).

(** Lexicographic order of two naive datetimes. *)
Definition datetime_key (dt : datetime) : list Z :=
  [year dt; month dt; day dt; hour dt; minute dt; second dt].

Fixpoint lex_ltb (a b : list Z) : bool :=
  match a, b with
  | x :: a', y :: b' => (x <? y) || ((x =? y) && lex_ltb a' b')
  | [], _ :: _ => true
  | _, [] => false
  end.

(** The Python values that reach a comparison in the engines. *)
Inductive pyval :=
| PyNone
| PyInt (z : Z)
| PyDatetime (dt : datetime).

(** [a < b]: defined between two integers and between two datetimes,
    [TypeError] for every other pair of these values. *)
Definition py_lt (a b : pyval) : result bool :=
  match a, b with
  | PyInt x, PyInt y => Ok (x <? y)
  | PyDatetime x, PyDatetime y => Ok (lex_ltb (datetime_key x) (datetime_key y))
  | _, _ => Raise TypeError
  end.

(** [a > b] *)
Definition py_gt (a b : pyval) : result bool := py_lt b a.

Definition pyval_of_timestamp (t : option Z) : pyval :=
  match t with
  | Some z => PyInt z
  | None => PyNone
  end.

(** ** The collaborators *)

Definition Blob := string.

Record StrongRef := { ref_cid : string; ref_uri : string }.

Inductive Embed :=
| EmbedVideo (video_blob : Blob)
| EmbedImages (images : list (string * Blob)).

(** The arguments of [AppBskyFeedPost.Record]; [r_reply] is (parent, root). *)
Record PostRecord := {
  r_text : string;
  r_facets : list Facet;
  r_embed : Embed;
  r_created_at : string;
  r_reply : option (StrongRef * StrongRef)
}.

(** What the code calls but the repository does not contain: the atproto
    client with the state of the remote service behind it, atproto's
    [create_strong_ref] (given the [cid] and [uri] of its argument) and
    text builder (the text and facets built for a string by
    [parse_to_richtext]), the files of the archive folder,
    [datetime.fromtimestamp] with its local time zone,
    [strftime("%Y-%m-%d")] as the platform renders it (the C library
    decides whether a year below 1000 is padded), and [time.sleep] of a
    length that is not negative.  Each of them but [strftime] can raise. *)
Class Environment := {
  Remote : Type;
  client_login : option string → option string → Remote → result unit * Remote;
  upload_blob : string → Remote → result Blob * Remote;
  create_record : PostRecord → Remote → result (string * string) * Remote;
  delete_post : option string → Remote → result unit * Remote;
  create_strong_ref : option string → option string → result StrongRef;
  build_rich_text : string → result (string * list Facet);
  read_file : string → string → result string;
  fromtimestamp : Z → result datetime;
  strftime_ymd : datetime → string;
  sleep : Z → result unit
}.

(** ** Effects *)

Inductive warning :=
| NoDateFound (index : nat)
| BeforeMinDate (index : nat)
| AfterMaxDate (index : nat)
| NoMedia (index : nat).

(** The observable effects of a run, oldest first. *)
Inductive event :=
| Warning (w : warning)
| Login (username password : option string)
| UploadBlob (data : string)
| CreatePost (record : PostRecord)
| DeletePost (post_uri : option string)
| Sleep (secs : Z).

Section Engines.
Context `{Environment}.

(** What the engines read and write: the list [MigrationQueue.queue],
    the files [{queue_dir}/{job_index}.json] (a file holds the job it
    was written from), the remote service, and the effects so far. *)
Record world := {
  queue : list BlueSkyMigrationJob;
  disk : gmap Z BlueSkyMigrationJob;
  remote : Remote;
  trace : list event
}.

(** A computation that reads and writes the world and may raise; what
    was written before an exception stays written. *)
Definition M (A : Type) : Type := world → result A * world.

#[export] Instance M_ret : MRet M := λ A a w, (Ok a, w).

#[export] Instance M_bind : MBind M := λ A B k m w,
  match m w with
  | (Ok a, w') => k a w'
  | (Raise e, w') => (Raise e, w')
  end.

Definition raise {A} (e : exn) : M A := λ w, (Raise e, w).

Definition lift {A} (r : result A) : M A := λ w, (r, w).

Definition get_queue : M (list BlueSkyMigrationJob) := λ w, (Ok (queue w), w).

Definition set_queue (q : list BlueSkyMigrationJob) : M unit := λ w,
  (Ok tt, {| queue := q; disk := disk w; remote := remote w; trace := trace w |}).

Definition emit (e : event) : M unit := λ w,
  (Ok tt, {| queue := queue w; disk := disk w; remote := remote w;
             trace := trace w ++ [e] |}).

(** A call of the client: the effect is recorded, then the service answers. *)
Definition call {A} (e : event) (op : Remote → result A * Remote) : M A := λ w,
  let '(r, c) := op (remote w) in
  (r, {| queue := queue w; disk := disk w; remote := c; trace := trace w ++ [e] |}).

Fixpoint for_each {A} (l : list A) (body : A → M unit) : M unit :=
  match l with
  | [] => mret tt
  | x :: rest => body x;; for_each rest body
  end.

Fixpoint map_each {A B} (l : list A) (body : A → M B) : M (list B) :=
  match l with
  | [] => mret []
  | x :: rest => y ← body x; ys ← map_each rest body; mret (y :: ys)
  end.

(** ** [MigrationQueue] *)

(** [save]: (over)writes the file named by the job's index. *)
Definition save (job : BlueSkyMigrationJob) : M unit := λ w,
  (Ok tt, {| queue := queue w; disk := <[job_index job := job]> (disk w);
             remote := remote w; trace := trace w |}).

Definition append (job : BlueSkyMigrationJob) : M unit :=
  q ← get_queue;
  set_queue (q ++ [job]);;
  save job.

(** [load], given the jobs of the files in the order [glob] lists them. *)
Definition load (files : list BlueSkyMigrationJob) : M unit :=
  for_each files (λ job, q ← get_queue; set_queue (q ++ [job]));;
  q ← get_queue;
  set_queue (sorted_by job_index q).

(** [glob] lists every file of the directory once, in some order. *)
Definition is_listing (files : list BlueSkyMigrationJob) (w : world) : Prop :=
  files ≡ₚ (map_to_list (disk w)).*2.

(** [MigrationQueue(path)]: the same files, a new empty list. *)
Definition fresh_store (w : world) : world :=
  {| queue := []; disk := disk w; remote := remote w; trace := trace w |}.

(** ** [InstagramArchiveParsingEngine] *)

(** [_figure_out_post_title]: reading the undeclared [title] of a media
    that has no such key raises. *)
Fixpoint first_media_title (media : list InstagramArchiveMedia) : result string :=
  match media with
  | [] => Ok "--"
  | m :: rest =>
      match m_title m with
      | None => Raise AttributeError
      | Some (Some t) => if String.eqb t "" then first_media_title rest else Ok t
      | Some None => first_media_title rest
      end
  end.

Definition _figure_out_post_title (post : InstagramArchivePost) : result string :=
  match p_title post with
  | None => first_media_title (p_media post)
  | Some t => Ok t
  end.

(** [v.strftime('%Y-%m-%d')]: only a datetime has the method. *)
Definition py_strftime (v : pyval) : result string :=
  match v with
  | PyDatetime dt => Ok (strftime_ymd dt)
  | _ => Raise AttributeError
  end.

(** Lines 138-143: the timestamp of the post, else a truthy timestamp of
    its first media, else [None]. *)
Definition rectify_timestamp (post : InstagramArchivePost) : option Z :=
  match p_creation_timestamp post with
  | Some t => Some t
  | None =>
      match p_media post with
      | m :: _ =>
          match m_creation_timestamp m with
          | Some t => if t =? 0 then None else Some t
          | None => None
          end
      | [] => None
      end
  end.

(** Lines 137-154: the body of the first loop of [extract_posts_to_queue]. *)
Definition normalize_post (index : nat) (post : InstagramArchivePost)
    : M InstagramArchivePost :=
  let ts := rectify_timestamp post in
  (if ts is None then emit (Warning (NoDateFound index)) else mret tt);;
  title ← lift (_figure_out_post_title post);
  dt ← match ts with
       | None => raise TypeError
       | Some t => lift (fromtimestamp t)
       end;
  mret {| p_media := p_media post;
          p_title := Some (title +:+ " (from IG, " +:+ strftime_ymd dt +:+ ")");
          p_creation_timestamp := ts |}.

Fixpoint normalize_loop (index : nat) (posts : list InstagramArchivePost)
    : M (list InstagramArchivePost) :=
  match posts with
  | [] => mret []
  | post :: rest =>
      post' ← normalize_post index post;
      rest' ← normalize_loop (S index) rest;
      mret (post' :: rest')
  end.

(** Line 157: [sorted] compares the keys, and [None] compares with nothing. *)
Definition timestamp_key (post : InstagramArchivePost) : Z :=
  default 0 (p_creation_timestamp post).

Definition sort_posts (posts : list InstagramArchivePost)
    : result (list InstagramArchivePost) :=
  if (length posts <=? 1)%nat || forallb (λ p, bool_decide (is_Some (p_creation_timestamp p))) posts
  then Ok (sorted_by timestamp_key posts)
  else Raise TypeError.

(** Lines 267-280: the text of the job of batch [index] out of [n]. *)
Definition post_text (config : MigrationConfig) (title : option string)
    (index n : nat) : result string :=
  rbind
    (if (1 <? n)%nat then
       Ok ("[" +:+ pretty (S index) +:+ "/" +:+ pretty n +:+ "] " +:+ default "None" title)
     else
       match title with
       | Some t => Ok t
       | None => Raise TypeError
       end)
    (λ _post_text,
       if post_text_limit config <? slen _post_text then
         Ok (slice_to _post_text
               (post_text_limit config - slen (post_text_truncate_suffix config))
             +:+ post_text_truncate_suffix config)
       else Ok _post_text).

(** Lines 265-312: the loop of [queue_post] from batch [index] on, with
    its two local variables. *)
Fixpoint queue_partitions (config : MigrationConfig) (post : InstagramArchivePost)
    (archive_index : Z) (n index : nat) (thread_start reply_to : option Z)
    (media_partitions : list (list InstagramArchiveMedia)) : M unit :=
  match media_partitions with
  | [] => mret tt
  | partition :: rest =>
      _post_text ← lift (post_text config (p_title post) index n);
      built ← lift (build_rich_text _post_text);
      q ← get_queue;
      created ← match p_creation_timestamp post with
                | None => raise TypeError
                | Some t => dt ← lift (fromtimestamp t); mret (isoformat dt +:+ "Z")
                end;
      let j := len q in
      let migration_job :=
        {| archive_index := archive_index;
           text := _post_text;
           rich_text := built.1;
           facets := built.2;
           created_at := created;
           embed := partition;
           state := READY;
           job_index := j;
           root_index := if index is O then None else thread_start;
           parent_index := if index is O then None else reply_to;
           cid := None;
           uri := None |} in
      append migration_job;;
      queue_partitions config post archive_index n (S index)
        (if index is O then Some j else thread_start) (Some j) rest
  end.

Definition queue_post (config : MigrationConfig) (post : InstagramArchivePost)
    (archive_index : Z) : M unit :=
  media_partitions ← lift (_partition_media config (p_media post) (media_strategy config));
  if bool_decide (0 < len media_partitions) then
    queue_partitions config post archive_index (length media_partitions) 0 None None
      media_partitions
  else raise AssertionError.

(** Lines 159-176: the second loop of [extract_posts_to_queue]; the
    result of a branch that ends in [break] does not go on. *)
Fixpoint queue_loop (config : MigrationConfig) (index : nat)
    (posts : list InstagramArchivePost) : M unit :=
  match posts with
  | [] => mret tt
  | post :: rest =>
      let ts := pyval_of_timestamp (p_creation_timestamp post) in
      before ← match min_date config with
               | None => mret false
               | Some d => lift (py_lt ts (PyDatetime d))
               end;
      if before : bool then
        lift (py_strftime ts);;
        emit (Warning (BeforeMinDate index));;
        queue_loop config (S index) rest
      else
        after ← match max_date config with
                | None => mret false
                | Some d => lift (py_gt ts (PyDatetime d))
                end;
        if after : bool then
          lift (py_strftime ts);;
          emit (Warning (AfterMaxDate index))
        else
          match p_media post with
          | [] =>
              emit (Warning (NoMedia index));;
              queue_loop config (S index) rest
          | _ :: _ =>
              queue_post config post (Z.of_nat index);;
              queue_loop config (S index) rest
          end
  end.

(** [extract_posts_to_queue], from the posts of the decoded archive. *)
Definition extract_posts_to_queue (config : MigrationConfig)
    (insta_posts : list InstagramArchivePost) : M unit :=
  posts ← normalize_loop 0 insta_posts;
  sorted ← lift (sort_posts posts);
  queue_loop config 0 sorted.

(** ** [BlueSkyPostingEngine] *)

Record BlueSkyPostingEngine := {
  archive_folder : string;
  config : MigrationConfig;
  username : option string;
  password : option string;
  simulate : bool
}.

(** The job object at position [i] of the queue. *)
Definition job_at (i : nat) : M BlueSkyMigrationJob := λ w,
  match queue w !! i with
  | Some job => (Ok job, w)
  | None => (Raise IndexError, w)
  end.

(** Lines 430-432: the three assignments to the job object at position [i]. *)
Definition mark_processed (response : string * string) (job : BlueSkyMigrationJob)
    : BlueSkyMigrationJob :=
  {| archive_index := archive_index job; text := text job;
     rich_text := rich_text job; facets := facets job;
     created_at := created_at job; embed := embed job;
     state := PROCESSED;
     job_index := job_index job; root_index := root_index job;
     parent_index := parent_index job;
     cid := Some response.1; uri := Some response.2 |}.

(** Line 494: [post.state = READY]; no other attribute is assigned. *)
Definition mark_ready (job : BlueSkyMigrationJob) : BlueSkyMigrationJob :=
  {| archive_index := archive_index job; text := text job;
     rich_text := rich_text job; facets := facets job;
     created_at := created_at job; embed := embed job;
     state := READY;
     job_index := job_index job; root_index := root_index job;
     parent_index := parent_index job;
     cid := cid job; uri := uri job |}.

Definition upload (self : BlueSkyPostingEngine) (entry : InstagramArchiveMedia) : M Blob :=
  img_data ← lift (read_file (archive_folder self) (m_uri entry));
  call (UploadBlob img_data) (upload_blob img_data).

(** Lines 409-419: a strong reference to the job at [queue[index]]. *)
Definition strong_ref_at (index : Z) : M StrongRef :=
  q ← get_queue;
  job ← lift (py_index q index);
  lift (create_strong_ref (cid job) (uri job)).

(** Lines 362-392: the media of the job, uploaded and wrapped. *)
Definition upload_media (self : BlueSkyPostingEngine)
    (migration_job : BlueSkyMigrationJob) : M Embed :=
  match embed migration_job with
  | [] => raise ValueError
  | first :: _ =>
      if is_mp4 first then
        blob ← upload self first;
        mret (EmbedVideo blob)
      else
        blobs ← map_each (embed migration_job)
                  (λ entry, blob ← upload self entry; mret ("Img alt", blob));
        mret (EmbedImages blobs)
  end.

(** Lines 402-423: the reply reference (parent, root) of a job that has
    both indices. *)
Definition reply_refs (migration_job : BlueSkyMigrationJob)
    : M (option (StrongRef * StrongRef)) :=
  match root_index migration_job, parent_index migration_job with
  | Some r, Some p =>
      root_ref ← strong_ref_at r;
      parent_ref ← strong_ref_at p;
      mret (Some (parent_ref, root_ref))
  | _, _ => mret None
  end.

(** [_post_to_bluesky] of the job object at position [i] of the queue. *)
Definition _post_to_bluesky (self : BlueSkyPostingEngine) (i : nat) : M unit :=
  migration_job ← job_at i;
  if simulate self then mret tt
  else if decide (state migration_job = PROCESSED) then mret tt
  else
    embeds ← upload_media self migration_job;
    built ← lift (build_rich_text (text migration_job));
    reply ← reply_refs migration_job;
    let post :=
      {| r_text := built.1; r_facets := built.2; r_embed := embeds;
         r_created_at := created_at migration_job; r_reply := reply |} in
    response ← call (CreatePost post) (create_record post);
    q ← get_queue;
    set_queue (<[i := mark_processed response migration_job]> q);;
    save (mark_processed response migration_job).

Definition login (self : BlueSkyPostingEngine) : M unit :=
  if simulate self then mret tt
  else call (Login (username self) (password self))
         (client_login (username self) (password self)).

(** [time.sleep(secs)]: [ValueError] for a negative length; otherwise
    the library waits and the wait is recorded, or it raises (a length
    beyond what the platform can hold). *)
Definition time_sleep (secs : Z) : M unit :=
  if secs <? 0 then raise ValueError
  else lift (sleep secs);; emit (Sleep secs).

(** Lines 443-449 and 451-468: the bodies of the two loops of [post]. *)
Definition post_only (self : BlueSkyPostingEngine) (index : Z) (i : nat) : M unit :=
  post ← job_at i;
  if archive_index post =? index then _post_to_bluesky self i else mret tt.

Definition post_next (self : BlueSkyPostingEngine) (i : nat) : M unit :=
  post ← job_at i;
  if decide (state post = PROCESSED) then mret tt
  else
    (if (0 <? i)%nat then time_sleep (api_rate_limit_delay_secs (config self))
     else mret tt);;
    if decide (state post = READY ∨ state post = FAILED) then _post_to_bluesky self i
    else mret tt.

(** [post(index)]; both loops walk the queue by position. *)
Definition post (self : BlueSkyPostingEngine) (index : option Z) : M unit :=
  login self;;
  q ← get_queue;
  match index with
  | Some v => for_each (seq 0 (length q)) (post_only self v)
  | None => for_each (seq 0 (length q)) (post_next self)
  end.

(** Lines 478-495: the body of the loop of [rollback]. *)
Definition rollback_job (self : BlueSkyPostingEngine) (i : nat) : M unit :=
  post ← job_at i;
  if decide (state post = READY) then mret tt
  else if decide (state post = PROCESSED ∨ state post = FAILED) then
    call (DeletePost (uri post)) (delete_post (uri post));;
    q ← get_queue;
    set_queue (<[i := mark_ready post]> q);;
    save (mark_ready post)
  else mret tt.

Definition rollback (self : BlueSkyPostingEngine) : M unit :=
  login self;;
  q ← get_queue;
  for_each (seq 0 (length q)) (rollback_job self).

End Engines.

(** ** A concrete environment for the examples *)

(** Days since 1970-01-01 to a proleptic Gregorian date. *)
Definition civil_from_days (days : Z) : Z * Z * Z :=
  let z := days + 719468 in
  let era := z / 146097 in
  let doe := z - era * 146097 in
  let yoe := (doe - doe / 1460 + doe / 36524 - doe / 146096) / 365 in
  let doy := doe - (365 * yoe + yoe / 4 - yoe / 100) in
  let mp := (5 * doy + 2) / 153 in
  let d := doy - (153 * mp + 2) / 5 + 1 in
  let m := if mp <? 10 then mp + 3 else mp - 9 in
  let y := yoe + era * 400 + (if m <=? 2 then 1 else 0) in
  (y, m, d).

(** [datetime.fromtimestamp] in a process whose local time is UTC. *)
Definition utc_fromtimestamp (t : Z) : result datetime :=
  let '(y, m, d) := civil_from_days (t / 86400) in
  let s := t mod 86400 in
  if (1 <=? y) && (y <=? 9999) then
    Ok {| year := y; month := m; day := d;
          hour := s / 3600; minute := (s mod 3600) / 60; second := s mod 60 |}
  else Raise ValueError.

(** [strftime("%Y-%m-%d")] as glibc renders it: the year is not padded. *)
Definition demo_strftime_ymd (dt : datetime) : string :=
  pretty (year dt) +:+ "-" +:+ pad 2 (month dt) +:+ "-" +:+ pad 2 (day dt).

(** A service that accepts the login, every upload and every record,
    numbers the posts it creates, and deletes a post given its [uri] but
    raises for [None]; a text builder that finds no facet, an archive
    folder in which every file exists, and a [time.sleep] that returns. *)
Definition demo_create_strong_ref (c u : option string) : result StrongRef :=
  match c, u with
  | Some c', Some u' => Ok {| ref_cid := c'; ref_uri := u' |}
  | _, _ => Raise ValidationError
  end.

Definition demo_environment : Environment :=
  {| Remote := nat;
     client_login := λ _ _ n, (Ok tt, n);
     upload_blob := λ data n, (Ok ("blob:" +:+ data), n);
     create_record := λ _ n,
       (Ok ("cid" +:+ pretty n, "at://demo/app.bsky.feed.post/" +:+ pretty n), S n);
     delete_post := λ u n,
       match u with
       | Some _ => (Ok tt, n)
       | None => (Raise TypeError, n)
       end;
     create_strong_ref := demo_create_strong_ref;
     build_rich_text := λ t, Ok (t, []);
     read_file := λ folder name, Ok (folder +:+ "/" +:+ name);
     fromtimestamp := utc_fromtimestamp;
     strftime_ymd := demo_strftime_ymd;
     sleep := λ _, Ok tt |}.

Definition demo_world : @world demo_environment :=
  @Build_world demo_environment [] ∅ 0%nat [].

Definition demo_engine (simulated : bool) : BlueSkyPostingEngine :=
  {| archive_folder := "archive"; config := default_config;
     username := Some "user.bsky.social"; password := Some "secret";
     simulate := simulated |}.

Definition sample_post (title : string) (t : Z) (uris : list string)
    : InstagramArchivePost :=
  {| p_media := sample_media <$> uris; p_title := Some title;
     p_creation_timestamp := Some t |}.

Definition sample_job (j a : Z) (st : BlueSkyMigrationJobState)
    (root parent : option Z) (ids : option (string * string)) : BlueSkyMigrationJob :=
  {| archive_index := a; text := "text"; rich_text := "text"; facets := [];
     created_at := "2020-01-01T00:00:00Z"; embed := [sample_media "a.jpg"];
     state := st; job_index := j; root_index := root; parent_index := parent;
     cid := fst <$> ids; uri := snd <$> ids |}.

(** ** What the partitioner is to guarantee *)

Section PartitionerSpec.
Implicit Types (config : MigrationConfig) (media : list InstagramArchiveMedia).
Implicit Types (st : partition_state) (entry : InstagramArchiveMedia).

(** The limit the configuration holds for a kind of media, if any. *)
Definition limit_of config (k : kind) : option Z :=
  match k with
  | image => Some (max_images_per_post config)
  | video => max_videos_per_post config
  end.

(** A batch is well formed: not empty, of one kind, within that kind's limit. *)
Definition batch_ok config (batch : list InstagramArchiveMedia) : Prop :=
  batch ≠ [] ∧
  ∃ k limit, Forall (λ entry, kind_of entry = k) batch ∧
             limit_of config k = Some limit ∧ len batch ≤ limit.

(** Every kind that occurs in the list has a configured limit of at least one. *)
Definition limits_configured config media : Prop :=
  ∀ entry, entry ∈ media →
    ∃ limit, limit_of config (kind_of entry) = Some limit ∧ 1 ≤ limit.

(** The order the strategy asks for. *)
Definition strategy_order (strategy : option MigrationMediaStrategy) media :=
  match strategy with
  | Some VIDEOLAST =>
      List.filter (λ entry, negb (is_mp4 entry)) media ++ List.filter is_mp4 media
  | _ => media
  end.

(** Two videos in a row. *)
Fixpoint adjacent_videos media : bool :=
  match media with
  | first :: (second :: _) as rest =>
      (is_mp4 first && is_mp4 second) || adjacent_videos rest
  | _ => false
  end.

(** A video opens the list or directly follows another video. *)
Definition video_limit_read media : bool :=
  match media with
  | first :: _ => is_mp4 first || adjacent_videos media
  | [] => false
  end.

(** The invariant of the partitioning loop after the items [seen]. *)
Definition partition_inv config (seen : list InstagramArchiveMedia) st : Prop :=
  Forall (batch_ok config) (partitions st) ∧
  concat (partitions st) ++ current_partition st = seen ∧
  match current_partition_type st with
  | None => partitions st = [] ∧ current_partition st = []
  | Some k =>
      current_partition st ≠ [] ∧
      Forall (λ entry, kind_of entry = k) (current_partition st) ∧
      ∃ limit, limit_of config k = Some limit ∧ len (current_partition st) ≤ limit
  end.

(** The partitioning loop from a current type on reads the video limit. *)
Fixpoint raises_from (ty : option kind) media : bool :=
  match media with
  | [] => false
  | entry :: rest =>
      if is_mp4 entry then
        match ty with
        | Some image => raises_from (Some video) rest
        | _ => true
        end
      else raises_from (Some image) rest
  end.

End PartitionerSpec.

(** ** What the queue store is to guarantee *)

(** Dense indices: the job at position [i] has [job_index = i]. *)
Definition dense (jobs : list BlueSkyMigrationJob) : Prop :=
  ∀ i job, jobs !! i = Some job → job_index job = Z.of_nat i.

(** The files left by saving [jobs] one after the other. *)
Definition saved (jobs : list BlueSkyMigrationJob) (files : gmap Z BlueSkyMigrationJob)
    : gmap Z BlueSkyMigrationJob :=
  foldl (λ d job, <[job_index job := job]> d) files jobs.

(** ** What the posting engine is to guarantee *)

Definition is_create (e : event) : bool :=
  match e with
  | CreatePost _ => true
  | _ => false
  end.

Definition is_upload (e : event) : bool :=
  match e with
  | UploadBlob _ => true
  | _ => false
  end.

Definition is_sleep (e : event) : bool :=
  match e with
  | Sleep _ => true
  | _ => false
  end.

(** The job at position [i] of [q] has archive index [v]. *)
Definition has_index (v : Z) (q : list BlueSkyMigrationJob) (i : nat) : bool :=
  match q !! i with
  | Some job => archive_index job =? v
  | None => false
  end.

(** The positions of the jobs of archive index [v], in queue order. *)
Definition positions_of (v : Z) (q : list BlueSkyMigrationJob) : list nat :=
  List.filter (has_index v q) (seq 0 (length q)).

(** The calls that put content on the remote service. *)
Definition is_post_call (e : event) : bool := is_upload e || is_create e.

(** The events of [login]. *)
Definition login_events (self : BlueSkyPostingEngine) : list event :=
  if simulate self then [] else [Login (username self) (password self)].

Section PostingSpec.
Context `{Environment}.

(** Between two worlds only uploads happened: same queue, same files,
    and the new events are all [UploadBlob]. *)
Definition only_uploads (w w' : world) : Prop :=
  queue w' = queue w ∧ disk w' = disk w ∧
  ∃ new, trace w' = trace w ++ new ∧ Forall (λ e, is_upload e = true) new.

(** What [rollback] does to one job of the queue. *)
Definition rolled_back (job : BlueSkyMigrationJob) : BlueSkyMigrationJob :=
  if decide (state job = READY) then job else mark_ready job.

Definition needs_rollback (job : BlueSkyMigrationJob) : bool :=
  bool_decide (state job ≠ READY).

(** The delete calls of [rollback] for a list of jobs, in their order. *)
Definition delete_calls (jobs : list BlueSkyMigrationJob) : list event :=
  (λ job, DeletePost (uri job)) <$> List.filter needs_rollback jobs.

End PostingSpec.

(** ** Sample archives, configurations and queues *)

Definition undated_post : InstagramArchivePost :=
  {| p_media := [sample_media "b.jpg"]; p_title := Some "undated";
     p_creation_timestamp := None |}.

Definition midnight (y m d : Z) : datetime :=
  {| year := y; month := m; day := d; hour := 0; minute := 0; second := 0 |}.

(** [min_date] = 2024-01-02 and [max_date] = 2024-01-04. *)
Definition window_config : MigrationConfig :=
  {| min_date := Some (midnight 2024 1 2); max_date := Some (midnight 2024 1 4);
     queue_dir := "queue"; endpoint := "https://bsky.social";
     media_strategy := Some ORDERED; max_images_per_post := 4;
     post_text_limit := 300; post_text_truncate_suffix := "...";
     api_rate_limit_delay_secs := 3; max_videos_per_post := Some 1 |}.

(** Five posts dated 2024-01-01 to 2024-01-05, at midnight UTC. *)
Definition five_days : list InstagramArchivePost :=
  [sample_post "day 1" 1704067200 ["1.jpg"];
   sample_post "day 2" 1704153600 ["2.jpg"];
   sample_post "day 3" 1704240000 ["3.jpg"];
   sample_post "day 4" 1704326400 ["4.jpg"];
   sample_post "day 5" 1704412800 ["5.jpg"]].

Definition zero_images_config : MigrationConfig := with_max_images 0 default_config.

Definition demo_queue (jobs : list BlueSkyMigrationJob) : @world demo_environment :=
  @Build_world demo_environment jobs (saved jobs ∅) 0%nat [].

(** A thread of two jobs, not posted yet. *)
Definition ready_thread : list BlueSkyMigrationJob :=
  [sample_job 0 0 READY None None None;
   sample_job 1 0 READY (Some 0) (Some 0) None].

(** A job that has been posted. *)
Definition posted_job : BlueSkyMigrationJob :=
  sample_job 0 1 PROCESSED None None (Some ("cid0", "at://demo/app.bsky.feed.post/0")).

(** A posted thread of two jobs, followed by a job that is not posted. *)
Definition posted_thread : list BlueSkyMigrationJob :=
  [sample_job 0 0 PROCESSED None None
     (Some ("cid0", "at://demo/app.bsky.feed.post/0"));
   sample_job 1 0 PROCESSED (Some 0) (Some 0)
     (Some ("cid1", "at://demo/app.bsky.feed.post/1"));
   sample_job 2 1 READY None None None].

(** Jobs of archive index 1, posted, ready and failed, around a job of
    another post. *)
Definition indexed_queue : list BlueSkyMigrationJob :=
  [sample_job 0 1 PROCESSED None None
     (Some ("cid0", "at://demo/app.bsky.feed.post/0"));
   sample_job 1 1 READY None None None;
   sample_job 2 2 READY None None None;
   sample_job 3 1 FAILED None None None].

(** A posted job, a failed job that was never posted, a posted job. *)
Definition failed_between : list BlueSkyMigrationJob :=
  [sample_job 0 0 PROCESSED None None
     (Some ("cid0", "at://demo/app.bsky.feed.post/0"));
   sample_job 1 1 FAILED None None None;
   sample_job 2 2 PROCESSED None None
     (Some ("cid2", "at://demo/app.bsky.feed.post/2"))].

(** A reply whose root, first in the queue, has not been posted. *)
Definition orphan_thread : list BlueSkyMigrationJob :=
  [sample_job 0 0 READY None None None;
   sample_job 1 0 FAILED (Some 0) (Some 0) None].

(** ** What the engines keep between runs *)

Section KeptSpec.
Context `{Environment}.

(** The files are exactly what saving the queue leaves, and the queue has
    dense indices. *)
Definition in_sync (w : world) : Prop :=
  dense (queue w) ∧ disk w = saved (queue w) ∅.

(** Lines 343-344 of [BlueSkyPostingEngine.__init__]: a new
    [MigrationQueue] over the directory, then [load]. *)
Definition open_queue (files : list BlueSkyMigrationJob) : M unit :=
  λ w, load files (fresh_store w).

(** A job after a posting run: as it was, or posted from a state other
    than PROCESSED. *)
Definition posted_or_untouched (job job' : BlueSkyMigrationJob) : Prop :=
  job' = job ∨
  (state job ≠ PROCESSED ∧ ∃ response, job' = mark_processed response job).

(** A job after a rollback: as it was, or reset from a state other than READY. *)
Definition reset_or_untouched (job job' : BlueSkyMigrationJob) : Prop :=
  job' = job ∨ (state job ≠ READY ∧ job' = mark_ready job).

(** The queue of [w'] holds, position by position, the jobs of [w]
    changed as [change] allows. *)
Definition jobwise (change : BlueSkyMigrationJob → BlueSkyMigrationJob → Prop)
    (w w' : world) : Prop :=
  length (queue w') = length (queue w) ∧
  ∀ i job, queue w !! i = Some job →
    ∃ job', queue w' !! i = Some job' ∧ change job job'.

(** A computation keeps a property of the world, whatever its outcome. *)
Definition keeps {A} (P : world → Prop) (m : M A) : Prop :=
  ∀ w r w', P w → m w = (r, w') → P w'.

(** A property of the queue and the files only. *)
Definition of_store (P : world → Prop) : Prop :=
  ∀ w w', queue w' = queue w → disk w' = disk w → P w → P w'.

End KeptSpec.

Section RunSpec.
Context `{Environment}.

(** A job that the driver loop of [post] does not skip. *)
Definition unprocessed (job : BlueSkyMigrationJob) : bool :=
  bool_decide (state job ≠ PROCESSED).

(** The world with some more events. *)
Definition with_events (w : world) (new : list event) : world :=
  {| queue := queue w; disk := disk w; remote := remote w; trace := trace w ++ new |}.

(** [time.sleep] of the configured delay returns: the delay is not
    negative and the library accepts it. *)
Definition waits_return (self : BlueSkyPostingEngine) : Prop :=
  0 ≤ api_rate_limit_delay_secs (config self) ∧
  sleep (api_rate_limit_delay_secs (config self)) = Ok tt.

End RunSpec.

Section FullRunSpec.
Context `{Environment}.

(** The job has media, the files of its media can be read and its text
    can be built. *)
Definition postable_job (self : BlueSkyPostingEngine) (job : BlueSkyMigrationJob) : Prop :=
  embed job ≠ [] ∧
  (∀ entry, entry ∈ embed job →
     ∃ data, read_file (archive_folder self) (m_uri entry) = Ok data) ∧
  ∃ built, build_rich_text (text job) = Ok built.

(** The job carries the identifiers of its post. *)
Definition identified (job : BlueSkyMigrationJob) : Prop :=
  is_Some (cid job) ∧ is_Some (uri job).

(** The service accepts the login, every upload and every record, and
    a strong reference can be made from any two identifiers. *)
Definition service_answers (self : BlueSkyPostingEngine) : Prop :=
  (∀ c, ∃ c', client_login (username self) (password self) c = (Ok tt, c')) ∧
  (∀ data c, ∃ blob c', upload_blob data c = (Ok blob, c')) ∧
  (∀ record c, ∃ response c', create_record record c = (Ok response, c')) ∧
  (∀ c u, ∃ ref, create_strong_ref (Some c) (Some u) = Ok ref).

(** Every job can be posted, a job that is PROCESSED is identified, and
    the root and parent of a reply sit before it in the queue. *)
Definition well_linked (self : BlueSkyPostingEngine)
    (q : list BlueSkyMigrationJob) : Prop :=
  ∀ i job, q !! i = Some job →
    postable_job self job ∧
    (state job = PROCESSED → identified job) ∧
    ∀ r p, root_index job = Some r → parent_index job = Some p →
      0 ≤ r < Z.of_nat i ∧ 0 ≤ p < Z.of_nat i.

End FullRunSpec.

(** ** What the queue builder leaves *)

(** A job as the queue builder leaves it at position [i] after a queue of
    length [base]: indexed by its position, READY, without identifiers, and
    either the head of a thread or a reply to the job just before it, with
    a root among the new jobs before it. *)
Definition built_job (base : Z) (i : nat) (job : BlueSkyMigrationJob) : Prop :=
  job_index job = base + Z.of_nat i ∧
  state job = READY ∧ cid job = None ∧ uri job = None ∧
  ((root_index job = None ∧ parent_index job = None) ∨
   (∃ r, root_index job = Some r ∧ parent_index job = Some (job_index job - 1) ∧
         base ≤ r < job_index job)).

(** Lines 267-270: the text of a job before truncation. *)
Definition raw_post_text (title : option string) (index n : nat) : result string :=
  if (1 <? n)%nat then
    Ok ("[" +:+ pretty (S index) +:+ "/" +:+ pretty n +:+ "] " +:+ default "None" title)
  else
    match title with
    | Some t => Ok t
    | None => Raise TypeError
    end.

(** A job the destination accepts: a non-empty batch of one kind within
    its limit, and a text within the text limit. *)
Definition legal_job (config : MigrationConfig) (job : BlueSkyMigrationJob) : Prop :=
  batch_ok config (embed job) ∧ slen (text job) ≤ post_text_limit config.

(** Both per-kind limits are configured and at least one, and the
    truncation suffix fits in the text limit. *)
Definition sane_limits (config : MigrationConfig) : Prop :=
  1 ≤ max_images_per_post config ∧
  (∃ v, max_videos_per_post config = Some v ∧ 1 ≤ v) ∧
  slen (post_text_truncate_suffix config) ≤ post_text_limit config.

(** ** Greedy batches *)

(** The kind of a batch is the kind of its first item. *)
Definition batch_kind (batch : list InstagramArchiveMedia) : option kind :=
  kind_of <$> head batch.

(** The batch holds as many items as the limit of its kind allows. *)
Definition full_batch (config : MigrationConfig)
    (batch : list InstagramArchiveMedia) : Prop :=
  ∃ k, batch_kind batch = Some k ∧ limit_of config k = Some (len batch).

(** A batch followed by a batch of the same kind is full. *)
Fixpoint greedy (config : MigrationConfig)
    (batches : list (list InstagramArchiveMedia)) : Prop :=
  match batches with
  | first :: (second :: _) as rest =>
      (batch_kind first = batch_kind second → full_batch config first) ∧
      greedy config rest
  | _ => True
  end.

(** ** The command line ([run.py]) *)

Inductive Command := Import | Migrate | Simulate.

Global Instance Command_eq_dec : EqDecision Command.
Proof. solve_decision. Defined.

(** The parsed arguments that [main] reads. *)
Record Args := {
  command : Command;
  arg_archive_folder : string;
  pick : option Z;
  arg_username : option string
}.

(** The same command line with another [--pick]. *)
Definition with_pick (picked : option Z) (args : Args) : Args :=
  {| command := command args; arg_archive_folder := arg_archive_folder args;
     pick := picked; arg_username := arg_username args |}.

(** How a run of [main] ends: it returns, or an exception of the engines
    or the [UnboundLocalError] of [main] itself goes uncaught. *)
Inductive Outcome :=
| Returned
| Uncaught (e : exn)
| UnboundLocal.

Definition outcome_of (r : result unit) : Outcome :=
  match r with
  | Ok _ => Returned
  | Raise e => Uncaught e
  end.

Section Main.
Context `{Environment}.

(** Lines 60-65: [if args.pick:] is false for no pick and for a pick of zero. *)
Definition post_picked (post_handler : BlueSkyPostingEngine) (picked : option Z)
    : M unit :=
  match picked with
  | Some v => if v =? 0 then post post_handler None else post post_handler (Some v)
  | None => post post_handler None
  end.

(** [main], given the loaded configuration, the posts of the decoded
    archive, the password of the environment if it holds one, the password
    typed otherwise, and the jobs of the files in the order [glob] lists
    them.  Each run is a new process: its engine starts from a new
    [MigrationQueue] over the directory.  The local variable [password]
    is bound only on the branch of a run that is not simulated. *)
Definition main (args : Args) (loaded : MigrationConfig)
    (insta_posts : list InstagramArchivePost)
    (environ_password : option string) (typed_password : string)
    (files : list BlueSkyMigrationJob) (w : world) : Outcome * world :=
  match command args with
  | Import =>
      let '(r, w') := extract_posts_to_queue loaded insta_posts (fresh_store w) in
      (outcome_of r, w')
  | _ =>
      let simulated := bool_decide (command args = Simulate) in
      let bound_password :=
        if simulated then None else Some (default typed_password environ_password) in
      match bound_password with
      | None => (UnboundLocal, w)
      | Some secret =>
          let post_handler :=
            {| archive_folder := arg_archive_folder args; config := loaded;
               username := arg_username args; password := Some secret;
               simulate := simulated |} in
          let '(r, w') := (open_queue files;; post_picked post_handler (pick args)) w in
          (outcome_of r, w')
      end
  end.

(** The engine that [main] builds for a migration. *)
Definition migration_engine (args : Args) (loaded : MigrationConfig)
    (environ_password : option string) (typed_password : string)
    : BlueSkyPostingEngine :=
  {| archive_folder := arg_archive_folder args; config := loaded;
     username := arg_username args;
     password := Some (default typed_password environ_password);
     simulate := false |}.

End Main.

(** ** A complete import *)

(** The key of the sort of line 157 for a post of the archive: its
    timestamp as the first loop rectifies it. *)
Definition rectified_key (post : InstagramArchivePost) : Z :=
  default 0 (rectify_timestamp post).

Section ImportSpec.
Context `{Environment}.

(** A post the first loop gets through: it is dated, by itself or by its
    first media, with a timestamp the library turns into a date, and its
    title can be figured out. *)
Definition importable (post : InstagramArchivePost) : Prop :=
  (∃ t dt, rectify_timestamp post = Some t ∧ fromtimestamp t = Ok dt) ∧
  ∃ title, _figure_out_post_title post = Ok title.

(** What the first loop makes of a post. *)
Definition normalized (post post' : InstagramArchivePost) : Prop :=
  p_media post' = p_media post ∧
  p_creation_timestamp post' = rectify_timestamp post ∧
  is_Some (p_title post') ∧
  ∃ t dt, p_creation_timestamp post' = Some t ∧ fromtimestamp t = Ok dt.

End ImportSpec.

(** ** The records of a run *)

Definition record_in (e : event) : option PostRecord :=
  match e with
  | CreatePost record => Some record
  | _ => None
  end.

(** The records of the create-post calls among the events, oldest first. *)
Definition created_records (events : list event) : list PostRecord :=
  omap record_in events.

Section RecordSpec.
Context `{Environment}.

(** Lines 362-392: one video when the first media of the job is a video,
    else one image for each media of the job. *)
Definition embed_of (job : BlueSkyMigrationJob) (embeds : Embed) : Prop :=
  match embeds with
  | EmbedVideo _ => ∃ first, head (embed job) = Some first ∧ is_mp4 first = true
  | EmbedImages images =>
      length images = length (embed job) ∧
      ∃ first, head (embed job) = Some first ∧ is_mp4 first = false
  end.

(** No reply for a job without root or parent; else a reply to the posts
    that the jobs of [q] at the two indices are identified with. *)
Definition reply_of (q : list BlueSkyMigrationJob) (job : BlueSkyMigrationJob)
    (reply : option (StrongRef * StrongRef)) : Prop :=
  match root_index job, parent_index job with
  | Some r, Some p =>
      ∃ root_job parent_job root_ref parent_ref,
        py_index q r = Ok root_job ∧ py_index q p = Ok parent_job ∧
        create_strong_ref (cid root_job) (uri root_job) = Ok root_ref ∧
        create_strong_ref (cid parent_job) (uri parent_job) = Ok parent_ref ∧
        reply = Some (parent_ref, root_ref)
  | _, _ => reply = None
  end.

(** The record is the one of the job: the text and facets built from its
    text, its date, its media, and its place in the thread. *)
Definition record_of (q : list BlueSkyMigrationJob) (job : BlueSkyMigrationJob)
    (record : PostRecord) : Prop :=
  build_rich_text (text job) = Ok (r_text record, r_facets record) ∧
  r_created_at record = created_at job ∧
  embed_of job (r_embed record) ∧
  reply_of q job (r_reply record).

End RecordSpec.

(** ** Sample command lines and runs *)

Definition demo_args (c : Command) (picked : option Z) : Args :=
  {| command := c; arg_archive_folder := "archive"; pick := picked;
     arg_username := Some "user.bsky.social" |}.

(** The defaults, with a limit of one video per post. *)
Definition video_config : MigrationConfig := with_max_videos 1 default_config.

Definition five_images : list InstagramArchiveMedia :=
  sample_media <$> ["1.jpg"; "2.jpg"; "3.jpg"; "4.jpg"; "5.jpg"].


(** The files of the directory, in the order of their names. *)
Definition listing (w : @world demo_environment) : list BlueSkyMigrationJob :=
  (map_to_list (disk w)).*2.

Definition posted_run : result unit * @world demo_environment :=
  post (demo_engine false) None (demo_queue ready_thread).

Definition picked_run : result unit * @world demo_environment :=
  post (demo_engine false) (Some 0) (demo_queue ready_thread).

Definition rollback_run : result unit * @world demo_environment :=
  rollback (demo_engine false) (demo_queue posted_thread).

(** A text limit of ten characters. *)
Definition short_text_config : MigrationConfig := with_text_limit 10 default_config.

(** Twelve characters, twenty-four bytes. *)
Definition accented_title : string := "éééééééééééé".

(** A text limit below the length of the titles of [five_days]. *)
Definition short_video_config : MigrationConfig := with_text_limit 20 video_config.

Definition short_import_run : result unit * @world demo_environment :=
  extract_posts_to_queue short_video_config five_days demo_world.

(** A simulated engine configured with a negative delay. *)
Definition hasty_engine : BlueSkyPostingEngine :=
  {| archive_folder := "archive"; config := with_delay (-1) default_config;
     username := Some "user.bsky.social"; password := Some "secret";
     simulate := true |}.

(** The single jobs of two posts. *)
Definition two_posts : list BlueSkyMigrationJob :=
  [sample_job 0 0 READY None None None; sample_job 1 1 READY None None None].





Definition pick_command_run (picked : option Z) : Outcome * @world demo_environment :=
  main (with_pick picked (demo_args Migrate None)) video_config [] None "secret"
    (listing (demo_queue two_posts)) (demo_queue two_posts).

Definition simulate_command_run : Outcome * @world demo_environment :=
  main (demo_args Simulate None) video_config [] None "secret"
    (listing (demo_queue ready_thread)) (demo_queue ready_thread).

(** * Properties *)

(** ** The media partitioner *)

Section Partitioner.
Implicit Types (config : MigrationConfig) (media : list InstagramArchiveMedia).
Implicit Types (st : partition_state) (entry : InstagramArchiveMedia).

Lemma videolast_fold media images videos :
  fold_left videolast_step media (images, videos)
  = (images ++ List.filter (λ entry, negb (is_mp4 entry)) media,
     videos ++ List.filter is_mp4 media).
Proof.
  revert images videos.
  induction media as [|entry media IH]; intros images videos; simpl.
  - by rewrite !app_nil_r.
  - destruct (is_mp4 entry); simpl; rewrite IH; by rewrite <- app_assoc.
Qed.

Lemma reorder_strategy_order strategy media :
  reorder strategy media = strategy_order strategy media.
Proof.
  destruct strategy as [[]|]; simpl; try done.
  by rewrite videolast_fold.
Qed.

Lemma filter_split_perm media :
  List.filter (λ entry, negb (is_mp4 entry)) media ++ List.filter is_mp4 media ≡ₚ media.
Proof.
  induction media as [|entry media IH]; simpl; [done|].
  destruct (is_mp4 entry); simpl.
  - rewrite <- Permutation_middle. by constructor.
  - by constructor.
Qed.

Lemma strategy_order_perm strategy media : strategy_order strategy media ≡ₚ media.
Proof.
  destruct strategy as [[]|]; simpl; try done. apply filter_split_perm.
Qed.

Lemma len_app_one {A} (l : list A) (x : A) : len (l ++ [x]) = len l + 1.
Proof. unfold len. rewrite length_app. simpl. lia. Qed.

Lemma concat_snoc {A} (ls : list (list A)) (l : list A) :
  concat (ls ++ [l]) = concat ls ++ l.
Proof. by rewrite concat_app; simpl; rewrite app_nil_r. Qed.

Lemma partition_step_inv config seen st entry :
  partition_inv config seen st →
  (∃ limit, limit_of config (kind_of entry) = Some limit ∧ 1 ≤ limit) →
  ∃ st', partition_step config st entry = Ok st' ∧
         partition_inv config (seen ++ [entry]) st'.
Proof.
  intros (Hps & Hcat & Hcur) (limit & Hlimit & Hpos).
  unfold partition_step, kind_of in *.
  destruct (current_partition_type st) as [k|] eqn:Hty.
  - destruct Hcur as (Hne & Hkind & limit' & Hlimit' & Hlen).
    assert (Hclosed : Forall (batch_ok config) (partitions st ++ [current_partition st])).
    { apply Forall_app; split; [done|]. constructor; [|done].
      split; [done|]. by exists k, limit'. }
    destruct k, (is_mp4 entry) eqn:Hmp4; simpl in *.
    + (* a video after videos *)
      unfold get_max_videos_per_post. rewrite Hlimit. simpl.
      assert (limit' = limit) as -> by congruence.
      destruct (len (current_partition st) <? limit) eqn:Hlt; eexists; (split; [done|]).
      * apply Z.ltb_lt in Hlt.
        split; [done|]. split; simpl; [by rewrite app_assoc, Hcat|].
        split; [by destruct (current_partition st)|].
        split; [apply Forall_app; split; [done|]; constructor; [by unfold kind_of; rewrite ?Hmp4|done]|].
        exists limit. rewrite len_app_one. split; [done|lia].
      * split; [done|]. split; simpl; [by rewrite concat_snoc, Hcat|].
        split; [done|]. split; [constructor; [by unfold kind_of; rewrite ?Hmp4|done]|].
        exists limit. split; [done|]. unfold len; simpl; lia.
    + (* an image after videos *)
      eexists; split; [done|].
      split; [done|]. split; simpl; [by rewrite concat_snoc, Hcat|].
      split; [done|]. split; [constructor; [by unfold kind_of; rewrite ?Hmp4|done]|].
      exists limit. split; [done|]. unfold len; simpl; lia.
    + (* a video after images *)
      eexists; split; [done|].
      split; [done|]. split; simpl; [by rewrite concat_snoc, Hcat|].
      split; [done|]. split; [constructor; [by unfold kind_of; rewrite ?Hmp4|done]|].
      exists limit. split; [done|]. unfold len; simpl; lia.
    + (* an image after images *)
      assert (limit' = limit) as -> by congruence.
      assert (max_images_per_post config = limit) as -> by congruence.
      destruct (len (current_partition st) <? limit) eqn:Hlt; eexists; (split; [done|]).
      * apply Z.ltb_lt in Hlt.
        split; [done|]. split; simpl; [by rewrite app_assoc, Hcat|].
        split; [by destruct (current_partition st)|].
        split; [apply Forall_app; split; [done|]; constructor; [by unfold kind_of; rewrite ?Hmp4|done]|].
        exists limit. rewrite len_app_one. split; [done|lia].
      * split; [done|]. split; simpl; [by rewrite concat_snoc, Hcat|].
        split; [done|]. split; [constructor; [by unfold kind_of; rewrite ?Hmp4|done]|].
        exists limit. split; [done|]. unfold len; simpl; lia.
  - (* the first item *)
    destruct Hcur as (Hps0 & Hcur0). rewrite Hps0, Hcur0 in *. simpl in Hcat. subst seen.
    destruct (is_mp4 entry) eqn:Hmp4; simpl in *.
    + unfold get_max_videos_per_post. rewrite Hlimit. simpl.
      assert ((len (@nil InstagramArchiveMedia) <? limit) = true) as ->
        by (apply Z.ltb_lt; unfold len; simpl; lia).
      eexists; split; [done|]. split; [done|]. split; [done|]. simpl.
      split; [done|]. split; [constructor; [by unfold kind_of; rewrite ?Hmp4|done]|].
      exists limit. split; [done|]. unfold len; simpl; lia.
    + assert (max_images_per_post config = limit) as -> by congruence.
      assert ((len (@nil InstagramArchiveMedia) <? limit) = true) as ->
        by (apply Z.ltb_lt; unfold len; simpl; lia).
      eexists; split; [done|]. split; [done|]. split; [done|]. simpl.
      split; [done|]. split; [constructor; [by unfold kind_of; rewrite ?Hmp4|done]|].
      exists limit. split; [done|]. unfold len; simpl; lia.
Qed.

Lemma partition_loop_inv config media seen st :
  partition_inv config seen st →
  limits_configured config media →
  ∃ st', partition_loop config st media = Ok st' ∧
         partition_inv config (seen ++ media) st'.
Proof.
  revert seen st.
  induction media as [|entry media IH]; intros seen st Hinv Hlim; simpl.
  - exists st. by rewrite app_nil_r.
  - destruct (partition_step_inv config seen st entry Hinv) as (st1 & -> & Hinv1).
    { apply Hlim. by left. }
    simpl. destruct (IH (seen ++ [entry]) st1 Hinv1) as (st' & Hst' & Hinv').
    { intros e He. apply Hlim. by right. }
    exists st'. split; [done|]. by rewrite <- app_assoc in Hinv'.
Qed.

Lemma limits_configured_perm config media media' :
  media' ≡ₚ media → limits_configured config media → limits_configured config media'.
Proof. intros Hperm Hlim entry Hin. apply Hlim. by rewrite <- Hperm. Qed.

Lemma limits_configured_all config media v :
  1 ≤ max_images_per_post config →
  max_videos_per_post config = Some v → 1 ≤ v →
  limits_configured config media.
Proof.
  intros Himg Hvid Hv entry _. destruct (kind_of entry); simpl; eauto.
Qed.

Lemma partition_loop_raises config media st :
  max_videos_per_post config = None →
  if raises_from (current_partition_type st) media
  then partition_loop config st media = Raise AttributeError
  else ∃ st', partition_loop config st media = Ok st'.
Proof.
  intros Hnone. revert st.
  induction media as [|entry media IH]; intros st; simpl; [by eexists|].
  unfold partition_step, get_max_videos_per_post. rewrite Hnone.
  destruct (current_partition_type st) as [[]|], (is_mp4 entry); simpl; try done;
    try destruct (len (current_partition st) <? max_images_per_post config);
    match goal with
    | |- context [partition_loop config ?st' media] => apply (IH st')
    end.
Qed.

Lemma raises_from_adjacent media :
  raises_from (Some image) media = adjacent_videos media ∧
  raises_from (Some video) media = video_limit_read media ∧
  raises_from None media = video_limit_read media.
Proof.
  induction media as [|entry media (IHi & IHv & IHn)]; simpl; [done|].
  destruct (is_mp4 entry) eqn:Hmp4; simpl.
  - split; [|done]. rewrite IHv. destruct media as [|second media]; simpl; [done|].
    by destruct (is_mp4 second).
  - rewrite IHi. by destruct media.
Qed.

(** C2, as amended: for every configuration that holds a limit of at least
    one for each kind of media in the list, and for both strategies,
    [_partition_media] returns batches that are each non-empty, of a single
    kind and within that kind's limit; their concatenation is the input in
    the order of the strategy (the input order, or the images followed by
    the videos, each in input order), hence a permutation of the input; and
    a non-empty input gives a non-empty output. *)
Theorem partition_media_postcondition config media strategy :
  limits_configured config media →
  ∃ batches,
    _partition_media config media strategy = Ok batches ∧
    Forall (batch_ok config) batches ∧
    concat batches = strategy_order strategy media ∧
    concat batches ≡ₚ media ∧
    (media ≠ [] → batches ≠ []).
Proof.
  intros Hlim.
  pose (st0 := {| partitions := []; current_partition := [];
                  current_partition_type := None |}).
  destruct (partition_loop_inv config (reorder strategy media) [] st0)
    as (st & Hloop & Hps & Hcat & Hcur).
  { by repeat split. }
  { apply (limits_configured_perm _ media); [|done].
    rewrite reorder_strategy_order. apply strategy_order_perm. }
  simpl in Hcat. rewrite reorder_strategy_order in Hcat.
  assert (∃ batches,
            _partition_media config media strategy = Ok batches ∧
            Forall (batch_ok config) batches ∧
            concat batches = strategy_order strategy media)
    as (batches & Hrun & Hok & Hconcat).
  { unfold _partition_media. fold st0. rewrite Hloop. simpl.
    destruct (current_partition st) as [|first rest] eqn:Hlast.
    - eexists. split; [done|]. split; [done|]. by rewrite app_nil_r in Hcat.
    - eexists. split; [done|]. rewrite concat_snoc. split; [|done].
      apply Forall_app. split; [done|]. constructor; [|done].
      destruct (current_partition_type st) as [k|]; [|by destruct Hcur].
      destruct Hcur as (Hne & Hkind & limit & Hlimit & Hlen).
      split; [done|]. by exists k, limit. }
  exists batches. split; [done|]. split; [done|]. split; [done|].
  split; [rewrite Hconcat; apply strategy_order_perm|].
  intros Hne ->. simpl in Hconcat.
  pose proof (strategy_order_perm strategy media) as Hperm.
  rewrite <- Hconcat in Hperm. by apply Permutation_nil in Hperm.
Qed.

(** C10, as amended: when the configuration has no [max_videos_per_post],
    [_partition_media] raises [AttributeError] exactly when, in the order
    the strategy walks the list, a video comes first or directly follows
    another video; every other list, even one that holds videos, is
    partitioned without error. *)
Theorem partition_media_without_video_limit config media strategy :
  max_videos_per_post config = None →
  if video_limit_read (strategy_order strategy media)
  then _partition_media config media strategy = Raise AttributeError
  else ∃ batches, _partition_media config media strategy = Ok batches.
Proof.
  intros Hnone. unfold _partition_media.
  pose (st0 := {| partitions := []; current_partition := [];
                  current_partition_type := None |}).
  fold st0. pose proof (partition_loop_raises config (reorder strategy media) st0 Hnone) as Hloop.
  destruct (raises_from_adjacent (reorder strategy media)) as (_ & _ & Hread).
  simpl in Hloop. rewrite Hread, reorder_strategy_order in Hloop.
  rewrite reorder_strategy_order.
  destruct (video_limit_read (strategy_order strategy media)).
  - by rewrite Hloop.
  - destruct Hloop as (st & ->). simpl. destruct (current_partition st); by eexists.
Qed.

End Partitioner.

(** ** The stable sort *)

Section StableSortFacts.
Context {A : Type} (key : A → Z).

Lemma insert_by_perm x (l : list A) : insert_by key x l ≡ₚ x :: l.
Proof.
  induction l as [|y l IH]; simpl; [done|].
  destruct (key x <=? key y); [done|]. rewrite IH. apply perm_swap.
Qed.

Lemma sorted_by_perm (l : list A) : sorted_by key l ≡ₚ l.
Proof.
  induction l as [|x l IH]; simpl; [done|].
  rewrite insert_by_perm. by constructor.
Qed.

Lemma insert_by_sorted x (l : list A) :
  StronglySorted (λ a b, key a ≤ key b) l →
  StronglySorted (λ a b, key a ≤ key b) (insert_by key x l).
Proof.
  induction 1 as [|y l Hsorted IH Hall]; simpl.
  - by repeat constructor.
  - destruct (key x <=? key y) eqn:Hle.
    + apply Z.leb_le in Hle. constructor; [by constructor|].
      constructor; [done|]. eapply Forall_impl; [exact Hall|].
      intros z Hz. simpl in *. lia.
    + apply Z.leb_gt in Hle. constructor; [done|].
      rewrite insert_by_perm. constructor; [lia|done].
Qed.

Lemma sorted_by_sorted (l : list A) :
  StronglySorted (λ a b, key a ≤ key b) (sorted_by key l).
Proof.
  induction l as [|x l IH]; simpl; [constructor|]. by apply insert_by_sorted.
Qed.

Lemma increasing_sorted (l : list A) :
  StronglySorted (λ a b, key a < key b) l →
  StronglySorted (λ a b, key a ≤ key b) l.
Proof.
  induction 1 as [|y l Hsorted IH Hall]; constructor; [done|].
  eapply Forall_impl; [exact Hall|]. intros z Hz. simpl in *. lia.
Qed.

(** Sorting any arrangement of a list whose keys strictly increase gives
    that list back. *)
Lemma sorted_by_increasing (l l' : list A) :
  StronglySorted (λ a b, key a < key b) l →
  l' ≡ₚ l →
  sorted_by key l' = l.
Proof.
  intros Hinc Hperm.
  apply (StronglySorted_unique_strong (λ a b, key a ≤ key b)).
  - intros x1 x2 Hx1 Hx2 H12 H21.
    rewrite sorted_by_perm, Hperm in Hx1.
    clear Hperm. induction Hinc as [|y l Hsorted IH Hall]; [by inv Hx1|].
    rewrite Forall_forall in Hall.
    inv Hx1; inv Hx2; try done.
    + match goal with Hin : x2 ∈ l |- _ => specialize (Hall _ Hin) end. simpl in *. lia.
    + match goal with Hin : x1 ∈ l |- _ => specialize (Hall _ Hin) end. simpl in *. lia.
    + by apply IH.
  - apply sorted_by_sorted.
  - by apply increasing_sorted.
  - by rewrite sorted_by_perm.
Qed.

End StableSortFacts.

(** ** The queue store *)

Section QueueStore.
Context `{Environment}.
Implicit Types (w : world) (jobs files : list BlueSkyMigrationJob).

Lemma for_each_append jobs w :
  for_each jobs append w
  = (Ok tt, {| queue := queue w ++ jobs; disk := saved jobs (disk w);
               remote := remote w; trace := trace w |}).
Proof.
  revert w. induction jobs as [|job jobs IH]; intros w; simpl.
  - rewrite app_nil_r. by destruct w.
  - unfold mbind, M_bind at 1. unfold append at 1, mbind, M_bind, get_queue, set_queue, save.
    simpl. rewrite IH. simpl. by rewrite <- app_assoc.
Qed.

Lemma for_each_collect files w :
  for_each files (λ job, q ← get_queue; set_queue (q ++ [job])) w
  = (Ok tt, {| queue := queue w ++ files; disk := disk w;
               remote := remote w; trace := trace w |}).
Proof.
  revert w. induction files as [|job files IH]; intros w; simpl.
  - rewrite app_nil_r. by destruct w.
  - unfold mbind, M_bind at 1. unfold mbind, M_bind, get_queue, set_queue.
    simpl. rewrite IH. simpl. by rewrite <- app_assoc.
Qed.

Lemma load_sorts files w :
  load files w
  = (Ok tt, {| queue := sorted_by job_index (queue w ++ files); disk := disk w;
               remote := remote w; trace := trace w |}).
Proof.
  unfold load. unfold mbind, M_bind at 1. rewrite for_each_collect. done.
Qed.

Lemma saved_listing jobs (d : gmap Z BlueSkyMigrationJob) :
  NoDup (job_index <$> jobs) →
  (∀ job, job ∈ jobs → d !! job_index job = None) →
  (map_to_list (saved jobs d)).*2 ≡ₚ (map_to_list d).*2 ++ jobs.
Proof.
  revert d. induction jobs as [|job jobs IH]; intros d Hnodup Hfree; simpl.
  - by rewrite app_nil_r.
  - rewrite fmap_cons in Hnodup. apply NoDup_cons in Hnodup as [Hnotin Hnodup].
    unfold saved in *. rewrite IH; [|done|].
    + rewrite map_to_list_insert by (apply Hfree; by left).
      simpl. by rewrite Permutation_middle.
    + intros job' Hin. rewrite lookup_insert_ne; [apply Hfree; by right|].
      intros Heq. apply Hnotin. rewrite Heq. by apply list_elem_of_fmap_2.
Qed.

Lemma dense_increasing jobs :
  dense jobs → StronglySorted (λ a b, job_index a < job_index b) jobs.
Proof.
  intros Hdense. induction jobs as [|job jobs IH] using rev_ind; [constructor|].
  apply StronglySorted_app_2.
  - intros x1 x2 Hx1 Hx2. apply list_elem_of_singleton in Hx2 as ->.
    apply list_elem_of_lookup in Hx1 as [i Hi].
    rewrite (Hdense i x1) by (by apply lookup_app_l_Some).
    rewrite (Hdense (length jobs) job) by (by rewrite list_lookup_middle).
    apply lookup_lt_Some in Hi. lia.
  - apply IH. intros i x Hi. apply Hdense. by apply lookup_app_l_Some.
  - by repeat constructor.
Qed.

Lemma increasing_NoDup jobs :
  StronglySorted (λ a b, job_index a < job_index b) jobs →
  NoDup (job_index <$> jobs).
Proof.
  induction 1 as [|job jobs Hsorted IH Hall]; simpl; constructor; [|done].
  intros Hin. apply list_elem_of_fmap in Hin as (job' & Heq & Hin').
  rewrite Forall_forall in Hall. specialize (Hall _ Hin'). simpl in Hall. lia.
Qed.

(** C9: when jobs with dense indices are appended to a store whose
    directory is empty, every append succeeds, and a load by a fresh store
    over that directory, whatever the order in which the files are listed,
    rebuilds exactly the appended sequence (same jobs, same order); a load
    over an empty directory gives the empty queue and no error. *)
Theorem append_load_round_trip w jobs :
  disk w = ∅ →
  dense jobs →
  ∃ w1,
    for_each jobs append w = (Ok tt, w1) ∧
    (∀ files, is_listing files w1 →
       ∃ w2, load files (fresh_store w1) = (Ok tt, w2) ∧ queue w2 = jobs) ∧
    (∀ files, is_listing files w →
       ∃ w2, load files (fresh_store w) = (Ok tt, w2) ∧ queue w2 = []).
Proof.
  intros Hempty Hdense. eexists. split; [apply for_each_append|].
  pose proof (dense_increasing jobs Hdense) as Hinc.
  split; intros files Hlist; unfold is_listing in Hlist; simpl in Hlist;
    rewrite load_sorts; eexists; (split; [done|]); simpl.
  - apply sorted_by_increasing; [done|].
    rewrite Hlist, saved_listing.
    + by rewrite Hempty, map_to_list_empty.
    + by apply increasing_NoDup.
    + intros job _. by rewrite Hempty.
  - rewrite Hempty, map_to_list_empty in Hlist. simpl in Hlist.
    by apply Permutation_nil_r in Hlist as ->.
Qed.

End QueueStore.

(** ** Running the monad *)

Section Running.
Context `{Environment}.

Lemma bind_run {A B} (m : M A) (k : A → M B) (w : world) :
  (m ≫= k) w
  = match m w with
    | (Ok a, w') => k a w'
    | (Raise e, w') => (Raise e, w')
    end.
Proof. reflexivity. Qed.

Lemma bind_ok {A B} (m : M A) (k : A → M B) (w w' : world) a :
  m w = (Ok a, w') → (m ≫= k) w = k a w'.
Proof. intros Hm. by rewrite bind_run, Hm. Qed.

Lemma bind_raise {A B} (m : M A) (k : A → M B) (w w' : world) e :
  m w = (Raise e, w') → (m ≫= k) w = (Raise e, w').
Proof. intros Hm. by rewrite bind_run, Hm. Qed.

Lemma ret_run {A} (a : A) (w : world) : (mret a : M A) w = (Ok a, w).
Proof. reflexivity. Qed.

Lemma lift_run {A} (r : result A) (w : world) : lift r w = (r, w).
Proof. reflexivity. Qed.

Lemma world_eta (w : world) :
  {| queue := queue w; disk := disk w; remote := remote w; trace := trace w |} = w.
Proof. by destruct w. Qed.

End Running.

(** ** The queue builder *)

Section QueueBuilder.
Context `{Environment}.
Implicit Types (config : MigrationConfig) (post : InstagramArchivePost).
Implicit Types (w : world) (jobs : list BlueSkyMigrationJob).

(** The loop of [queue_post], when the collaborators answer. *)
Lemma queue_partitions_ok config post a n ts dt rest :
  p_creation_timestamp post = Some ts →
  fromtimestamp ts = Ok dt →
  ∀ index thread_start reply_to w,
  (∀ i, (i < length rest)%nat →
     ∃ txt built, post_text config (p_title post) (index + i) n = Ok txt ∧
                  build_rich_text txt = Ok built) →
  ∃ jobs w',
    queue_partitions config post a n index thread_start reply_to rest w = (Ok tt, w') ∧
    queue w' = queue w ++ jobs ∧
    disk w' = saved jobs (disk w) ∧
    remote w' = remote w ∧
    trace w' = trace w ∧
    embed <$> jobs = rest ∧
    ∀ i job, jobs !! i = Some job →
      job_index job = len (queue w) + Z.of_nat i ∧
      archive_index job = a ∧
      state job = READY ∧ cid job = None ∧ uri job = None ∧
      root_index job =
        match (index + i)%nat, index with
        | O, _ => None
        | S _, O => Some (len (queue w))
        | S _, S _ => thread_start
        end ∧
      parent_index job =
        match (index + i)%nat, i with
        | O, _ => None
        | S _, O => reply_to
        | S _, S i' => Some (len (queue w) + Z.of_nat i')
        end.
Proof.
  intros Hts Hdt. induction rest as [|partition rest IH];
    intros index thread_start reply_to w Htexts.
  - exists [], w. simpl. rewrite app_nil_r. repeat split; try done.
    all: by intros [|?] ? ?.
  - destruct (Htexts 0%nat) as (txt & built & Htxt & Hbuilt); [simpl; lia|].
    rewrite Nat.add_0_r in Htxt.
    simpl. rewrite bind_run, lift_run, Htxt. rewrite bind_run, lift_run, Hbuilt.
    rewrite bind_run. unfold get_queue at 1. rewrite Hts.
    rewrite bind_run, bind_run, lift_run, Hdt, ret_run.
    set (job := {| archive_index := a; text := txt |}).
    rewrite bind_run. unfold append, save. rewrite !bind_run. unfold get_queue, set_queue.
    simpl.
    set (w1 := {| queue := queue w ++ [job] |}).
    destruct (IH (S index) (if index is O then Some (len (queue w)) else thread_start)
                (Some (len (queue w))) w1)
      as (jobs & w' & Hrun & Hq & Hd & Hr & Ht & Hembed & Hjobs).
    { intros i Hi. replace (S index + i)%nat with (index + S i)%nat by lia.
      apply Htexts. simpl. lia. }
    exists (job :: jobs), w'. split; [done|].
    split; [by rewrite Hq; simpl; rewrite <- app_assoc|].
    split; [done|]. split; [done|]. split; [done|].
    split; [by rewrite fmap_cons, Hembed|].
    intros [|i] job' Hlook; simpl in Hlook.
    + injection Hlook as <-. simpl. rewrite Nat.add_0_r, Z.add_0_r.
      repeat split; try done; by destruct index.
    + destruct (Hjobs i job' Hlook) as (Hj & Ha & Hs & Hc & Hu & Hroot & Hparent).
      simpl in Hj, Hroot, Hparent. rewrite len_app_one in Hj, Hparent.
      rewrite Nat.add_succ_r. simpl.
      split; [lia|]. do 4 (split; [done|]). split.
      * rewrite Hroot. by destruct index.
      * rewrite Hparent. destruct i; [by rewrite Z.add_0_r|]. f_equal. lia.
Qed.

(** C3: when the media of a post partition into N >= 1 batches (and the
    date and text collaborators answer), [queue_post] appends N jobs, one
    per batch in batch order, with consecutive job indices starting at the
    length of the queue; the first job has no root and no parent, and every
    later job has the first job's index as root and the index of the job
    just before it as parent.  Hence root and parent are both null, or both
    set and strictly below the job's own index. *)
Theorem queue_post_thread_linkage config post a w batches ts dt :
  _partition_media config (p_media post) (media_strategy config) = Ok batches →
  batches ≠ [] →
  p_creation_timestamp post = Some ts →
  fromtimestamp ts = Ok dt →
  (∀ i, (i < length batches)%nat →
     ∃ txt built, post_text config (p_title post) i (length batches) = Ok txt ∧
                  build_rich_text txt = Ok built) →
  ∃ jobs w',
    queue_post config post a w = (Ok tt, w') ∧
    queue w' = queue w ++ jobs ∧
    embed <$> jobs = batches ∧
    (∀ i job, jobs !! i = Some job → job_index job = len (queue w) + Z.of_nat i) ∧
    (∀ first, jobs !! 0%nat = Some first →
       root_index first = None ∧ parent_index first = None) ∧
    (∀ i first previous job,
       jobs !! 0%nat = Some first → jobs !! i = Some previous → jobs !! S i = Some job →
       root_index job = Some (job_index first) ∧
       parent_index job = Some (job_index previous)) ∧
    (∀ job, job ∈ jobs →
       (root_index job = None ∧ parent_index job = None) ∨
       (∃ r p, root_index job = Some r ∧ parent_index job = Some p ∧
               r < job_index job ∧ p < job_index job)).
Proof.
  intros Hparts Hne Hts Hdt Htexts.
  destruct (queue_partitions_ok config post a (length batches) ts dt batches Hts Hdt
              0%nat None None w Htexts)
    as (jobs & w' & Hrun & Hq & _ & _ & _ & Hembed & Hjobs).
  exists jobs, w'. split.
  { unfold queue_post. rewrite bind_run, lift_run, Hparts.
    rewrite bool_decide_eq_true_2; [done|].
    unfold len. destruct batches; [done|simpl; lia]. }
  split; [done|]. split; [done|].
  split; [intros i job Hi; by destruct (Hjobs i job Hi)|].
  split.
  { intros first Hfirst.
    destruct (Hjobs _ _ Hfirst) as (_ & _ & _ & _ & _ & Hroot & Hparent). done. }
  split.
  { intros i first previous job Hfirst Hprev Hjob.
    destruct (Hjobs _ _ Hfirst) as (Hj0 & _).
    destruct (Hjobs _ _ Hprev) as (Hjp & _).
    destruct (Hjobs _ _ Hjob) as (_ & _ & _ & _ & _ & Hroot & Hparent).
    simpl in *. rewrite Hroot, Hparent, Hj0, Hjp. split; f_equal; lia. }
  intros job Hin. apply list_elem_of_lookup in Hin as [i Hi].
  destruct (Hjobs _ _ Hi) as (Hj & _ & _ & _ & _ & Hroot & Hparent).
  destruct i as [|i]; simpl in *; [by left|right].
  eexists _, _. split; [done|]. split; [done|]. lia.
Qed.

End QueueBuilder.

(** ** The posting engine *)

Section Posting.
Context `{Environment}.
Implicit Types (self : BlueSkyPostingEngine) (w : world).
Implicit Types (job : BlueSkyMigrationJob) (i : nat).

Lemma only_uploads_refl w : only_uploads w w.
Proof. repeat split. exists []. by rewrite app_nil_r. Qed.

Lemma only_uploads_trans w1 w2 w3 :
  only_uploads w1 w2 → only_uploads w2 w3 → only_uploads w1 w3.
Proof.
  intros (Hq1 & Hd1 & new1 & Ht1 & Hn1) (Hq2 & Hd2 & new2 & Ht2 & Hn2).
  split; [congruence|]. split; [congruence|].
  exists (new1 ++ new2). split; [by rewrite Ht2, Ht1, app_assoc|].
  by apply Forall_app.
Qed.

Lemma upload_frame self entry w r w' :
  upload self entry w = (r, w') → only_uploads w w'.
Proof.
  unfold upload. rewrite bind_run, lift_run.
  destruct (read_file _ _) as [data|e].
  - unfold call. destruct (upload_blob data (remote w)) as [r' c]. intros [= <- <-].
    repeat split. exists [UploadBlob data]. split; [done|]. by repeat constructor.
  - intros [= <- <-]. apply only_uploads_refl.
Qed.

Lemma map_each_upload_frame self {B} (wrap : Blob → B) entries w r w' :
  map_each entries (λ entry, blob ← upload self entry; mret (wrap blob)) w = (r, w') →
  only_uploads w w'.
Proof.
  revert w r w'. induction entries as [|entry entries IH]; intros w r w'; simpl.
  - intros [= <- <-]. apply only_uploads_refl.
  - rewrite !bind_run.
    destruct (upload self entry w) as [[blob|e] w1] eqn:Hup;
      apply upload_frame in Hup.
    + rewrite ret_run, bind_run.
      destruct (map_each entries _ w1) as [[blobs|e] w2] eqn:Hrest;
        apply IH in Hrest; intros [= <- <-]; by eapply only_uploads_trans.
    + by intros [= <- <-].
Qed.

Lemma upload_media_frame self job w r w' :
  upload_media self job w = (r, w') → only_uploads w w'.
Proof.
  unfold upload_media. destruct (embed job) as [|first rest].
  - intros [= <- <-]. apply only_uploads_refl.
  - destruct (is_mp4 first).
    + rewrite bind_run. destruct (upload self first w) as [[blob|e] w1] eqn:Hup;
        apply upload_frame in Hup; by intros [= <- <-].
    + rewrite bind_run.
      destruct (map_each _ _ w) as [[blobs|e] w1] eqn:Hup;
        apply map_each_upload_frame in Hup; by intros [= <- <-].
Qed.

Lemma strong_ref_at_frame index w r w' :
  strong_ref_at index w = (r, w') → w' = w.
Proof.
  unfold strong_ref_at. rewrite bind_run. unfold get_queue. rewrite bind_run, lift_run.
  destruct (py_index (queue w) index); [rewrite lift_run|]; by intros [= <- <-].
Qed.

Lemma reply_refs_frame job w r w' :
  reply_refs job w = (r, w') → w' = w.
Proof.
  unfold reply_refs. destruct (root_index job), (parent_index job);
    try by intros [= <- <-].
  rewrite bind_run. destruct (strong_ref_at _ w) as [[root_ref|e] w1] eqn:Hroot;
    apply strong_ref_at_frame in Hroot as ->; [|by intros [= <- <-]].
  rewrite bind_run. destruct (strong_ref_at _ w) as [[parent_ref|e] w1] eqn:Hparent;
    apply strong_ref_at_frame in Hparent as ->; by intros [= <- <-].
Qed.

Lemma job_at_run i w job : queue w !! i = Some job → job_at i w = (Ok job, w).
Proof. intros Hjob. unfold job_at. by rewrite Hjob. Qed.

(** A call on a job that is already processed, or any call of a
    simulated run, changes nothing. *)
Lemma post_to_bluesky_skip self i w job :
  queue w !! i = Some job →
  simulate self = true ∨ state job = PROCESSED →
  _post_to_bluesky self i w = (Ok tt, w).
Proof.
  intros Hjob Hskip. unfold _post_to_bluesky.
  rewrite (bind_ok _ _ _ _ _ (job_at_run _ _ _ Hjob)).
  destruct (simulate self); [done|]. destruct Hskip as [|Hproc]; [done|].
  by rewrite decide_True.
Qed.

(** Every outcome of a call that is not skipped: it raises and leaves the
    queue and the files alone, or it creates the post and marks the job. *)
Lemma post_to_bluesky_attempt self i w job r w' :
  queue w !! i = Some job →
  simulate self = false → state job ≠ PROCESSED →
  _post_to_bluesky self i w = (r, w') →
  ((∃ e, r = Raise e) ∧ queue w' = queue w ∧ disk w' = disk w) ∨
  (r = Ok tt ∧
   ∃ response,
     queue w' = <[i := mark_processed response job]> (queue w) ∧
     disk w' = <[job_index job := mark_processed response job]> (disk w)).
Proof.
  intros Hjob Hsim Hstate. unfold _post_to_bluesky.
  rewrite (bind_ok _ _ _ _ _ (job_at_run _ _ _ Hjob)), Hsim, decide_False by done.
  rewrite bind_run.
  destruct (upload_media self job w) as [[embeds|e] w1] eqn:Hup;
    apply upload_media_frame in Hup as (Hq1 & Hd1 & _);
    [|intros [= <- <-]; left; eauto].
  rewrite bind_run, lift_run.
  destruct (build_rich_text (text job)) as [built|e];
    [|intros [= <- <-]; left; eauto].
  rewrite bind_run.
  destruct (reply_refs job w1) as [[reply|e] w2] eqn:Hreply;
    apply reply_refs_frame in Hreply as ->;
    [|intros [= <- <-]; left; eauto].
  rewrite bind_run. unfold call at 1.
  destruct (create_record _ (remote w1)) as [[response|e] c];
    [|intros [= <- <-]; left; eauto].
  rewrite bind_run. unfold get_queue at 1. rewrite bind_run. unfold set_queue, save. simpl.
  intros [= <- <-]. right. split; [done|]. exists response. simpl. by rewrite Hq1, Hd1.
Qed.

Lemma upload_is_not_create (new : list event) :
  Forall (λ e, is_upload e = true) new → Forall (λ e, is_create e = false) new.
Proof. intros Hall. eapply Forall_impl; [done|]. by intros []. Qed.

Lemma login_outcome self w :
  ∃ res w1,
    login self w = (res, w1) ∧
    queue w1 = queue w ∧ disk w1 = disk w ∧
    trace w1 = trace w ++ login_events self.
Proof.
  unfold login, login_events. destruct (simulate self).
  - exists (Ok tt), w. by rewrite app_nil_r.
  - unfold call. destruct (client_login _ _ (remote w)) as [res c]. by eexists _, _.
Qed.

Lemma for_each_skip (body : nat → M unit) (l : list nat) w :
  (∀ i, i ∈ l → body i w = (Ok tt, w)) → for_each l body w = (Ok tt, w).
Proof.
  induction l as [|i l IH]; intros Hskip; simpl; [done|].
  rewrite bind_run, Hskip by (by left). apply IH. intros j Hj. apply Hskip. by right.
Qed.

Lemma post_next_skip self i w job :
  queue w !! i = Some job → state job = PROCESSED →
  post_next self i w = (Ok tt, w).
Proof.
  intros Hjob Hstate. unfold post_next.
  rewrite (bind_ok _ _ _ _ _ (job_at_run _ _ _ Hjob)). by rewrite decide_True.
Qed.

(** The reply reference of a job whose root or parent has no identifier
    cannot be built, when [create_strong_ref] rejects a missing identifier. *)
Lemma reply_refs_orphan job w r p root_job parent_job :
  (∀ c u, c = None ∨ u = None → ∃ e, create_strong_ref c u = Raise e) →
  root_index job = Some r → parent_index job = Some p →
  py_index (queue w) r = Ok root_job →
  py_index (queue w) p = Ok parent_job →
  cid root_job = None ∨ uri root_job = None ∨
    cid parent_job = None ∨ uri parent_job = None →
  ∃ e, reply_refs job w = (Raise e, w).
Proof.
  intros Hstrict Hr Hp Hroot Hparent Hmissing.
  unfold reply_refs. rewrite Hr, Hp.
  assert (Href : ∀ index found,
             py_index (queue w) index = Ok found →
             strong_ref_at index w = (create_strong_ref (cid found) (uri found), w)).
  { intros index found Hfound. unfold strong_ref_at.
    rewrite bind_run. unfold get_queue. by rewrite bind_run, lift_run, Hfound, lift_run. }
  rewrite bind_run, (Href _ _ Hroot).
  destruct (create_strong_ref (cid root_job) (uri root_job)) as [root_ref|e] eqn:Hcr;
    [|by eexists].
  rewrite bind_run, (Href _ _ Hparent).
  destruct (create_strong_ref (cid parent_job) (uri parent_job)) as [parent_ref|e] eqn:Hcp;
    [|by eexists].
  destruct Hmissing as [Hm|[Hm|[Hm|Hm]]].
  - destruct (Hstrict (cid root_job) (uri root_job)) as [e He]; [by left|congruence].
  - destruct (Hstrict (cid root_job) (uri root_job)) as [e He]; [by right|congruence].
  - destruct (Hstrict (cid parent_job) (uri parent_job)) as [e He]; [by left|congruence].
  - destruct (Hstrict (cid parent_job) (uri parent_job)) as [e He]; [by right|congruence].
Qed.

(** C5: in a run that is not simulated, take a job with a root and a parent
    index whose root or parent job, looked up in the queue, lacks its [cid]
    or [uri].  Given that atproto's [create_strong_ref] rejects a missing
    identifier, the call of [_post_to_bluesky] makes no create-post call
    and changes neither the queue nor the files; and unless the job is
    already processed (then the call is the skip), it raises. *)
Theorem orphaned_reply_not_posted self i w job r p root_job parent_job :
  (∀ c u, c = None ∨ u = None → ∃ e, create_strong_ref c u = Raise e) →
  simulate self = false →
  queue w !! i = Some job →
  root_index job = Some r → parent_index job = Some p →
  py_index (queue w) r = Ok root_job →
  py_index (queue w) p = Ok parent_job →
  cid root_job = None ∨ uri root_job = None ∨
    cid parent_job = None ∨ uri parent_job = None →
  ∃ res w',
    _post_to_bluesky self i w = (res, w') ∧
    queue w' = queue w ∧ disk w' = disk w ∧
    (∃ new, trace w' = trace w ++ new ∧ Forall (λ e, is_create e = false) new) ∧
    (state job ≠ PROCESSED → ∃ e, res = Raise e).
Proof.
  intros Hstrict Hsim Hjob Hr Hp Hroot Hparent Hmissing.
  destruct (decide (state job = PROCESSED)) as [Hproc|Hproc].
  { exists (Ok tt), w. rewrite (post_to_bluesky_skip self i w job) by auto.
    repeat split; try done. exists []. by rewrite app_nil_r. }
  unfold _post_to_bluesky.
  rewrite (bind_ok _ _ _ _ _ (job_at_run _ _ _ Hjob)), Hsim, decide_False by done.
  rewrite bind_run.
  destruct (upload_media self job w) as [[embeds|e] w1] eqn:Hup;
    apply upload_media_frame in Hup as (Hq1 & Hd1 & new & Ht1 & Hnew);
    apply upload_is_not_create in Hnew;
    [|exists (Raise e), w1; repeat split; eauto].
  rewrite bind_run, lift_run.
  destruct (build_rich_text (text job)) as [built|e];
    [|exists (Raise e), w1; repeat split; eauto].
  rewrite bind_run.
  destruct (reply_refs_orphan job w1 r p root_job parent_job) as [e ->];
    try done; try by rewrite Hq1.
  exists (Raise e), w1. repeat split; eauto.
Qed.

(** C1: if a full run of [post] (no index) ends with every job of the
    queue in state PROCESSED, a second run over that queue makes no upload
    and no create-post call: its only effect is the login of a run that is
    not simulated, the queue and the files stay as they are, and each job is
    skipped, as is any call of [_post_to_bluesky] on a processed job. *)
Theorem post_twice_no_remote_call self w0 res1 w1 :
  post self None w0 = (res1, w1) →
  Forall (λ job, state job = PROCESSED) (queue w1) →
  ∃ res2 w2,
    post self None w1 = (res2, w2) ∧
    queue w2 = queue w1 ∧ disk w2 = disk w1 ∧
    trace w2 = trace w1 ++ login_events self ∧
    Forall (λ e, is_post_call e = false) (login_events self) ∧
    (∀ i w job, queue w !! i = Some job → state job = PROCESSED →
       _post_to_bluesky self i w = (Ok tt, w)).
Proof.
  intros _ Hall.
  destruct (login_outcome self w1) as (res & w2 & Hlogin & Hq & Hd & Ht).
  assert (Hcalls : Forall (λ e, is_post_call e = false) (login_events self)).
  { unfold login_events. destruct (simulate self); by repeat constructor. }
  assert (Hskip : ∀ i w job, queue w !! i = Some job → state job = PROCESSED →
            _post_to_bluesky self i w = (Ok tt, w)).
  { intros i w job Hjob Hstate. apply (post_to_bluesky_skip self i w job); auto. }
  unfold post. rewrite bind_run, Hlogin.
  destruct res as [[]|e]; [|by exists (Raise e), w2].
  exists (Ok tt), w2. split; [|done].
  rewrite bind_run. unfold get_queue. apply for_each_skip.
  intros i Hi. apply elem_of_seq in Hi as [_ Hi]. simpl in Hi.
  destruct (lookup_lt_is_Some_2 (queue w2) i Hi) as [job Hjob].
  apply (post_next_skip self i w2 job Hjob).
  rewrite Forall_forall in Hall. apply Hall. rewrite <- Hq.
  by eapply list_elem_of_lookup_2.
Qed.

(** One iteration of the single-index loop, at the job of position [a]. *)
Lemma post_only_outcome self v a w job res w1 :
  queue w !! a = Some job →
  post_only self v a w = (res, w1) →
  length (queue w1) = length (queue w) ∧
  (∀ j, j ≠ a → queue w1 !! j = queue w !! j) ∧
  (archive_index job ≠ v ∨ state job = PROCESSED ∨ simulate self = true →
     res = Ok tt ∧ w1 = w) ∧
  (res = Ok tt → simulate self = false → archive_index job = v →
     ∃ job', queue w1 !! a = Some job' ∧ state job' = PROCESSED).
Proof.
  intros Hjob. unfold post_only.
  rewrite (bind_ok _ _ _ _ _ (job_at_run _ _ _ Hjob)).
  destruct (archive_index job =? v) eqn:Hv.
  - apply Z.eqb_eq in Hv.
    destruct (decide (simulate self = true ∨ state job = PROCESSED)) as [Hskip|Hgo].
    + rewrite (post_to_bluesky_skip self a w job Hjob Hskip). intros [= <- <-].
      split; [done|]. split; [done|]. split; [done|].
      intros _ Hsim _. exists job. split; [done|]. destruct Hskip; congruence.
    + assert (simulate self = false) as Hsim by (destruct (simulate self); tauto).
      assert (state job ≠ PROCESSED) as Hstate by tauto.
      intros Hrun.
      destruct (post_to_bluesky_attempt self a w job res w1 Hjob Hsim Hstate Hrun)
        as [((e & ->) & Hq & Hd)|(-> & response & Hq & Hd)].
      * rewrite Hq. split; [done|]. split; [done|]. split; [|done].
        intros [?|[?|?]]; congruence.
      * rewrite Hq, length_insert. split; [done|].
        split; [intros j Hj; by rewrite list_lookup_insert_ne|].
        split; [intros [?|[?|?]]; congruence|].
        intros _ _ _. exists (mark_processed response job).
        split; [|done]. apply list_lookup_insert_eq. by eapply lookup_lt_Some.
  - apply Z.eqb_neq in Hv. intros [= <- <-].
    split; [done|]. split; [done|]. split; [done|]. congruence.
Qed.

Lemma post_only_loop self v k :
  ∀ a w res w',
  (a + k)%nat = length (queue w) →
  for_each (seq a k) (post_only self v) w = (res, w') →
  length (queue w') = length (queue w) ∧
  (∀ i job, queue w !! i = Some job →
     (i < a)%nat ∨ archive_index job ≠ v ∨ state job = PROCESSED ∨ simulate self = true →
     queue w' !! i = Some job) ∧
  (res = Ok tt → simulate self = false →
   ∀ i job, (a ≤ i)%nat → queue w !! i = Some job → archive_index job = v →
     ∃ job', queue w' !! i = Some job' ∧ state job' = PROCESSED).
Proof.
  induction k as [|k IH]; intros a w res w' Hlen; simpl.
  - intros [= <- <-]. split; [done|]. split; [done|].
    intros _ _ i job Hi Hjob. apply lookup_lt_Some in Hjob. lia.
  - destruct (lookup_lt_is_Some_2 (queue w) a) as [job Hjob]; [lia|].
    rewrite bind_run.
    destruct (post_only self v a w) as [[[]|e] w1] eqn:Hstep;
      destruct (post_only_outcome self v a w job _ w1 Hjob Hstep)
        as (Hlen1 & Hother & Hskip & Hdone).
    + intros Hrest.
      destruct (IH (S a) w1 res w') as (Hlen' & Hkeep & Hposted); [lia|done|].
      split; [congruence|]. split.
      * intros i job0 Hjob0 Hcond. apply Hkeep.
        -- destruct (decide (i = a)) as [->|Hne]; [|by rewrite Hother].
           assert (job0 = job) as -> by congruence.
           destruct Hcond as [?|Hcond]; [lia|]. by destruct (Hskip Hcond) as (_ & ->).
        -- destruct (decide (i = a)) as [->|Hne]; [|destruct Hcond as [?|?]; [left; lia|by right]].
           left. lia.
      * intros Hres Hsim i job0 Hi Hjob0 Hv.
        destruct (decide (i = a)) as [->|Hne].
        -- assert (job0 = job) as -> by congruence.
           destruct (Hdone eq_refl Hsim Hv) as (job1 & Hjob1 & Hstate1).
           exists job1. split; [|done]. apply Hkeep; [done|left; lia].
        -- apply (Hposted Hres Hsim i job0); [lia| |done]. by rewrite Hother.
    + intros [= <- <-]. split; [done|]. split; [|done].
      intros i job0 Hjob0 Hcond.
      destruct (decide (i = a)) as [->|Hne]; [|by rewrite Hother].
      assert (job0 = job) as -> by congruence.
      destruct (decide (archive_index job ≠ v ∨ state job = PROCESSED ∨ simulate self = true))
        as [Hc|Hc]; [by destruct (Hskip Hc)|].
      destruct Hcond as [?|?]; [|tauto].
      (* a job before position [a] is not at position [a] *) lia.
Qed.

Lemma post_only_skip self v i w job :
  queue w !! i = Some job →
  (archive_index job = v → state job = PROCESSED) →
  post_only self v i w = (Ok tt, w).
Proof.
  intros Hjob Hproc. unfold post_only.
  rewrite (bind_ok _ _ _ _ _ (job_at_run _ _ _ Hjob)).
  destruct (archive_index job =? v) eqn:Hv; [|done].
  apply Z.eqb_eq in Hv. apply (post_to_bluesky_skip self i w job); auto.
Qed.

(** No call of [_post_to_bluesky] waits: it records uploads and at most
    one create-post call. *)
Lemma post_to_bluesky_quiet self i w r w' :
  _post_to_bluesky self i w = (r, w') →
  ∃ new, trace w' = trace w ++ new ∧ Forall (λ e, is_sleep e = false) new.
Proof.
  assert (Hnone : ∃ new, trace w = trace w ++ new ∧ Forall (λ e, is_sleep e = false) new).
  { exists []. by rewrite app_nil_r. }
  unfold _post_to_bluesky. rewrite bind_run. unfold job_at at 1.
  destruct (queue w !! i) as [job|]; [|by intros [= _ <-]].
  destruct (simulate self); [by intros [= _ <-]|].
  destruct (decide (state job = PROCESSED)); [by intros [= _ <-]|].
  rewrite bind_run.
  destruct (upload_media self job w) as [[embeds|e] w1] eqn:Hup;
    apply upload_media_frame in Hup as (_ & _ & new1 & Ht1 & Hnew1).
  2: { intros [= _ <-]. exists new1. split; [done|].
       eapply Forall_impl; [done|]. by intros []. }
  assert (Huploads : ∃ new, trace w1 = trace w ++ new ∧
                            Forall (λ e, is_sleep e = false) new).
  { exists new1. split; [done|]. eapply Forall_impl; [done|]. by intros []. }
  rewrite bind_run, lift_run.
  destruct (build_rich_text (text job)) as [built|e]; [|by intros [= _ <-]].
  rewrite bind_run.
  destruct (reply_refs job w1) as [[reply|e] w2] eqn:Hreply;
    apply reply_refs_frame in Hreply as ->; [|by intros [= _ <-]].
  rewrite bind_run. unfold call at 1.
  match goal with
  | |- context [create_record ?record (remote w1)] =>
      assert (Hcreated : ∃ new, trace w1 ++ [CreatePost record] = trace w ++ new ∧
                                Forall (λ e, is_sleep e = false) new)
  end.
  { destruct Huploads as (new & -> & Hnew). eexists. rewrite <- app_assoc.
    split; [done|]. apply Forall_app. split; [done|]. by constructor. }
  destruct (create_record _ (remote w1)) as [[response|e] c].
  - rewrite bind_run. unfold get_queue at 1. rewrite bind_run. unfold set_queue, save.
    by intros [= _ <-].
  - by intros [= _ <-].
Qed.

Lemma for_each_quiet {A} (body : A → M unit) (l : list A) :
  (∀ x w r w', body x w = (r, w') →
     ∃ new, trace w' = trace w ++ new ∧ Forall (λ e, is_sleep e = false) new) →
  ∀ w r w', for_each l body w = (r, w') →
    ∃ new, trace w' = trace w ++ new ∧ Forall (λ e, is_sleep e = false) new.
Proof.
  intros Hbody. induction l as [|x l IH]; intros w r w'; simpl.
  - intros [= _ <-]. exists []. by rewrite app_nil_r.
  - rewrite bind_run. destruct (body x w) as [[[]|e] w1] eqn:Hx;
      destruct (Hbody _ _ _ _ Hx) as (new1 & Ht1 & Hnew1); [|by intros [= _ <-]; exists new1].
    intros Hrest. destruct (IH _ _ _ Hrest) as (new & Ht & Hnew).
    exists (new1 ++ new). rewrite Ht, Ht1, <- app_assoc. split; [done|].
    apply Forall_app. by split.
Qed.

(** [_post_to_bluesky] never changes the archive index of a job. *)
Lemma post_to_bluesky_archive_indices self i w r w' :
  _post_to_bluesky self i w = (r, w') →
  archive_index <$> queue w' = archive_index <$> queue w.
Proof.
  destruct (queue w !! i) as [job|] eqn:Hjob.
  - destruct (decide (simulate self = true ∨ state job = PROCESSED)) as [Hskip|Hgo].
    + rewrite (post_to_bluesky_skip self i w job Hjob Hskip). by intros [= _ <-].
    + assert (simulate self = false) as Hsim by (destruct (simulate self); tauto).
      assert (state job ≠ PROCESSED) as Hstate by tauto. intros Hrun.
      destruct (post_to_bluesky_attempt self i w job r w' Hjob Hsim Hstate Hrun)
        as [(_ & -> & _)|(_ & response & -> & _)]; [done|].
      rewrite list_fmap_insert. apply list_insert_id.
      by rewrite list_lookup_fmap, Hjob.
  - unfold _post_to_bluesky, job_at. rewrite bind_run, Hjob. by intros [= _ <-].
Qed.

(** The single-index loop is the sequence of the calls of
    [_post_to_bluesky] at the positions of the matching jobs. *)
Lemma post_only_as_calls self v q0 k :
  ∀ a w,
  (a + k)%nat = length q0 →
  archive_index <$> queue w = archive_index <$> q0 →
  for_each (seq a k) (post_only self v) w
  = for_each (List.filter (has_index v q0) (seq a k)) (_post_to_bluesky self) w.
Proof.
  induction k as [|k IH]; intros a w Hlen Hidx; [done|].
  cbn [seq List.filter for_each].
  assert (length (queue w) = length q0) as Hsame.
  { apply (f_equal length) in Hidx. by rewrite !length_fmap in Hidx. }
  destruct (lookup_lt_is_Some_2 (queue w) a) as [job Hjob]; [lia|].
  destruct (lookup_lt_is_Some_2 q0 a) as [job0 Hjob0]; [lia|].
  assert (archive_index job = archive_index job0) as Harch.
  { apply (f_equal (λ l, l !! a)) in Hidx.
    rewrite !list_lookup_fmap, Hjob, Hjob0 in Hidx. by injection Hidx. }
  assert (post_only self v a w
          = if has_index v q0 a then _post_to_bluesky self a w else (Ok tt, w)) as Hstep.
  { unfold post_only, has_index.
    rewrite (bind_ok _ _ _ _ _ (job_at_run _ _ _ Hjob)), Hjob0, Harch.
    by destruct (archive_index job0 =? v). }
  rewrite bind_run, Hstep.
  destruct (has_index v q0 a).
  - cbn [for_each]. rewrite bind_run.
    destruct (_post_to_bluesky self a w) as [[[]|e] w1] eqn:Hrun; [|done].
    apply IH; [lia|]. by rewrite (post_to_bluesky_archive_indices self a w _ w1 Hrun).
  - apply IH; [lia|done].
Qed.

(** C6, as amended: [post(index=value)] is the login followed by the
    calls of [_post_to_bluesky], in queue order, for the jobs whose
    [archive_index] equals the value and for no other job, with no state
    filter of its own and no rate-limit wait: whatever its outcome, no
    [time.sleep] is among its effects.  The routine itself still skips a
    job that is already PROCESSED (and every job of a simulated run).  So
    a run that returns has brought each job of that archive index, READY
    or FAILED alike, to PROCESSED, and the jobs that were PROCESSED before
    are as they were: when all of them were, the only effect of the run is
    the login. *)
Theorem post_index_skips_processed self v w res w' :
  post self (Some v) w = (res, w') →
  (login self;; for_each (positions_of v (queue w)) (_post_to_bluesky self)) w
  = (res, w') ∧
  (∃ new, trace w' = trace w ++ new ∧ Forall (λ e, is_sleep e = false) new) ∧
  length (queue w') = length (queue w) ∧
  (∀ i job, queue w !! i = Some job →
     archive_index job ≠ v ∨ state job = PROCESSED ∨ simulate self = true →
     queue w' !! i = Some job) ∧
  (res = Ok tt → simulate self = false →
   ∀ i job, queue w !! i = Some job → archive_index job = v →
     ∃ job', queue w' !! i = Some job' ∧ state job' = PROCESSED) ∧
  ((∀ job, job ∈ queue w → archive_index job = v → state job = PROCESSED) →
     queue w' = queue w ∧ disk w' = disk w ∧
     trace w' = trace w ++ login_events self).
Proof.
  unfold post. rewrite !bind_run.
  destruct (login_outcome self w) as (res0 & w0 & -> & Hq & Hd & Ht).
  assert (Hlogin : Forall (λ e, is_sleep e = false) (login_events self)).
  { unfold login_events. destruct (simulate self); by repeat constructor. }
  destruct res0 as [[]|e].
  - rewrite bind_run. unfold get_queue. intros Hloop.
    assert (Hcalls : for_each (positions_of v (queue w)) (_post_to_bluesky self) w0
                     = (res, w')).
    { unfold positions_of. rewrite <- Hloop, Hq.
      symmetry. apply post_only_as_calls; [done|by rewrite Hq]. }
    split; [done|]. split.
    { destruct (for_each_quiet (_post_to_bluesky self) _
                  (post_to_bluesky_quiet self) _ _ _ Hcalls) as (new & Hnew & Hquiet).
      exists (login_events self ++ new). rewrite Hnew, Ht, <- app_assoc.
      split; [done|]. apply Forall_app. by split. }
    destruct (post_only_loop self v (length (queue w0)) 0 w0 res w' eq_refl Hloop)
      as (Hlen & Hkeep & Hposted).
    rewrite Hq in Hlen, Hkeep, Hposted.
    split; [done|]. split; [intros i job Hjob Hcond; apply Hkeep; auto|].
    split; [intros Hres Hsim i job Hjob Hv; apply (Hposted Hres Hsim i job); [lia|done..]|].
    intros Hall.
    rewrite for_each_skip in Hloop.
    { injection Hloop as <- <-. by rewrite Hq, Hd, Ht. }
    intros i Hi. apply elem_of_seq in Hi as [_ Hi]. simpl in Hi.
    destruct (lookup_lt_is_Some_2 (queue w0) i Hi) as [job Hjob].
    apply (post_only_skip self v i w0 job Hjob).
    apply Hall. rewrite <- Hq. by eapply list_elem_of_lookup_2.
  - intros [= <- <-]. split; [done|]. split; [by exists (login_events self)|].
    rewrite Hq. split; [done|]. split; [done|]. split; [done|].
    by rewrite Hd, Ht.
Qed.

(** Every outcome of the loop of [rollback] from position [a] on: it
    stops at the end of the queue or at the first delete that raises. *)
Lemma rollback_loop self k :
  ∀ a w res w',
  (a + k)%nat = length (queue w) →
  for_each (seq a k) (rollback_job self) w = (res, w') →
  ∃ stop,
    (a ≤ stop ≤ a + k)%nat ∧
    queue w' = take a (queue w)
               ++ (rolled_back <$> take (stop - a) (drop a (queue w)))
               ++ drop stop (queue w) ∧
    disk w' = saved (mark_ready <$> List.filter needs_rollback
                                      (take (stop - a) (drop a (queue w)))) (disk w) ∧
    ((res = Ok tt ∧ stop = (a + k)%nat ∧
      trace w' = trace w ++ delete_calls (take (stop - a) (drop a (queue w)))) ∨
     (∃ e job c c',
        res = Raise e ∧ queue w !! stop = Some job ∧ state job ≠ READY ∧
        delete_post (uri job) c = (Raise e, c') ∧
        trace w' = trace w ++ delete_calls (take (stop - a) (drop a (queue w)))
                   ++ [DeletePost (uri job)])).
Proof.
  induction k as [|k IH]; intros a w res w' Hlen; simpl.
  - intros [= <- <-]. exists a. split; [lia|]. rewrite Nat.sub_diag. simpl.
    split; [by rewrite take_drop|]. split; [done|]. left.
    split; [done|]. split; [lia|]. by rewrite app_nil_r.
  - destruct (lookup_lt_is_Some_2 (queue w) a) as [job Hjob]; [lia|].
    rewrite bind_run. unfold rollback_job at 1.
    rewrite (bind_ok _ _ _ _ _ (job_at_run _ _ _ Hjob)).
    destruct (decide (state job = READY)) as [Hready|Hready].
    + rewrite ret_run. intros Hrest.
      destruct (IH (S a) w res w') as (stop & Hstop & Hq & Hd & Hcase); [lia|done|].
      exists stop. split; [lia|].
      assert (take (stop - a) (drop a (queue w))
              = job :: take (stop - S a) (drop (S a) (queue w))) as ->.
      { rewrite (drop_S _ _ _ Hjob). by replace (stop - a)%nat with (S (stop - S a)) by lia. }
      unfold delete_calls in *. rewrite fmap_cons. cbn [List.filter].
      assert (needs_rollback job = false) as ->
        by (unfold needs_rollback; rewrite bool_decide_eq_false_2; tauto).
      assert (rolled_back job = job) as ->
        by (unfold rolled_back; by rewrite decide_True).
      split; [by rewrite Hq, (take_S_r _ _ _ Hjob), <- app_assoc|].
      split; [done|].
      destruct Hcase as [(-> & -> & Ht)|(e & job' & c & c' & -> & Hj' & Hs' & Hdel & Ht)].
      * left. split; [done|]. split; [lia|done].
      * right. by exists e, job', c, c'.
    + rewrite decide_True by (destruct (state job); tauto).
      rewrite bind_run. unfold call at 1.
      destruct (delete_post (uri job) (remote w)) as [[[]|e] c] eqn:Hdelete.
      * rewrite bind_run. unfold get_queue at 1. rewrite bind_run.
        unfold set_queue at 1, save at 1. cbn [queue disk remote trace fst snd].
        match goal with
        | |- context [for_each _ _ ?w0] => set (w1 := w0)
        end.
        intros Hrest.
        destruct (IH (S a) w1 res w') as (stop & Hstop & Hq & Hd & Hcase);
          [simpl; rewrite length_insert; lia|done|].
        simpl in Hq, Hd, Hcase.
        rewrite drop_insert_lt in Hq, Hd, Hcase by lia.
        rewrite ?(drop_insert_lt _ stop a) in Hq by lia.
        exists stop. split; [lia|].
        assert (take (stop - a) (drop a (queue w))
                = job :: take (stop - S a) (drop (S a) (queue w))) as ->.
        { rewrite (drop_S _ _ _ Hjob).
          by replace (stop - a)%nat with (S (stop - S a)) by lia. }
        unfold delete_calls in *. rewrite fmap_cons. cbn [List.filter].
        assert (needs_rollback job = true) as ->
          by (unfold needs_rollback; by rewrite bool_decide_eq_true_2).
        assert (rolled_back job = mark_ready job) as ->
          by (unfold rolled_back; by rewrite decide_False).
        split.
        { rewrite Hq, (take_S_r _ _ (mark_ready job)).
          - rewrite take_insert_ge by lia. by rewrite <- app_assoc.
          - apply list_lookup_insert_eq. lia. }
        split; [done|].
        destruct Hcase as [(-> & -> & Ht)|(e & job' & c' & c'' & -> & Hj' & Hs' & Hdel & Ht)].
        -- left. split; [done|]. split; [lia|].
           by rewrite Ht, fmap_cons, <- app_assoc.
        -- right. exists e, job', c', c''. split; [done|].
           split; [by rewrite list_lookup_insert_ne in Hj' by lia|].
           split; [done|]. split; [done|].
           by rewrite Ht, fmap_cons, <- !app_assoc.
      * intros [= <- <-]. exists a. split; [lia|]. rewrite Nat.sub_diag. simpl.
        split; [by rewrite take_drop|]. split; [done|]. right.
        exists e, job, (remote w), c. by unfold delete_calls.
Qed.


End Posting.

(** ** The archive normalizer *)

Section Normalizer.
Context `{Environment}.
Implicit Types (config : MigrationConfig) (post : InstagramArchivePost) (w : world).

Lemma emit_run (e : event) w :
  emit e w = (Ok tt, {| queue := queue w; disk := disk w; remote := remote w;
                        trace := trace w ++ [e] |}).
Proof. reflexivity. Qed.

(** A post with no timestamp of its own and none on its first media is
    reported, and then stops the normalization with an exception. *)
Lemma normalize_post_undated index post w :
  rectify_timestamp post = None →
  ∃ e w',
    normalize_post index post w = (Raise e, w') ∧
    queue w' = queue w ∧ disk w' = disk w ∧
    trace w' = trace w ++ [Warning (NoDateFound index)].
Proof.
  intros Hts. unfold normalize_post. rewrite Hts.
  rewrite bind_run, emit_run, bind_run, lift_run.
  destruct (_figure_out_post_title post) as [title|e]; [|by eexists _, _].
  rewrite bind_run. by eexists _, _.
Qed.

Lemma normalize_post_frame index post w r w' :
  normalize_post index post w = (r, w') →
  queue w' = queue w ∧ disk w' = disk w.
Proof.
  unfold normalize_post. rewrite bind_run.
  destruct (rectify_timestamp post) as [t|].
  - rewrite ret_run, bind_run, lift_run.
    destruct (_figure_out_post_title post); [|by intros [= <- <-]].
    rewrite bind_run, lift_run. destruct (fromtimestamp t); by intros [= <- <-].
  - rewrite emit_run, bind_run, lift_run.
    destruct (_figure_out_post_title post); [|by intros [= <- <-]].
    rewrite bind_run. by intros [= <- <-].
Qed.

Lemma normalize_loop_frame posts :
  ∀ index w r w',
  normalize_loop index posts w = (r, w') →
  queue w' = queue w ∧ disk w' = disk w ∧
  ∀ posts', r = Ok posts' → length posts' = length posts.
Proof.
  induction posts as [|post posts IH]; intros index w r w'; simpl.
  - intros [= <- <-]. repeat split. by intros ? [= <-].
  - rewrite bind_run. destruct (normalize_post index post w) as [[post'|e] w1] eqn:Hpost;
      apply normalize_post_frame in Hpost as [Hq1 Hd1]; [|by intros [= <- <-]].
    rewrite bind_run.
    destruct (normalize_loop (S index) posts w1) as [[rest'|e] w2] eqn:Hrest;
      apply IH in Hrest as (Hq2 & Hd2 & Hlen); intros [= <- <-].
    + split; [congruence|]. split; [congruence|].
      intros ? [= <-]. simpl. by rewrite (Hlen rest').
    + split; [congruence|]. split; [congruence|]. done.
Qed.

(** An archive that holds such a post never gets past the first loop. *)
Lemma normalize_loop_undated posts :
  ∀ index w,
  (∃ post, post ∈ posts ∧ rectify_timestamp post = None) →
  ∃ e w', normalize_loop index posts w = (Raise e, w') ∧
          queue w' = queue w ∧ disk w' = disk w.
Proof.
  induction posts as [|post posts IH]; intros index w (undated & Hin & Hts).
  - by inv Hin.
  - simpl. rewrite bind_run.
    destruct (normalize_post index post w) as [[post'|e] w1] eqn:Hpost.
    + pose proof (normalize_post_frame _ _ _ _ _ Hpost) as [Hq1 Hd1].
      inv Hin.
      * destruct (normalize_post_undated index post w Hts) as (e & w' & Hraise & _).
        congruence.
      * destruct (IH (S index) w1) as (e & w' & Hrest & Hq & Hd); [by eauto|].
        rewrite bind_run, Hrest. exists e, w'. split; [done|]. split; congruence.
    + apply normalize_post_frame in Hpost as [Hq1 Hd1]. by exists e, w1.
Qed.

Lemma extract_with_undated_post_raises config insta_posts w :
  (∃ post, post ∈ insta_posts ∧ rectify_timestamp post = None) →
  ∃ e w', extract_posts_to_queue config insta_posts w = (Raise e, w') ∧
          queue w' = queue w ∧ disk w' = disk w.
Proof.
  intros Hundated. unfold extract_posts_to_queue. rewrite bind_run.
  destruct (normalize_loop_undated insta_posts 0 w Hundated) as (e & w' & -> & Hq & Hd).
  by exists e, w'.
Qed.

(** Comparing the integer timestamp of a post with a configured date
    raises: the second loop stops at its first post. *)
Lemma queue_loop_window config index post rest w :
  is_Some (min_date config) ∨ is_Some (max_date config) →
  queue_loop config index (post :: rest) w = (Raise TypeError, w).
Proof.
  intros Hwindow. simpl. rewrite bind_run.
  destruct (min_date config) as [d|].
  - rewrite lift_run. by destruct (p_creation_timestamp post).
  - rewrite ret_run, bind_run. destruct Hwindow as [[? [=]]|[d ->]].
    rewrite lift_run. by destruct (p_creation_timestamp post).
Qed.

(** With a date window configured, no archive with a post in it gets
    anything queued. *)
Lemma extract_with_window_raises config insta_posts w :
  is_Some (min_date config) ∨ is_Some (max_date config) →
  insta_posts ≠ [] →
  ∃ e w', extract_posts_to_queue config insta_posts w = (Raise e, w') ∧
          queue w' = queue w ∧ disk w' = disk w.
Proof.
  intros Hwindow Hne. unfold extract_posts_to_queue. rewrite bind_run.
  destruct (normalize_loop 0 insta_posts w) as [[posts|e] w1] eqn:Hnorm;
    apply normalize_loop_frame in Hnorm as (Hq & Hd & Hlen); [|by eexists _, _].
  specialize (Hlen posts eq_refl).
  rewrite bind_run, lift_run. unfold sort_posts.
  destruct (_ || _); [|by eexists _, _].
  destruct (sorted_by timestamp_key posts) as [|post rest] eqn:Hsorted.
  - pose proof (sorted_by_perm timestamp_key posts) as Hperm.
    rewrite Hsorted in Hperm. apply Permutation_nil in Hperm. subst posts.
    by destruct insta_posts.
  - rewrite queue_loop_window by done. by eexists _, _.
Qed.

End Normalizer.

(** ** The properties on concrete runs *)

Example partition_five_images :
  _partition_media default_config
    (sample_media <$> ["a.jpg"; "b.jpg"; "c.jpg"; "d.jpg"; "e.jpg"]) (Some ORDERED)
  = Ok [sample_media <$> ["a.jpg"; "b.jpg"; "c.jpg"; "d.jpg"]; [sample_media "e.jpg"]].
Proof. reflexivity. Qed.

Example partition_videolast :
  _partition_media (with_max_videos 1 default_config)
    (sample_media <$> ["v.mp4"; "a.jpg"; "w.mp4"; "b.jpg"]) (Some VIDEOLAST)
  = Ok [sample_media <$> ["a.jpg"; "b.jpg"]; [sample_media "v.mp4"]; [sample_media "w.mp4"]].
Proof. reflexivity. Qed.

Example partition_limit_boundary :
  _partition_media default_config
    (sample_media <$> ["a.jpg"; "b.jpg"; "c.jpg"; "d.jpg"]) (Some ORDERED)
  = Ok [sample_media <$> ["a.jpg"; "b.jpg"; "c.jpg"; "d.jpg"]].
Proof. reflexivity. Qed.

Example truncation_to_limit :
  slen (String.concat "" (replicate 310 "x")) = 310 ∧
  rbind (post_text default_config (Some (String.concat "" (replicate 310 "x"))) 0 1)
    (λ t, Ok (slen t, endswith t "..."))
  = Ok (300, true).
Proof. split; vm_compute; reflexivity. Qed.

(** C2 fails as stated: with an image limit of zero the partitioner
    returns an empty batch followed by a batch above the limit, and with
    the declared configuration a list that starts with a video gives no
    batches at all. *)
Lemma partition_media_unchecked_limits :
  (¬ ∃ batches,
       _partition_media zero_images_config [sample_media "a.jpg"] (Some ORDERED)
       = Ok batches ∧
       Forall (batch_ok zero_images_config) batches) ∧
  (¬ ∃ batches,
       _partition_media default_config [sample_media "a.mp4"] (Some ORDERED)
       = Ok batches).
Proof.
  split.
  - intros (batches & Hrun & Hok). vm_compute in Hrun. injection Hrun as <-.
    apply Forall_cons_1 in Hok as [[Hne _] _]. by apply Hne.
  - intros (batches & Hrun). vm_compute in Hrun. discriminate.
Qed.

Lemma partition_media_postcondition_witness :
  limits_configured (with_max_videos 1 default_config)
    (sample_media <$> ["v.mp4"; "a.jpg"; "w.mp4"; "b.jpg"]) ∧
  ∃ batches,
    _partition_media (with_max_videos 1 default_config)
      (sample_media <$> ["v.mp4"; "a.jpg"; "w.mp4"; "b.jpg"]) (Some VIDEOLAST)
    = Ok batches ∧
    Forall (batch_ok (with_max_videos 1 default_config)) batches ∧
    concat batches
    = strategy_order (Some VIDEOLAST) (sample_media <$> ["v.mp4"; "a.jpg"; "w.mp4"; "b.jpg"]) ∧
    concat batches ≡ₚ sample_media <$> ["v.mp4"; "a.jpg"; "w.mp4"; "b.jpg"] ∧
    (sample_media <$> ["v.mp4"; "a.jpg"; "w.mp4"; "b.jpg"] ≠ [] → batches ≠ []).
Proof.
  assert (Hlimits : limits_configured (with_max_videos 1 default_config)
                      (sample_media <$> ["v.mp4"; "a.jpg"; "w.mp4"; "b.jpg"])).
  { apply (limits_configured_all _ _ 1); [simpl; lia|reflexivity|lia]. }
  split; [exact Hlimits|].
  exact (partition_media_postcondition _ _ (Some VIDEOLAST) Hlimits).
Defined.

(** C10 fails as stated: the declared configuration has no
    [max_videos_per_post] and the list holds a video, yet the video follows
    an image and the list is partitioned, under either strategy. *)
Lemma partition_media_video_after_image :
  max_videos_per_post default_config = None ∧
  existsb is_mp4 (sample_media <$> ["a.jpg"; "b.mp4"]) = true ∧
  _partition_media default_config (sample_media <$> ["a.jpg"; "b.mp4"]) (Some ORDERED)
  = Ok [[sample_media "a.jpg"]; [sample_media "b.mp4"]] ∧
  _partition_media default_config (sample_media <$> ["b.mp4"; "a.jpg"]) (Some VIDEOLAST)
  = Ok [[sample_media "a.jpg"]; [sample_media "b.mp4"]].
Proof. split; [reflexivity|]. split; [reflexivity|]. split; vm_compute; reflexivity. Qed.

Lemma partition_media_without_video_limit_witness :
  max_videos_per_post default_config = None ∧
  _partition_media default_config (sample_media <$> ["b.mp4"; "a.jpg"]) (Some ORDERED)
  = Raise AttributeError.
Proof.
  split; [reflexivity|].
  exact (partition_media_without_video_limit default_config
           (sample_media <$> ["b.mp4"; "a.jpg"]) (Some ORDERED) eq_refl).
Defined.

Lemma queue_post_thread_linkage_witness :
  ∃ jobs w',
    queue_post (with_max_videos 1 default_config)
      (sample_post "hello" 86400 ["a.jpg"; "b.jpg"; "c.jpg"; "d.jpg"; "e.jpg"; "f.mp4"])
      7 demo_world = (Ok tt, w') ∧
    queue w' = queue demo_world ++ jobs ∧
    embed <$> jobs
    = [sample_media <$> ["a.jpg"; "b.jpg"; "c.jpg"; "d.jpg"];
       [sample_media "e.jpg"]; [sample_media "f.mp4"]] ∧
    (∀ i job, jobs !! i = Some job → job_index job = len (queue demo_world) + Z.of_nat i) ∧
    (∀ first, jobs !! 0%nat = Some first →
       root_index first = None ∧ parent_index first = None) ∧
    (∀ i first previous job,
       jobs !! 0%nat = Some first → jobs !! i = Some previous → jobs !! S i = Some job →
       root_index job = Some (job_index first) ∧
       parent_index job = Some (job_index previous)) ∧
    (∀ job, job ∈ jobs →
       (root_index job = None ∧ parent_index job = None) ∨
       (∃ r p, root_index job = Some r ∧ parent_index job = Some p ∧
               r < job_index job ∧ p < job_index job)).
Proof.
  apply (@queue_post_thread_linkage demo_environment
           (with_max_videos 1 default_config)
           (sample_post "hello" 86400 ["a.jpg"; "b.jpg"; "c.jpg"; "d.jpg"; "e.jpg"; "f.mp4"])
           7 demo_world _ 86400
           {| year := 1970; month := 1; day := 2; hour := 0; minute := 0; second := 0 |}).
  - reflexivity.
  - discriminate.
  - reflexivity.
  - reflexivity.
  - intros [|[|[|i]]] Hi; [| | |simpl in Hi; lia];
      eexists _, _; (split; [vm_compute; reflexivity|reflexivity]).
Defined.


(** A delete that raises stops the rollback: the failed job never had a
    [uri], the service rejects the delete, and the posted job after it
    stays PROCESSED. *)
Example rollback_stops_at_failed_delete :
  (rollback (demo_engine false) (demo_queue failed_between)).1 = Raise TypeError ∧
  state <$> queue (rollback (demo_engine false) (demo_queue failed_between)).2
  = [READY; FAILED; PROCESSED] ∧
  trace (rollback (demo_engine false) (demo_queue failed_between)).2
  = [Login (Some "user.bsky.social") (Some "secret");
     DeletePost (Some "at://demo/app.bsky.feed.post/0"); DeletePost None].
Proof. split; [vm_compute; reflexivity|]. split; vm_compute; reflexivity. Qed.


Lemma orphaned_reply_not_posted_witness :
  ∃ res w',
    _post_to_bluesky (demo_engine false) 1 (demo_queue orphan_thread) = (res, w') ∧
    queue w' = queue (demo_queue orphan_thread) ∧
    disk w' = disk (demo_queue orphan_thread) ∧
    (∃ new, trace w' = trace (demo_queue orphan_thread) ++ new ∧
            Forall (λ e, is_create e = false) new) ∧
    (state (sample_job 1 0 FAILED (Some 0) (Some 0) None) ≠ PROCESSED →
     ∃ e, res = Raise e).
Proof.
  apply (@orphaned_reply_not_posted demo_environment (demo_engine false) 1%nat
           (demo_queue orphan_thread)
           (sample_job 1 0 FAILED (Some 0) (Some 0) None) 0 0
           (sample_job 0 0 READY None None None)
           (sample_job 0 0 READY None None None)).
  - intros c u [-> | ->]; [|destruct c]; by eexists.
  - reflexivity.
  - reflexivity.
  - reflexivity.
  - reflexivity.
  - reflexivity.
  - reflexivity.
  - by left.
Defined.

Lemma post_twice_no_remote_call_witness :
  Forall (λ job, state job = PROCESSED)
    (queue (post (demo_engine false) None (demo_queue ready_thread)).2) ∧
  ∃ res2 w2,
    post (demo_engine false) None
      (post (demo_engine false) None (demo_queue ready_thread)).2 = (res2, w2) ∧
    queue w2 = queue (post (demo_engine false) None (demo_queue ready_thread)).2 ∧
    disk w2 = disk (post (demo_engine false) None (demo_queue ready_thread)).2 ∧
    trace w2
    = trace (post (demo_engine false) None (demo_queue ready_thread)).2
      ++ login_events (demo_engine false) ∧
    Forall (λ e, is_post_call e = false) (login_events (demo_engine false)) ∧
    (∀ i (w : @world demo_environment) job,
       queue w !! i = Some job → state job = PROCESSED →
       _post_to_bluesky (demo_engine false) i w = (Ok tt, w)).
Proof.
  assert (Hall : Forall (λ job, state job = PROCESSED)
                   (queue (post (demo_engine false) None (demo_queue ready_thread)).2)).
  { vm_compute. by repeat constructor. }
  split; [exact Hall|].
  apply (@post_twice_no_remote_call demo_environment (demo_engine false)
           (demo_queue ready_thread)
           (post (demo_engine false) None (demo_queue ready_thread)).1
           (post (demo_engine false) None (demo_queue ready_thread)).2).
  - by destruct (post (demo_engine false) None (demo_queue ready_thread)).
  - exact Hall.
Defined.

(** C6 fails as stated: the single-index run over a queue whose only job
    of that archive index is PROCESSED logs in and does nothing else; the
    job is not posted again. *)
Lemma post_index_leaves_processed_job :
  archive_index posted_job = 1 ∧ state posted_job = PROCESSED ∧
  (post (demo_engine false) (Some 1) (demo_queue [posted_job])).1 = Ok tt ∧
  queue (post (demo_engine false) (Some 1) (demo_queue [posted_job])).2 = [posted_job] ∧
  trace (post (demo_engine false) (Some 1) (demo_queue [posted_job])).2
  = [Login (Some "user.bsky.social") (Some "secret")].
Proof.
  split; [reflexivity|]. split; [reflexivity|].
  split; [vm_compute; reflexivity|]. split; vm_compute; reflexivity.
Qed.

Lemma post_index_skips_processed_witness :
  positions_of 1 (queue (demo_queue indexed_queue)) = [0; 1; 3]%nat ∧
  state <$> queue (demo_queue indexed_queue) = [PROCESSED; READY; READY; FAILED] ∧
  state <$> queue (post (demo_engine false) (Some 1) (demo_queue indexed_queue)).2
  = [PROCESSED; PROCESSED; READY; PROCESSED] ∧
  length (List.filter is_create
            (trace (post (demo_engine false) (Some 1) (demo_queue indexed_queue)).2))
  = 2%nat ∧
  (login (demo_engine false);;
   for_each (positions_of 1 (queue (demo_queue indexed_queue)))
     (_post_to_bluesky (demo_engine false))) (demo_queue indexed_queue)
  = ((post (demo_engine false) (Some 1) (demo_queue indexed_queue)).1,
     (post (demo_engine false) (Some 1) (demo_queue indexed_queue)).2) ∧
  (∃ new,
     trace (post (demo_engine false) (Some 1) (demo_queue indexed_queue)).2
     = trace (demo_queue indexed_queue) ++ new ∧
     Forall (λ e, is_sleep e = false) new) ∧
  length (queue (post (demo_engine false) (Some 1) (demo_queue indexed_queue)).2)
  = length (queue (demo_queue indexed_queue)) ∧
  (∀ i job, queue (demo_queue indexed_queue) !! i = Some job →
     archive_index job ≠ 1 ∨ state job = PROCESSED ∨ simulate (demo_engine false) = true →
     queue (post (demo_engine false) (Some 1) (demo_queue indexed_queue)).2 !! i
     = Some job) ∧
  ((post (demo_engine false) (Some 1) (demo_queue indexed_queue)).1 = Ok tt →
   simulate (demo_engine false) = false →
   ∀ i job, queue (demo_queue indexed_queue) !! i = Some job → archive_index job = 1 →
     ∃ job', queue (post (demo_engine false) (Some 1) (demo_queue indexed_queue)).2 !! i
             = Some job' ∧ state job' = PROCESSED) ∧
  ((∀ job, job ∈ queue (demo_queue indexed_queue) → archive_index job = 1 →
      state job = PROCESSED) →
     queue (post (demo_engine false) (Some 1) (demo_queue indexed_queue)).2
     = queue (demo_queue indexed_queue) ∧
     disk (post (demo_engine false) (Some 1) (demo_queue indexed_queue)).2
     = disk (demo_queue indexed_queue) ∧
     trace (post (demo_engine false) (Some 1) (demo_queue indexed_queue)).2
     = trace (demo_queue indexed_queue) ++ login_events (demo_engine false)).
Proof.
  split; [reflexivity|]. split; [reflexivity|].
  split; [vm_compute; reflexivity|]. split; [vm_compute; reflexivity|].
  apply (@post_index_skips_processed demo_environment (demo_engine false) 1
           (demo_queue indexed_queue)).
  by destruct (post (demo_engine false) (Some 1) (demo_queue indexed_queue)).
Defined.

(** C7 (code defect): with [min_date] = 2024-01-02 and [max_date] =
    2024-01-04 and five posts dated 2024-01-01 to 2024-01-05, the run
    raises [TypeError] at the first comparison of a timestamp with a date
    and queues nothing, where the claim has the posts of days 2, 3 and 4
    queued. *)
Theorem date_window_raises_type_error :
  (extract_posts_to_queue window_config five_days demo_world).1 = Raise TypeError ∧
  queue (extract_posts_to_queue window_config five_days demo_world).2 = [] ∧
  disk (extract_posts_to_queue window_config five_days demo_world).2 = ∅ ∧
  trace (extract_posts_to_queue window_config five_days demo_world).2 = [].
Proof.
  split; [vm_compute; reflexivity|]. split; [vm_compute; reflexivity|].
  split; vm_compute; reflexivity.
Qed.

(** C8 (code defect): an archive with a dated post and a post that has no
    timestamp anywhere: the run reports the second post and then raises
    [TypeError] when it formats that post's date; nothing is queued, where
    the claim has the run go on without that post. *)
Theorem undated_post_stops_the_run :
  rectify_timestamp undated_post = None ∧
  (extract_posts_to_queue default_config
     [sample_post "A" 86400 ["a.jpg"]; undated_post] demo_world).1 = Raise TypeError ∧
  queue (extract_posts_to_queue default_config
           [sample_post "A" 86400 ["a.jpg"]; undated_post] demo_world).2 = [] ∧
  trace (extract_posts_to_queue default_config
           [sample_post "A" 86400 ["a.jpg"]; undated_post] demo_world).2
  = [Warning (NoDateFound 1)].
Proof.
  split; [reflexivity|]. split; [vm_compute; reflexivity|].
  split; vm_compute; reflexivity.
Qed.

Lemma append_load_round_trip_witness :
  ∃ w1,
    for_each ready_thread append demo_world = (Ok tt, w1) ∧
    (∀ files, is_listing files w1 →
       ∃ w2, load files (fresh_store w1) = (Ok tt, w2) ∧ queue w2 = ready_thread) ∧
    (∀ files, is_listing files demo_world →
       ∃ w2, load files (fresh_store demo_world) = (Ok tt, w2) ∧ queue w2 = []).
Proof.
  apply (@append_load_round_trip demo_environment demo_world ready_thread).
  - reflexivity.
  - intros [|[|i]] job Hjob; simpl in Hjob; [by injection Hjob as <-..|done].
Defined.

(** ** What the engines keep between runs *)

Section Kept.
Context `{Environment}.
Implicit Types (self : BlueSkyPostingEngine) (w : world).
Implicit Types (job : BlueSkyMigrationJob) (i : nat).
Implicit Types (q jobs : list BlueSkyMigrationJob).

Lemma keeps_ret {A} (P : world → Prop) (a : A) : keeps P (mret a : M A).
Proof. by intros w r w' HP [= <- <-]. Qed.

Lemma keeps_lift {A} (P : world → Prop) (res : result A) : keeps P (lift res).
Proof. by intros w r w' HP [= <- <-]. Qed.

Lemma keeps_raise {A} (P : world → Prop) (e : exn) : keeps P (raise e : M A).
Proof. by intros w r w' HP [= <- <-]. Qed.

Lemma keeps_bind {A B} (P : world → Prop) (m : M A) (k : A → M B) :
  keeps P m → (∀ a, keeps P (k a)) → keeps P (m ≫= k).
Proof.
  intros Hm Hk w r w' HP. rewrite bind_run.
  destruct (m w) as [[a|e] w1] eqn:Hrun; specialize (Hm _ _ _ HP Hrun).
  - by apply Hk.
  - by intros [= <- <-].
Qed.

Lemma keeps_for_each {A} (P : world → Prop) (l : list A) (body : A → M unit) :
  (∀ x, keeps P (body x)) → keeps P (for_each l body).
Proof.
  intros Hbody. induction l as [|x l IH]; simpl; [apply keeps_ret|].
  apply keeps_bind; [apply Hbody|]. by intros _.
Qed.

Lemma keeps_map_each {A B} (P : world → Prop) (l : list A) (body : A → M B) :
  (∀ x, keeps P (body x)) → keeps P (map_each l body).
Proof.
  intros Hbody. induction l as [|x l IH]; simpl; [apply keeps_ret|].
  apply keeps_bind; [apply Hbody|]. intros y.
  apply keeps_bind; [apply IH|]. intros ys. apply keeps_ret.
Qed.

Lemma keeps_emit (P : world → Prop) (e : event) : of_store P → keeps P (emit e).
Proof. intros HP w r w' Hw [= _ <-]. by apply (HP w). Qed.

Lemma keeps_call {A} (P : world → Prop) (e : event) (op : Remote → result A * Remote) :
  of_store P → keeps P (call e op).
Proof.
  intros HP w r w' Hw. unfold call. destruct (op (remote w)) as [res c].
  intros [= _ <-]. by apply (HP w).
Qed.

Lemma keeps_time_sleep (P : world → Prop) (secs : Z) :
  of_store P → keeps P (time_sleep secs).
Proof.
  intros HP. unfold time_sleep. destruct (secs <? 0); [apply keeps_raise|].
  apply keeps_bind; [apply keeps_lift|]. intros _. by apply keeps_emit.
Qed.

Lemma keeps_get_queue (P : world → Prop) : keeps P get_queue.
Proof. by intros w r w' HP [= _ <-]. Qed.

Lemma keeps_job_at (P : world → Prop) i : keeps P (job_at i).
Proof. intros w r w' HP. unfold job_at. by destruct (queue w !! i); intros [= _ <-]. Qed.

Lemma keeps_login (P : world → Prop) self : of_store P → keeps P (login self).
Proof.
  intros HP. unfold login. destruct (simulate self); [apply keeps_ret|by apply keeps_call].
Qed.


(** *** The files of a dense queue *)

Lemma saved_app jobs1 jobs2 (d : gmap Z BlueSkyMigrationJob) :
  saved (jobs1 ++ jobs2) d = saved jobs2 (saved jobs1 d).
Proof. unfold saved. by rewrite foldl_app. Qed.


Lemma dense_snoc q job :
  dense q → job_index job = len q → dense (q ++ [job]).
Proof.
  intros Hdense Hindex i job' Hi.
  apply lookup_app_Some in Hi as [Hi|[Hge Hi]]; [by apply Hdense|].
  apply list_lookup_singleton_Some in Hi as [Hi ->].
  rewrite Hindex. unfold len. f_equal. lia.
Qed.







(** *** Posting *)







(** *** What a run may change in a job *)

Lemma jobwise_refl (change : BlueSkyMigrationJob → BlueSkyMigrationJob → Prop) w :
  (∀ job, change job job) → jobwise change w w.
Proof. intros Hrefl. split; [done|]. intros i job Hjob. by exists job. Qed.

Lemma jobwise_same_queue (change : BlueSkyMigrationJob → BlueSkyMigrationJob → Prop)
    w0 w w' :
  queue w' = queue w → jobwise change w0 w → jobwise change w0 w'.
Proof. intros Hq [Hlen Hjobs]. split; rewrite Hq; done. Qed.

Lemma jobwise_trans (change : BlueSkyMigrationJob → BlueSkyMigrationJob → Prop)
    w0 w w' :
  (∀ a b c, change a b → change b c → change a c) →
  jobwise change w0 w → jobwise change w w' → jobwise change w0 w'.
Proof.
  intros Htrans [Hlen Hjobs] [Hlen' Hjobs']. split; [congruence|].
  intros i job Hjob. destruct (Hjobs i job Hjob) as (job1 & Hjob1 & Hch1).
  destruct (Hjobs' i job1 Hjob1) as (job2 & Hjob2 & Hch2).
  exists job2. split; [done|]. by eapply Htrans.
Qed.

Lemma jobwise_insert (change : BlueSkyMigrationJob → BlueSkyMigrationJob → Prop)
    w w' i job job' :
  (∀ job, change job job) →
  queue w !! i = Some job → change job job' →
  queue w' = <[i := job']> (queue w) →
  jobwise change w w'.
Proof.
  intros Hrefl Hjob Hchange Hq. split; [by rewrite Hq, length_insert|].
  intros j job0 Hjob0. rewrite Hq. destruct (decide (j = i)) as [->|Hne].
  - exists job'. split; [|congruence].
    apply list_lookup_insert_eq. by eapply lookup_lt_Some.
  - exists job0. by rewrite list_lookup_insert_ne.
Qed.

Lemma posted_or_untouched_refl job : posted_or_untouched job job.
Proof. by left. Qed.

Lemma posted_or_untouched_trans a b c :
  posted_or_untouched a b → posted_or_untouched b c → posted_or_untouched a c.
Proof.
  intros [->|(Hstate & response & ->)]; [done|].
  intros [->|(Hstate' & _)]; [right; eauto|]. by destruct Hstate'.
Qed.

Lemma reset_or_untouched_refl job : reset_or_untouched job job.
Proof. by left. Qed.

Lemma reset_or_untouched_trans a b c :
  reset_or_untouched a b → reset_or_untouched b c → reset_or_untouched a c.
Proof.
  intros [->|(Hstate & ->)]; [done|].
  intros [->|(Hstate' & _)]; [by right|]. by destruct Hstate'.
Qed.

Lemma jobwise_of_store (change : BlueSkyMigrationJob → BlueSkyMigrationJob → Prop) w0 :
  of_store (jobwise change w0).
Proof. intros w w' Hq _. by apply jobwise_same_queue. Qed.

Lemma post_to_bluesky_jobwise self i w0 :
  keeps (jobwise posted_or_untouched w0) (_post_to_bluesky self i).
Proof.
  intros w r w' Hsofar Hrun.
  destruct (queue w !! i) as [job|] eqn:Hjob.
  - destruct (decide (simulate self = true ∨ state job = PROCESSED)) as [Hskip|Hgo].
    + rewrite (post_to_bluesky_skip self i w job Hjob Hskip) in Hrun. by injection Hrun as <- <-.
    + assert (simulate self = false) as Hsim by (destruct (simulate self); tauto).
      assert (state job ≠ PROCESSED) as Hstate by tauto.
      destruct (post_to_bluesky_attempt self i w job r w' Hjob Hsim Hstate Hrun)
        as [(_ & Hq & Hd)|(_ & response & Hq & Hd)].
      * by apply (jobwise_same_queue _ _ w).
      * apply (jobwise_trans _ _ w); [apply posted_or_untouched_trans|done|].
        apply (jobwise_insert _ _ _ i job (mark_processed response job));
          [apply posted_or_untouched_refl|done| |done].
        right. eauto.
  - revert Hrun. unfold _post_to_bluesky, job_at. rewrite bind_run, Hjob.
    by intros [= <- <-].
Qed.

Lemma post_jobwise self index w0 :
  keeps (jobwise posted_or_untouched w0) (post self index).
Proof.
  unfold post. apply keeps_bind; [apply keeps_login, jobwise_of_store|]. intros _.
  apply keeps_bind; [apply keeps_get_queue|]. intros q.
  destruct index as [v|]; apply keeps_for_each; intros i.
  - unfold post_only. apply keeps_bind; [apply keeps_job_at|]. intros job.
    destruct (_ =? _); [apply post_to_bluesky_jobwise|apply keeps_ret].
  - unfold post_next. apply keeps_bind; [apply keeps_job_at|]. intros job.
    destruct (decide (state job = PROCESSED)); [apply keeps_ret|].
    apply keeps_bind.
    { destruct (0 <? i)%nat; [apply keeps_time_sleep, jobwise_of_store|apply keeps_ret]. }
    intros _. destruct (decide _); [apply post_to_bluesky_jobwise|apply keeps_ret].
Qed.

Lemma rollback_jobwise self w0 :
  keeps (jobwise reset_or_untouched w0) (rollback self).
Proof.
  unfold rollback. apply keeps_bind; [apply keeps_login, jobwise_of_store|]. intros _.
  apply keeps_bind; [apply keeps_get_queue|]. intros q.
  apply keeps_for_each. intros i.
  intros w r w' Hsofar. unfold rollback_job, job_at. rewrite bind_run.
  destruct (queue w !! i) as [job|] eqn:Hjob; [|by intros [= <- <-]].
  destruct (decide (state job = READY)); [by intros [= <- <-]|].
  destruct (decide _); [|by intros [= <- <-]].
  rewrite bind_run. unfold call at 1.
  destruct (delete_post (uri job) (remote w)) as [[[]|e] c].
  - rewrite bind_run. unfold get_queue at 1. rewrite bind_run.
    unfold set_queue, save. simpl. intros [= <- <-].
    apply (jobwise_trans _ _ w); [apply reset_or_untouched_trans|done|].
    apply (jobwise_insert _ _ _ i job (mark_ready job));
      [apply reset_or_untouched_refl|done|by right|done].
  - intros [= <- <-]. by apply (jobwise_same_queue _ _ w).
Qed.

(** X3: whatever the outcome of [post], with or without an index, the
    queue keeps its length and every job is either exactly as it was or
    was posted from a state other than PROCESSED: a job that was PROCESSED
    is never touched, a job's state is its old state or PROCESSED (no run
    ever sets FAILED, not even when an attempt raises), and the index,
    archive index, text, media and thread links of a job never change. *)
Theorem post_only_marks_processed self index w res w' :
  post self index w = (res, w') →
  length (queue w') = length (queue w) ∧
  ∀ i job, queue w !! i = Some job →
    ∃ job', queue w' !! i = Some job' ∧
      posted_or_untouched job job' ∧
      (state job = PROCESSED → job' = job) ∧
      (state job' = state job ∨ state job' = PROCESSED) ∧
      job_index job' = job_index job ∧ archive_index job' = archive_index job ∧
      text job' = text job ∧ embed job' = embed job ∧
      root_index job' = root_index job ∧ parent_index job' = parent_index job.
Proof.
  intros Hrun.
  destruct (post_jobwise self index w w res w'
              (jobwise_refl _ _ posted_or_untouched_refl) Hrun) as [Hlen Hjobs].
  split; [done|]. intros i job Hjob.
  destruct (Hjobs i job Hjob) as (job' & Hjob' & Hchange).
  exists job'. split; [done|]. split; [done|].
  destruct Hchange as [->|(Hstate & response & ->)]; simpl; naive_solver.
Qed.

(** X4: whatever the outcome of [rollback], the queue keeps its length and
    every job is either exactly as it was or has only its state reset to
    READY from PROCESSED or FAILED: a READY job is never touched, and no
    field other than the state changes; in particular [cid] and [uri] stay. *)
Theorem rollback_only_resets_state self w res w' :
  rollback self w = (res, w') →
  length (queue w') = length (queue w) ∧
  ∀ i job, queue w !! i = Some job →
    ∃ job', queue w' !! i = Some job' ∧
      reset_or_untouched job job' ∧
      (state job = READY → job' = job) ∧
      (state job' = state job ∨ state job' = READY) ∧
      cid job' = cid job ∧ uri job' = uri job ∧
      job_index job' = job_index job ∧ archive_index job' = archive_index job ∧
      text job' = text job ∧ embed job' = embed job ∧
      root_index job' = root_index job ∧ parent_index job' = parent_index job.
Proof.
  intros Hrun.
  destruct (rollback_jobwise self w w res w'
              (jobwise_refl _ _ reset_or_untouched_refl) Hrun) as [Hlen Hjobs].
  split; [done|]. intros i job Hjob.
  destruct (Hjobs i job Hjob) as (job' & Hjob' & Hchange).
  exists job'. split; [done|]. split; [done|].
  destruct Hchange as [->|(Hstate & ->)]; simpl; naive_solver.
Qed.

End Kept.

(** ** Simulated runs *)

Section Simulated.
Context `{Environment}.
Implicit Types (self : BlueSkyPostingEngine) (w : world).

Lemma with_events_nil w : with_events w [] = w.
Proof. unfold with_events. rewrite app_nil_r. by destruct w. Qed.

Lemma time_sleep_run self w :
  waits_return self →
  time_sleep (api_rate_limit_delay_secs (config self)) w
  = (Ok tt, with_events w [Sleep (api_rate_limit_delay_secs (config self))]).
Proof.
  intros [Hdelay Hsleep]. unfold time_sleep.
  assert ((api_rate_limit_delay_secs (config self) <? 0) = false) as -> by lia.
  by rewrite bind_run, lift_run, Hsleep.
Qed.






End Simulated.

(** ** A full run against a service that answers *)

Section FullRun.
Context `{Environment}.
Implicit Types (self : BlueSkyPostingEngine) (w : world).
Implicit Types (job : BlueSkyMigrationJob) (i : nat).

Lemma py_index_in_range {A} (l : list A) (z : Z) (n : nat) :
  0 ≤ z < Z.of_nat n → (n ≤ length l)%nat →
  ∃ x, py_index l z = Ok x ∧ l !! Z.to_nat z = Some x.
Proof.
  intros Hz Hn. destruct (lookup_lt_is_Some_2 l (Z.to_nat z)) as [x Hx]; [lia|].
  exists x. split; [|done]. unfold py_index, len.
  assert ((z <? 0) = false) as -> by lia.
  assert (((0 <=? z) && (z <? Z.of_nat (length l))) = true) as -> by lia.
  by rewrite Hx.
Qed.

Lemma no_create_in_uploads (new : list event) :
  Forall (λ e, is_upload e = true) new → List.filter is_create new = [].
Proof.
  induction 1 as [|e new He _ IH]; simpl; [done|]. by destruct e.
Qed.

Lemma upload_ok self entry w :
  (∀ data c, ∃ blob c', upload_blob data c = (Ok blob, c')) →
  (∃ data, read_file (archive_folder self) (m_uri entry) = Ok data) →
  ∃ blob w', upload self entry w = (Ok blob, w') ∧ only_uploads w w'.
Proof.
  intros Hupload [data Hread]. unfold upload. rewrite bind_run, lift_run, Hread.
  destruct (upload self entry w) as [r w'] eqn:Hrun.
  pose proof (upload_frame _ _ _ _ _ Hrun) as Hframe.
  revert Hrun. unfold upload. rewrite bind_run, lift_run, Hread. unfold call.
  destruct (Hupload data (remote w)) as (blob & c & ->). intros [= <- <-].
  by eexists _, _.
Qed.

Lemma map_each_upload_ok self {B} (wrap : Blob → B) entries w :
  (∀ data c, ∃ blob c', upload_blob data c = (Ok blob, c')) →
  (∀ entry, entry ∈ entries →
     ∃ data, read_file (archive_folder self) (m_uri entry) = Ok data) →
  ∃ blobs w',
    map_each entries (λ entry, blob ← upload self entry; mret (wrap blob)) w
    = (Ok blobs, w') ∧ only_uploads w w'.
Proof.
  intros Hupload. revert w.
  induction entries as [|entry entries IH]; intros w Hread; simpl.
  - exists [], w. split; [done|]. apply only_uploads_refl.
  - destruct (upload_ok self entry w Hupload) as (blob & w1 & Hup & Hframe1).
    { apply Hread. by left. }
    destruct (IH w1) as (blobs & w2 & Hrest & Hframe2).
    { intros e He. apply Hread. by right. }
    exists (wrap blob :: blobs), w2.
    rewrite !bind_run, Hup, ret_run, bind_run, Hrest.
    split; [done|]. by eapply only_uploads_trans.
Qed.

Lemma upload_media_ok self job w :
  (∀ data c, ∃ blob c', upload_blob data c = (Ok blob, c')) →
  postable_job self job →
  ∃ embeds w', upload_media self job w = (Ok embeds, w') ∧ only_uploads w w'.
Proof.
  intros Hupload (Hne & Hread & _). unfold upload_media.
  destruct (embed job) as [|first rest] eqn:Hembed; [done|].
  destruct (is_mp4 first).
  - destruct (upload_ok self first w Hupload) as (blob & w' & Hup & Hframe).
    { apply Hread. by left. }
    rewrite bind_run, Hup. by eexists _, _.
  - destruct (map_each_upload_ok self (λ blob, ("Img alt", blob)) (first :: rest) w Hupload Hread)
      as (blobs & w' & Hup & Hframe).
    rewrite bind_run, Hup. by eexists _, _.
Qed.

Lemma strong_ref_at_ok index w found :
  (∀ c u, ∃ ref, create_strong_ref (Some c) (Some u) = Ok ref) →
  py_index (queue w) index = Ok found → identified found →
  ∃ ref, strong_ref_at index w = (Ok ref, w).
Proof.
  intros Href Hfound [[c Hc] [u Hu]]. destruct (Href c u) as [ref Hmade].
  exists ref. unfold strong_ref_at. rewrite bind_run. unfold get_queue.
  by rewrite bind_run, lift_run, Hfound, lift_run, Hc, Hu, Hmade.
Qed.

(** An attempt on a job whose root and parent are posted succeeds. *)
Lemma post_to_bluesky_ok self i w job :
  simulate self = false → service_answers self →
  queue w !! i = Some job → state job ≠ PROCESSED →
  postable_job self job →
  (∀ r p, root_index job = Some r → parent_index job = Some p →
     ∃ root_job parent_job,
       py_index (queue w) r = Ok root_job ∧ identified root_job ∧
       py_index (queue w) p = Ok parent_job ∧ identified parent_job) →
  ∃ response w' new,
    _post_to_bluesky self i w = (Ok tt, w') ∧
    queue w' = <[i := mark_processed response job]> (queue w) ∧
    disk w' = <[job_index job := mark_processed response job]> (disk w) ∧
    trace w' = trace w ++ new ∧ length (List.filter is_create new) = 1%nat.
Proof.
  intros Hsim (_ & Hupload & Hcreate & Href) Hjob Hstate Hpostable Hrefs.
  unfold _post_to_bluesky.
  rewrite (bind_ok _ _ _ _ _ (job_at_run _ _ _ Hjob)), Hsim, decide_False by done.
  destruct (upload_media_ok self job w Hupload Hpostable)
    as (embeds & w1 & Hup & Hq1 & Hd1 & new1 & Ht1 & Hnew1).
  rewrite bind_run, Hup, bind_run, lift_run.
  destruct Hpostable as (_ & _ & built & ->).
  assert (∃ reply, reply_refs job w1 = (Ok reply, w1)) as [reply Hreply].
  { unfold reply_refs.
    destruct (root_index job) as [r|] eqn:Hr; [|by eexists].
    destruct (parent_index job) as [p|] eqn:Hp; [|by eexists].
    destruct (Hrefs r p eq_refl eq_refl) as (rj & pj & Hrj & Hidr & Hpj & Hidp).
    rewrite <- Hq1 in Hrj, Hpj.
    destruct (strong_ref_at_ok r w1 rj Href Hrj Hidr) as [root_ref Hroot].
    destruct (strong_ref_at_ok p w1 pj Href Hpj Hidp) as [parent_ref Hparent].
    rewrite bind_run, Hroot, bind_run, Hparent. by eexists. }
  rewrite bind_run, Hreply, bind_run. unfold call at 1.
  match goal with
  | |- context [create_record ?record (remote w1)] =>
      destruct (Hcreate record (remote w1)) as (response & c & ->);
      exists response; eexists; exists (new1 ++ [CreatePost record])
  end.
  rewrite bind_run. unfold get_queue at 1. rewrite bind_run. unfold set_queue, save. simpl.
  split; [done|]. rewrite Hq1, Hd1, Ht1, <- app_assoc.
  split; [done|]. split; [done|]. split; [done|].
  rewrite List.filter_app, (no_create_in_uploads _ Hnew1). done.
Qed.

Lemma well_linked_posted self q i job response :
  well_linked self q → q !! i = Some job →
  well_linked self (<[i := mark_processed response job]> q).
Proof.
  intros Hwf Hjob j job' Hj.
  apply list_lookup_insert_Some in Hj as [(<- & <- & _)|[Hne Hj]]; [|by apply Hwf].
  destruct (Hwf i job Hjob) as (Hpost & _ & Hlinks).
  split; [done|]. split; [|done]. intros _. split; by eexists.
Qed.

(** The driver loop from position [a] on, when the jobs before it are posted. *)
Lemma full_run_loop self k :
  simulate self = false → service_answers self → waits_return self →
  ∀ a w,
  (a + k)%nat = length (queue w) →
  well_linked self (queue w) →
  (∀ i job, (i < a)%nat → queue w !! i = Some job → state job = PROCESSED) →
  ∃ w' new,
    for_each (seq a k) (post_next self) w = (Ok tt, w') ∧
    trace w' = trace w ++ new ∧
    length (List.filter is_create new)
    = length (List.filter unprocessed (drop a (queue w))) ∧
    length (queue w') = length (queue w) ∧
    well_linked self (queue w') ∧
    ∀ i job, queue w' !! i = Some job → state job = PROCESSED.
Proof.
  intros Hsim Hservice Hwaits. induction k as [|k IH]; intros a w Hlen Hwf Hdone; simpl.
  - exists w, []. rewrite app_nil_r, drop_ge by lia. do 5 (split; [done|]).
    intros i job Hjob. apply (Hdone i job); [|done]. apply lookup_lt_Some in Hjob. lia.
  - destruct (lookup_lt_is_Some_2 (queue w) a) as [job Hjob]; [lia|].
    rewrite (drop_S _ _ _ Hjob). cbn [List.filter]. unfold unprocessed at 1.
    rewrite bind_run. unfold post_next at 1.
    rewrite (bind_ok _ _ _ _ _ (job_at_run _ _ _ Hjob)).
    destruct (decide (state job = PROCESSED)) as [Hproc|Hproc].
    + rewrite ret_run, bool_decide_eq_false_2 by tauto.
      apply IH; [lia|done|]. intros i job' Hi Hjob'.
      destruct (decide (i = a)) as [->|]; [congruence|]. apply (Hdone i); [lia|done].
    + rewrite bool_decide_eq_true_2 by done.
      rewrite decide_True by (destruct (state job); tauto).
      set (waits := if (0 <? a)%nat
                    then [Sleep (api_rate_limit_delay_secs (config self))] else []).
      assert (Hwait : ∀ (k' : unit → M unit),
                ((if (0 <? a)%nat
                  then time_sleep (api_rate_limit_delay_secs (config self))
                  else mret tt) ≫= k') w = k' tt (with_events w waits)).
      { intros k'. rewrite bind_run. unfold waits.
        destruct (0 <? a)%nat;
          [by rewrite (time_sleep_run self w Hwaits)|by rewrite ret_run, with_events_nil]. }
      rewrite Hwait. clear Hwait.
      destruct (Hwf a job Hjob) as (Hpostable & _ & Hlinks).
      destruct (post_to_bluesky_ok self a (with_events w waits) job Hsim Hservice)
        as (response & w1 & new1 & Hrun & Hq1 & Hd1 & Ht1 & Hcount1); try done.
      { intros r p Hr Hp. destruct (Hlinks r p Hr Hp) as [Hrange Hprange]. simpl.
        destruct (py_index_in_range (queue w) r a Hrange) as (rj & Hrj & Hrj'); [lia|].
        destruct (py_index_in_range (queue w) p a Hprange) as (pj & Hpj & Hpj'); [lia|].
        exists rj, pj. split; [done|]. split.
        { apply (Hwf _ _ Hrj'). apply (Hdone (Z.to_nat r)); [lia|done]. }
        split; [done|].
        apply (Hwf _ _ Hpj'). apply (Hdone (Z.to_nat p)); [lia|done]. }
      rewrite Hrun. simpl in Hq1, Hd1, Ht1.
      destruct (IH (S a) w1) as (w' & new & Hrest & Ht & Hcount & Hlen' & Hwf' & Hall).
      { rewrite Hq1, length_insert. lia. }
      { rewrite Hq1. by apply well_linked_posted. }
      { intros i job' Hi Hjob'. rewrite Hq1 in Hjob'.
        apply list_lookup_insert_Some in Hjob' as [(<- & <- & _)|[Hne Hjob']]; [done|].
        apply (Hdone i); [lia|done]. }
      exists w', (waits ++ new1 ++ new). split; [done|].
      split; [by rewrite Ht, Ht1, <- !app_assoc|].
      rewrite Hq1, drop_insert_lt in Hcount by lia.
      rewrite Hq1, length_insert in Hlen'.
      split; [|done].
      rewrite !List.filter_app, !length_app, Hcount1, Hcount. simpl.
      unfold waits. by destruct (0 <? a)%nat.
Qed.

Lemma login_ok self w :
  service_answers self →
  ∃ w0, login self w = (Ok tt, w0) ∧ queue w0 = queue w ∧ disk w0 = disk w ∧
        trace w0 = trace w ++ login_events self.
Proof.
  intros (Hlogin & _). unfold login, login_events. destruct (simulate self).
  - exists w. by rewrite app_nil_r.
  - unfold call. destruct (Hlogin (remote w)) as [c ->]. by eexists.
Qed.

Lemma no_create_in_login self : List.filter is_create (login_events self) = [].
Proof. unfold login_events. by destruct (simulate self). Qed.

Lemma full_run self w :
  simulate self = false → service_answers self → waits_return self →
  well_linked self (queue w) →
  ∃ w' new,
    post self None w = (Ok tt, w') ∧
    trace w' = trace w ++ new ∧
    length (List.filter is_create new) = length (List.filter unprocessed (queue w)) ∧
    length (queue w') = length (queue w) ∧
    ∀ i job, queue w' !! i = Some job → state job = PROCESSED ∧ identified job.
Proof.
  intros Hsim Hservice Hwaits Hwf.
  destruct (login_ok self w Hservice) as (w0 & Hlogin & Hq0 & Hd0 & Ht0).
  destruct (full_run_loop self (length (queue w0)) Hsim Hservice Hwaits 0 w0)
    as (w' & new & Hloop & Ht & Hcount & Hlen & Hwf' & Hall).
  { done. } { by rewrite Hq0. } { intros i job Hi. lia. }
  exists w', (login_events self ++ new). split.
  { unfold post. rewrite bind_run, Hlogin, bind_run. by unfold get_queue. }
  split; [by rewrite Ht, Ht0, app_assoc|].
  rewrite drop_0, Hq0 in Hcount. rewrite Hq0 in Hlen.
  split; [by rewrite List.filter_app, length_app, no_create_in_login|].
  split; [done|]. intros i job Hjob.
  pose proof (Hall i job Hjob) as Hstate. split; [done|].
  by apply (Hwf' i job Hjob).
Qed.

(** X6: when the run is not simulated, the service and the libraries
    answer, [time.sleep] of the configured delay returns (the delay is not
    negative), every job has media that can be read and a text that can be
    built, the jobs already PROCESSED carry their identifiers, and the root
    and parent of every reply sit before it in the queue, a full run of
    [post] returns with every job PROCESSED and identified; it makes
    exactly one create-post call for each job that was not PROCESSED and
    none for the others. *)
Theorem full_run_posts_every_job self w :
  simulate self = false → service_answers self → waits_return self →
  well_linked self (queue w) →
  ∃ w' new,
    post self None w = (Ok tt, w') ∧
    trace w' = trace w ++ new ∧
    length (List.filter is_create new) = length (List.filter unprocessed (queue w)) ∧
    length (queue w') = length (queue w) ∧
    ∀ i job, queue w' !! i = Some job → state job = PROCESSED ∧ identified job.
Proof.
  intros Hsim Hservice Hwaits Hwf.
  destruct (login_ok self w Hservice) as (w0 & Hlogin & Hq0 & _ & Ht0).
  destruct (full_run_loop self (length (queue w0)) Hsim Hservice Hwaits 0 w0)
    as (w' & new & Hloop & Ht & Hcount & Hlen & Hwf' & Hall);
    [done|by rewrite Hq0|intros i job Hi; lia|].
  exists w', (login_events self ++ new). split.
  { unfold post. rewrite bind_run, Hlogin, bind_run. by unfold get_queue. }
  split; [by rewrite Ht, Ht0, app_assoc|].
  rewrite drop_0, Hq0 in Hcount. rewrite Hq0 in Hlen.
  split; [by rewrite List.filter_app, length_app, no_create_in_login|].
  split; [done|]. intros i job Hjob. split; [by apply (Hall i job)|].
  by apply (Hwf' i job Hjob), (Hall i job).
Qed.

Lemma well_linked_rolled_back self q :
  well_linked self q → well_linked self (rolled_back <$> q).
Proof.
  intros Hwf i job' Hjob'. apply list_lookup_fmap_Some in Hjob' as (job & -> & Hjob).
  destruct (Hwf i job Hjob) as (Hpost & _ & Hlinks). unfold rolled_back.
  destruct (decide (state job = READY)) as [Hready|Hready]; simpl.
  - split; [done|]. split; [|done]. intros Hproc. congruence.
  - split; [done|]. split; [|done]. done.
Qed.

Lemma rolled_back_unprocessed q :
  List.filter unprocessed (rolled_back <$> q) = rolled_back <$> q.
Proof.
  induction q as [|job q IH]; [done|]. rewrite fmap_cons. cbn [List.filter].
  assert (unprocessed (rolled_back job) = true) as ->; [|by rewrite IH].
  unfold unprocessed, rolled_back. apply bool_decide_eq_true_2.
  destruct (decide (state job = READY)) as [Hready|Hready]; simpl; congruence.
Qed.

Lemma rollback_returns self w :
  service_answers self →
  (∀ job c, job ∈ queue w → state job ≠ READY →
     ∃ c', delete_post (uri job) c = (Ok tt, c')) →
  ∃ w1, rollback self w = (Ok tt, w1) ∧ queue w1 = rolled_back <$> queue w.
Proof.
  intros Hservice Hdelete.
  destruct (login_ok self w Hservice) as (w0 & Hlogin & Hq0 & _).
  destruct (for_each (seq 0 (length (queue w0))) (rollback_job self) w0)
    as [res w1] eqn:Hloop.
  destruct (rollback_loop self _ 0 w0 res w1 eq_refl Hloop)
    as (stop & Hstop & Hq & _ & Hcase).
  cbn [Nat.add] in Hcase.
  destruct Hcase as [(-> & -> & _)|(e & job & c & c' & -> & Hjob & Hstate & Hdel & _)].
  - exists w1. split.
    { unfold rollback. rewrite bind_run, Hlogin, bind_run. by unfold get_queue. }
    rewrite Hq. simpl. by rewrite Nat.sub_0_r, drop_0, firstn_all, drop_all, app_nil_r, Hq0.
  - rewrite Hq0 in Hjob.
    destruct (Hdelete job c) as [c'' Hok]; [by eapply list_elem_of_lookup_2|done|].
    congruence.
Qed.

(** X7: with the same service, which also accepts the delete of the
    [uri] of every job that is not READY, a [rollback] followed by a full
    [post] posts the whole queue again: the rollback returns with every
    job READY, and the posting run then makes one create-post call per job
    of the queue, the jobs that had been posted before included, and
    leaves every job PROCESSED with the identifiers of its new post. *)
Theorem rollback_then_post_reposts_all self w :
  simulate self = false → service_answers self → waits_return self →
  (∀ job c, job ∈ queue w → state job ≠ READY →
     ∃ c', delete_post (uri job) c = (Ok tt, c')) →
  well_linked self (queue w) →
  ∃ w1 w2 new,
    rollback self w = (Ok tt, w1) ∧
    (∀ i job, queue w1 !! i = Some job → state job = READY) ∧
    post self None w1 = (Ok tt, w2) ∧
    trace w2 = trace w1 ++ new ∧
    length (List.filter is_create new) = length (queue w) ∧
    ∀ i job, queue w2 !! i = Some job → state job = PROCESSED ∧ identified job.
Proof.
  intros Hsim Hservice Hwaits Hdelete Hwf.
  destruct (rollback_returns self w Hservice Hdelete) as (w1 & Hrollback & Hq1).
  destruct (full_run self w1 Hsim Hservice Hwaits)
    as (w2 & new & Hpost & Ht & Hcount & _ & Hall).
  { rewrite Hq1. by apply well_linked_rolled_back. }
  exists w1, w2, new. split; [done|].
  split.
  { intros i job' Hjob'. rewrite Hq1 in Hjob'.
    apply list_lookup_fmap_Some in Hjob' as (job & -> & Hjob). unfold rolled_back.
    by destruct (decide (state job = READY)). }
  split; [done|]. split; [done|]. split; [|done].
  by rewrite Hcount, Hq1, rolled_back_unprocessed, length_fmap.
Qed.

End FullRun.

(** ** The queue builder, whatever the outcome *)

Section BuilderOutcomes.
Context `{Environment}.
Implicit Types (config : MigrationConfig) (post : InstagramArchivePost).
Implicit Types (w : world) (jobs : list BlueSkyMigrationJob).

(** The loop of [queue_post], stopped or not by an exception. *)
Lemma queue_partitions_any config post a n rest :
  ∀ index thread_start reply_to w res w',
  queue_partitions config post a n index thread_start reply_to rest w = (res, w') →
  ∃ jobs,
    queue w' = queue w ++ jobs ∧
    disk w' = saved jobs (disk w) ∧
    remote w' = remote w ∧ trace w' = trace w ∧
    embed <$> jobs = take (length jobs) rest ∧
    (res = Ok tt → length jobs = length rest) ∧
    ∀ i job, jobs !! i = Some job →
      job_index job = len (queue w) + Z.of_nat i ∧
      archive_index job = a ∧
      state job = READY ∧ cid job = None ∧ uri job = None ∧
      post_text config (p_title post) (index + i) n = Ok (text job) ∧
      root_index job =
        match (index + i)%nat, index with
        | O, _ => None
        | S _, O => Some (len (queue w))
        | S _, S _ => thread_start
        end ∧
      parent_index job =
        match (index + i)%nat, i with
        | O, _ => None
        | S _, O => reply_to
        | S _, S i' => Some (len (queue w) + Z.of_nat i')
        end.
Proof.
  induction rest as [|partition rest IH];
    intros index thread_start reply_to w res w'; simpl.
  - intros [= <- <-]. exists []. rewrite app_nil_r. do 6 (split; [done|]).
    by intros [|?] ? ?.
  - assert (Hstop : ∀ e, (Raise e : result unit, w) = (res, w') →
              ∃ jobs,
                queue w' = queue w ++ jobs ∧ disk w' = saved jobs (disk w) ∧
                remote w' = remote w ∧ trace w' = trace w ∧
                embed <$> jobs = take (length jobs) (partition :: rest) ∧
                (res = Ok tt → length jobs = length (partition :: rest)) ∧
                ∀ i job, jobs !! i = Some job →
                  job_index job = len (queue w) + Z.of_nat i ∧
                  archive_index job = a ∧
                  state job = READY ∧ cid job = None ∧ uri job = None ∧
                  post_text config (p_title post) (index + i) n = Ok (text job) ∧
                  root_index job =
                    match (index + i)%nat, index with
                    | O, _ => None
                    | S _, O => Some (len (queue w))
                    | S _, S _ => thread_start
                    end ∧
                  parent_index job =
                    match (index + i)%nat, i with
                    | O, _ => None
                    | S _, O => reply_to
                    | S _, S i' => Some (len (queue w) + Z.of_nat i')
                    end).
    { intros e [= <- <-]. exists []. rewrite app_nil_r. do 5 (split; [done|]).
      split; [done|]. by intros [|?] ? ?. }
    rewrite bind_run, lift_run.
    destruct (post_text config (p_title post) index n) as [txt|e] eqn:Htxt; [|apply Hstop].
    rewrite bind_run, lift_run.
    destruct (build_rich_text txt) as [built|e]; [|apply Hstop].
    rewrite bind_run. unfold get_queue at 1.
    destruct (p_creation_timestamp post) as [ts|]; [|rewrite bind_run; apply Hstop].
    rewrite bind_run, bind_run, lift_run.
    destruct (fromtimestamp ts) as [dt|e]; [|apply Hstop].
    rewrite ret_run. clear Hstop.
    set (job := {| archive_index := a; text := txt |}).
    rewrite bind_run. unfold append, save. rewrite !bind_run. unfold get_queue, set_queue.
    simpl.
    set (w1 := {| queue := queue w ++ [job] |}).
    intros Hrest.
    destruct (IH (S index) (if index is O then Some (len (queue w)) else thread_start)
                (Some (len (queue w))) w1 res w' Hrest)
      as (jobs & Hq & Hd & Hr & Ht & Hembed & Hall & Hjobs).
    exists (job :: jobs).
    split; [by rewrite Hq; simpl; rewrite <- app_assoc|].
    split; [done|]. split; [done|]. split; [done|].
    split; [by rewrite fmap_cons, Hembed|].
    split; [by intros Hres; simpl; rewrite Hall|].
    intros [|i] job' Hlook; simpl in Hlook.
    + injection Hlook as <-. simpl. rewrite Nat.add_0_r, Z.add_0_r.
      do 5 (split; [done|]). split; [done|]. by destruct index.
    + destruct (Hjobs i job' Hlook) as (Hj & Ha & Hs & Hc & Hu & Htx & Hroot & Hparent).
      simpl in Hj, Hroot, Hparent. rewrite len_app_one in Hj, Hparent.
      rewrite Nat.add_succ_r. simpl.
      split; [lia|]. do 4 (split; [done|]). split; [done|]. split.
      * rewrite Hroot. by destruct index.
      * rewrite Hparent. destruct i; [by rewrite Z.add_0_r|]. f_equal. lia.
Qed.


(** Every outcome of [queue_post]. *)
Lemma queue_post_any config post a w res w' :
  queue_post config post a w = (res, w') →
  ∃ jobs,
    queue w' = queue w ++ jobs ∧
    disk w' = saved jobs (disk w) ∧
    remote w' = remote w ∧ trace w' = trace w ∧
    (res = Ok tt → jobs ≠ []) ∧
    (∀ i job, jobs !! i = Some job →
       built_job (len (queue w)) i job ∧ archive_index job = a ∧
       ((0 < i)%nat → root_index job = Some (len (queue w)))) ∧
    (∀ batches,
       _partition_media config (p_media post) (media_strategy config) = Ok batches →
       embed <$> jobs = take (length jobs) batches ∧
       (res = Ok tt → length jobs = length batches) ∧
       ∀ i job, jobs !! i = Some job →
         post_text config (p_title post) i (length batches) = Ok (text job)).
Proof.
  unfold queue_post. rewrite bind_run, lift_run.
  destruct (_partition_media config (p_media post) (media_strategy config))
    as [batches|e] eqn:Hparts.
  - destruct (bool_decide (0 < len batches)) eqn:Hlen.
    + apply bool_decide_eq_true_1 in Hlen. intros Hrun.
      destruct (queue_partitions_any _ _ _ _ _ _ _ _ _ _ _ Hrun)
        as (jobs & Hq & Hd & Hr & Ht & Hembed & Hall & Hjobs).
      exists jobs. do 4 (split; [done|]). split; [|split].
      * intros Hres ->. specialize (Hall Hres). unfold len in Hlen. simpl in Hall. lia.
      * intros i job Hi.
        destruct (Hjobs i job Hi) as (Hj & Ha & Hs & Hc & Hu & _ & Hroot & Hparent).
        simpl in Hroot, Hparent.
        split; [|split; [done|by destruct i; [lia|]]].
        split; [done|]. do 3 (split; [done|]).
        destruct i as [|i]; [by left|right].
        exists (len (queue w)). split; [done|].
        split; [rewrite Hparent; f_equal; lia|lia].
      * intros ? [= <-]. split; [done|]. split; [done|].
        intros i job Hi. by destruct (Hjobs i job Hi) as (_ & _ & _ & _ & _ & Htx & _).
    + intros [= <- <-]. exists []. rewrite app_nil_r. do 4 (split; [done|]).
      split; [done|]. split; [by intros [|?] ? ?|].
      intros ? [= <-]. split; [done|]. split; [done|]. by intros [|?] ? ?.
  - intros [= <- <-]. exists []. rewrite app_nil_r. do 4 (split; [done|]).
    split; [done|]. split; [by intros [|?] ? ?|]. by intros ? [=].
Qed.

Lemma partition_media_batches_ok config media strategy batches :
  limits_configured config media →
  _partition_media config media strategy = Ok batches →
  Forall (batch_ok config) batches.
Proof.
  intros Hlim.
  pose (st0 := {| partitions := []; current_partition := [];
                  current_partition_type := None |}).
  destruct (partition_loop_inv config (reorder strategy media) [] st0)
    as (st & Hloop & Hps & Hcat & Hcur).
  { by repeat split. }
  { apply (limits_configured_perm _ media); [|done].
    rewrite reorder_strategy_order. apply strategy_order_perm. }
  unfold _partition_media. fold st0. rewrite Hloop. simpl.
  destruct (current_partition st) as [|first rest] eqn:Hlast; intros [= <-]; [done|].
  apply Forall_app. split; [done|]. constructor; [|done].
  destruct (current_partition_type st) as [k|]; [|by destruct Hcur].
  destruct Hcur as (Hne & Hkind & limit & Hlimit & Hlen).
  split; [done|]. by exists k, limit.
Qed.

Lemma built_job_shift base i job (k : nat) :
  built_job (base + Z.of_nat k) i job → built_job base (k + i) job.
Proof.
  intros (Hj & Hs & Hc & Hu & Hlinks). split; [lia|]. do 3 (split; [done|]).
  destruct Hlinks as [?|(r & Hr & Hp & Hrange)]; [by left|right].
  exists r. split; [done|]. split; [done|]. lia.
Qed.


End BuilderOutcomes.

(** ** Job texts *)

Section JobTexts.
Implicit Types (s t : string) (config : MigrationConfig).

Lemma string_length_app s t :
  String.length (s +:+ t) = (String.length s + String.length t)%nat.
Proof. induction s as [|c s IH]; simpl; [done|]. by rewrite IH. Qed.

Lemma string_length_substring n s :
  String.length (String.substring 0 n s) = Nat.min n (String.length s).
Proof.
  revert n. induction s as [|c s IH]; intros [|n]; simpl; try done. by rewrite IH.
Qed.

Lemma substring_all s : String.substring 0 (String.length s) s = s.
Proof. induction s as [|c s IH]; simpl; [done|]. by rewrite IH. Qed.

Lemma substring_suffix s t :
  String.substring (String.length s) (String.length t) (s +:+ t) = t.
Proof. induction s as [|c s IH]; simpl; [apply substring_all|done]. Qed.

Lemma endswith_app s t : endswith (s +:+ t) t = true.
Proof.
  unfold endswith. rewrite string_length_app.
  replace (String.length s + String.length t - String.length t)%nat
    with (String.length s) by lia.
  rewrite substring_suffix, String.eqb_refl, andb_true_r.
  apply Nat.leb_le. lia.
Qed.

Lemma count_chars_app s t :
  count_chars (s +:+ t) = (count_chars s + count_chars t)%nat.
Proof. induction s as [|c s IH]; simpl; [done|]. rewrite IH. lia. Qed.

Lemma count_chars_take k s :
  count_chars (take_chars k s) = Nat.min k (count_chars s).
Proof.
  revert k. induction s as [|c s IH]; intros k; simpl; [lia|].
  destruct (is_continuation c) eqn:Hc.
  - simpl. by rewrite Hc, IH.
  - destruct k as [|k]; simpl; [done|]. by rewrite Hc, IH.
Qed.

Lemma take_chars_all k s : (count_chars s ≤ k)%nat → take_chars k s = s.
Proof.
  revert k. induction s as [|c s IH]; intros k; simpl; [done|].
  destruct (is_continuation c); simpl; intros Hk.
  - by rewrite IH.
  - destruct k as [|k]; [lia|]. rewrite IH; [done|lia].
Qed.

Lemma post_text_raw config title index n :
  post_text config title index n
  = rbind (raw_post_text title index n)
      (λ raw,
         if post_text_limit config <? slen raw then
           Ok (slice_to raw (post_text_limit config - slen (post_text_truncate_suffix config))
               +:+ post_text_truncate_suffix config)
         else Ok raw).
Proof. reflexivity. Qed.

(** X9: when the truncation suffix is not longer than the text limit, the
    text of a job never exceeds the limit: a text within the limit is kept
    as it is, and a longer one is cut so that, with the suffix appended,
    it has exactly the length of the limit and ends with the suffix. *)
Theorem post_text_within_limit config title index n raw :
  raw_post_text title index n = Ok raw →
  slen (post_text_truncate_suffix config) ≤ post_text_limit config →
  ∃ t,
    post_text config title index n = Ok t ∧
    slen t ≤ post_text_limit config ∧
    (slen raw ≤ post_text_limit config → t = raw) ∧
    (post_text_limit config < slen raw →
       slen t = post_text_limit config ∧
       endswith t (post_text_truncate_suffix config) = true).
Proof.
  intros Hraw Hsuffix. rewrite post_text_raw, Hraw. simpl.
  destruct (post_text_limit config <? slen raw) eqn:Hlong.
  - apply Z.ltb_lt in Hlong. eexists. split; [done|].
    assert (slen (slice_to raw (post_text_limit config
                                - slen (post_text_truncate_suffix config))
                  +:+ post_text_truncate_suffix config)
            = post_text_limit config) as Hlen.
    { unfold slen, slice_to in *. rewrite count_chars_app, count_chars_take.
      unfold slen.
      destruct (_ <? 0) eqn:Hneg; [apply Z.ltb_lt in Hneg; lia|]. lia. }
    split; [lia|]. split; [lia|]. intros _. split; [done|]. apply endswith_app.
  - apply Z.ltb_ge in Hlong. exists raw. split; [done|]. split; [done|].
    split; [done|]. lia.
Qed.

End JobTexts.

(** ** The queue an import leaves *)

Section ImportOutcomes.
Context `{Environment}.
Implicit Types (config : MigrationConfig) (post : InstagramArchivePost).
Implicit Types (w : world) (jobs : list BlueSkyMigrationJob).

Lemma post_text_bounded config title index n t :
  slen (post_text_truncate_suffix config) ≤ post_text_limit config →
  post_text config title index n = Ok t →
  slen t ≤ post_text_limit config.
Proof.
  intros Hsuffix. rewrite post_text_raw.
  destruct (raw_post_text title index n) as [raw|e]; [simpl|done].
  destruct (post_text_limit config <? slen raw) eqn:Hlong.
  - apply Z.ltb_lt in Hlong. intros [= <-].
    unfold slen, slice_to in *. rewrite count_chars_app, count_chars_take.
    unfold slen. destruct (_ <? 0) eqn:Hneg; [apply Z.ltb_lt in Hneg; lia|]. lia.
  - apply Z.ltb_ge in Hlong. by intros [= <-].
Qed.

Lemma queue_post_legal config post a w res w' jobs :
  sane_limits config →
  queue_post config post a w = (res, w') →
  queue w' = queue w ++ jobs →
  ∀ job, job ∈ jobs → legal_job config job.
Proof.
  intros (Himg & (v & Hvid & Hv) & Hsuffix) Hrun Hq job Hin.
  destruct (queue_post_any config post a w res w' Hrun)
    as (jobs' & Hq' & _ & _ & _ & _ & _ & Hbatches).
  rewrite Hq in Hq'. apply app_inv_head in Hq' as <-.
  pose proof (limits_configured_all config (p_media post) v Himg Hvid Hv) as Hlim.
  destruct (_partition_media config (p_media post) (media_strategy config))
    as [batches|e] eqn:Hparts.
  - pose proof (partition_media_batches_ok _ _ _ _ Hlim Hparts) as Hok.
    destruct (Hbatches batches eq_refl) as (Hembed & _ & Htexts).
    apply list_elem_of_lookup in Hin as [i Hi]. split.
    + rewrite Forall_forall in Hok. apply Hok.
      apply (subseteq_take (length jobs)). rewrite <- Hembed.
      apply list_elem_of_fmap. exists job. split; [done|]. by eapply list_elem_of_lookup_2.
    + by apply (post_text_bounded config (p_title post) i (length batches)), Htexts.
  - revert Hrun. unfold queue_post. rewrite bind_run, lift_run, Hparts.
    intros [= _ Hw]. rewrite <- Hw in Hq.
    rewrite <- (app_nil_r (queue w)) in Hq at 1. apply app_inv_head in Hq as <-.
    by inv Hin.
Qed.

Lemma queue_loop_cons config index post rest :
  queue_loop config index (post :: rest)
  = (let ts := pyval_of_timestamp (p_creation_timestamp post) in
     before ← match min_date config with
              | None => mret false
              | Some d => lift (py_lt ts (PyDatetime d))
              end;
     if before : bool then
       lift (py_strftime ts);;
       emit (Warning (BeforeMinDate index));;
       queue_loop config (S index) rest
     else
       after ← match max_date config with
               | None => mret false
               | Some d => lift (py_gt ts (PyDatetime d))
               end;
       if after : bool then
         lift (py_strftime ts);;
         emit (Warning (AfterMaxDate index))
       else
         match p_media post with
         | [] =>
             emit (Warning (NoMedia index));;
             queue_loop config (S index) rest
         | _ :: _ =>
             queue_post config post (Z.of_nat index);;
             queue_loop config (S index) rest
         end).
Proof. reflexivity. Qed.

Section Loop.
Variable config : MigrationConfig.
Variable legal : BlueSkyMigrationJob → Prop.
Hypothesis queue_post_keeps :
  ∀ post a w res w' jobs,
    queue_post config post a w = (res, w') → queue w' = queue w ++ jobs →
    ∀ job, job ∈ jobs → legal job.

(** Every outcome of the second loop of [extract_posts_to_queue]. *)
Lemma queue_loop_any posts :
  ∀ index w res w',
  queue_loop config index posts w = (res, w') →
  ∃ jobs,
    queue w' = queue w ++ jobs ∧
    disk w' = saved jobs (disk w) ∧
    remote w' = remote w ∧
    (∀ i job, jobs !! i = Some job →
       built_job (len (queue w)) i job ∧ legal job ∧
       Z.of_nat index ≤ archive_index job < Z.of_nat (index + length posts)) ∧
    (∀ i j job1 job2, (i ≤ j)%nat → jobs !! i = Some job1 → jobs !! j = Some job2 →
       archive_index job1 ≤ archive_index job2).
Proof.
  induction posts as [|post posts IH]; intros index w res w'.
  - intros [= <- <-]. exists []. rewrite app_nil_r. do 3 (split; [done|]).
    split; [by intros [|?] ? ?|]. by intros [|?] ? ? ? ?.
  - rewrite queue_loop_cons. cbv zeta.
    set (ts := pyval_of_timestamp (p_creation_timestamp post)).
    match goal with
    | |- _ → ?G =>
        assert (Hstop : ∀ (r : result unit) w0,
                  queue w0 = queue w → disk w0 = disk w → remote w0 = remote w →
                  (r, w0) = (res, w') → G);
        [|assert (Hnext : ∀ w0,
                    queue w0 = queue w → disk w0 = disk w → remote w0 = remote w →
                    queue_loop config (S index) posts w0 = (res, w') → G);
          [|assert (Hmedia :
              (match p_media post with
               | [] => emit (Warning (NoMedia index));;
                       queue_loop config (S index) posts
               | _ :: _ =>
                   queue_post config post (Z.of_nat index);;
                   queue_loop config (S index) posts
               end) w = (res, w') → G)]]
    end.
    { intros r w0 Hq0 Hd0 Hr0 [= <- <-]. exists []. rewrite app_nil_r.
      do 3 (split; [done|]). split; [by intros [|?] ? ?|]. by intros [|?] ? ? ? ?. }
    { intros w0 Hq0 Hd0 Hr0 Hrun.
      destruct (IH (S index) w0 res w' Hrun) as (jobs & Hq & Hd & Hr & Hjobs & Hsorted).
      exists jobs. rewrite Hq0 in Hq, Hjobs. rewrite Hd0 in Hd. rewrite Hr0 in Hr.
      do 3 (split; [done|]). split; [|done].
      intros i job Hi. destruct (Hjobs i job Hi) as (Hb & Hl & Ha).
      split; [done|]. split; [done|]. simpl. lia. }
    { destruct (p_media post) as [|first others] eqn:Hmedia.
      { rewrite bind_run, emit_run. by apply Hnext. }
      rewrite bind_run.
      destruct (queue_post config post (Z.of_nat index) w) as [r1 w1] eqn:Hpost.
      destruct (queue_post_any config post _ w r1 w1 Hpost)
        as (jobs1 & Hq1 & Hd1 & Hr1 & _ & _ & Hjobs1 & _).
      pose proof (queue_post_keeps _ _ _ _ _ _ Hpost Hq1) as Hlegal1.
      assert (Hfirst : ∀ i job, jobs1 !! i = Some job →
                built_job (len (queue w)) i job ∧ legal job ∧
                archive_index job = Z.of_nat index).
      { intros i job Hi. destruct (Hjobs1 i job Hi) as (Hb & Ha & _).
        split; [done|]. split; [|done]. apply Hlegal1. by eapply list_elem_of_lookup_2. }
      destruct r1 as [[]|e].
      - intros Hrest.
        destruct (IH (S index) w1 res w' Hrest) as (jobs2 & Hq & Hd & Hr & Hjobs2 & Hsorted2).
        exists (jobs1 ++ jobs2).
        split; [by rewrite Hq, Hq1, app_assoc|].
        split; [by rewrite Hd, Hd1, saved_app|].
        split; [congruence|].
        assert (Hsecond : ∀ i job, jobs2 !! i = Some job →
                  built_job (len (queue w)) (length jobs1 + i) job ∧ legal job ∧
                  Z.of_nat (S index) ≤ archive_index job
                  < Z.of_nat (index + S (length posts))).
        { intros i job Hi. destruct (Hjobs2 i job Hi) as (Hb & Hl & Ha).
          split; [|split; [done|lia]].
          apply built_job_shift. rewrite Hq1 in Hb. unfold len in *.
          by rewrite length_app, Nat2Z.inj_add in Hb. }
        split.
        + intros i job Hi. simpl. apply lookup_app_Some in Hi as [Hi|[Hge Hi]].
          * destruct (Hfirst i job Hi) as (Hb & Hl & Ha). split; [done|]. split; [done|]. lia.
          * destruct (Hsecond _ job Hi) as (Hb & Hl & Ha).
            replace (length jobs1 + (i - length jobs1))%nat with i in Hb by lia.
            split; [done|]. split; [done|]. lia.
        + intros i j job1 job2 Hij Hi Hj.
          apply lookup_app_Some in Hi as [Hi|[Hgei Hi]];
            apply lookup_app_Some in Hj as [Hj|[Hgej Hj]].
          * destruct (Hfirst _ _ Hi) as (_ & _ & ->).
            destruct (Hfirst _ _ Hj) as (_ & _ & ->). done.
          * destruct (Hfirst _ _ Hi) as (_ & _ & ->).
            destruct (Hsecond _ _ Hj) as (_ & _ & Ha). lia.
          * apply lookup_lt_Some in Hj. lia.
          * apply (Hsorted2 (i - length jobs1)%nat (j - length jobs1)%nat); [lia|done..].
      - intros [= <- <-]. exists jobs1. do 3 (split; [done|]). split.
        + intros i job Hi. destruct (Hfirst i job Hi) as (Hb & Hl & Ha).
          split; [done|]. split; [done|]. simpl. lia.
        + intros i j job1 job2 _ Hi Hj.
          destruct (Hfirst _ _ Hi) as (_ & _ & ->).
          destruct (Hfirst _ _ Hj) as (_ & _ & ->). done. }
    match goal with
    | |- (_ ≫= ?k) w = _ → ?G =>
        assert (Hafter : k false w = (res, w') → G)
    end.
    { cbv beta iota. rewrite bind_run.
      destruct (max_date config) as [d|]; [|by rewrite ret_run].
      rewrite lift_run. destruct (py_gt ts (PyDatetime d)) as [[]|e]; [|done|by apply Hstop].
      rewrite bind_run, lift_run.
      destruct (py_strftime ts) as [txt|e]; [|by apply Hstop].
      rewrite emit_run. by apply Hstop. }
    rewrite bind_run.
    destruct (min_date config) as [d|]; [|rewrite ret_run; exact Hafter].
    rewrite lift_run.
    destruct (py_lt ts (PyDatetime d)) as [[]|e]; [|exact Hafter|by apply Hstop].
    rewrite bind_run, lift_run.
    destruct (py_strftime ts) as [txt|e]; [|by apply Hstop].
    rewrite bind_run, emit_run. by apply Hnext.
Qed.

End Loop.


Lemma sort_posts_length posts sorted :
  sort_posts posts = Ok sorted → length sorted = length posts.
Proof.
  unfold sort_posts. destruct (_ || _); [|done]. intros [= <-].
  by rewrite (sorted_by_perm timestamp_key posts).
Qed.

(** Every outcome of [extract_posts_to_queue], for a property that
    [queue_post] gives to the jobs it appends. *)
Lemma extract_any config (legal : BlueSkyMigrationJob → Prop) insta_posts w res w' :
  (∀ post a w res w' jobs,
     queue_post config post a w = (res, w') → queue w' = queue w ++ jobs →
     ∀ job, job ∈ jobs → legal job) →
  extract_posts_to_queue config insta_posts w = (res, w') →
  ∃ jobs,
    queue w' = queue w ++ jobs ∧
    disk w' = saved jobs (disk w) ∧
    (∀ i job, jobs !! i = Some job →
       built_job (len (queue w)) i job ∧ legal job ∧
       0 ≤ archive_index job < len insta_posts) ∧
    (∀ i j job1 job2, (i ≤ j)%nat → jobs !! i = Some job1 → jobs !! j = Some job2 →
       archive_index job1 ≤ archive_index job2).
Proof.
  intros Hlegal. unfold extract_posts_to_queue. rewrite bind_run.
  destruct (normalize_loop 0 insta_posts w) as [[posts|e] w1] eqn:Hnorm;
    apply normalize_loop_frame in Hnorm as (Hq1 & Hd1 & Hlen).
  - specialize (Hlen posts eq_refl). rewrite bind_run, lift_run.
    destruct (sort_posts posts) as [sorted|e] eqn:Hsort.
    + apply sort_posts_length in Hsort. intros Hloop.
      destruct (queue_loop_any config legal Hlegal sorted 0 w1 res w' Hloop)
        as (jobs & Hq & Hd & _ & Hjobs & Hsorted).
      exists jobs. rewrite Hq1 in Hq, Hjobs. rewrite Hd1 in Hd.
      do 2 (split; [done|]). split; [|done].
      intros i job Hi. destruct (Hjobs i job Hi) as (Hb & Hl & Ha).
      split; [done|]. split; [done|]. unfold len. simpl in Ha. lia.
    + intros [= <- <-]. exists []. rewrite app_nil_r. do 2 (split; [done|]).
      split; [by intros [|?] ? ?|]. by intros [|?] ? ? ? ?.
  - intros [= <- <-]. exists []. rewrite app_nil_r. do 2 (split; [done|]).
    split; [by intros [|?] ? ?|]. by intros [|?] ? ? ? ?.
Qed.


(** X11: when both per-kind limits are configured and at least one and
    the truncation suffix fits in the text limit, every job that
    [extract_posts_to_queue] appends, whatever its outcome, has a
    non-empty batch of media of a single kind within that kind's limit and
    a text within the text limit. *)
Theorem import_appends_legal_jobs config insta_posts w res w' :
  sane_limits config →
  extract_posts_to_queue config insta_posts w = (res, w') →
  ∃ jobs,
    queue w' = queue w ++ jobs ∧
    ∀ job, job ∈ jobs → legal_job config job.
Proof.
  intros Hsane Hrun.
  destruct (extract_any config (legal_job config) insta_posts w res w') as
    (jobs & Hq & _ & Hjobs & _); [|done|].
  { intros post a w0 res0 w0' jobs0. by apply queue_post_legal. }
  exists jobs. split; [done|]. intros job Hin.
  apply list_elem_of_lookup in Hin as [i Hi]. by destruct (Hjobs i job Hi) as (_ & Hl & _).
Qed.


End ImportOutcomes.

(** ** Greedy batches *)

Section Greedy.
Implicit Types (config : MigrationConfig) (media : list InstagramArchiveMedia).
Implicit Types (st : partition_state) (entry : InstagramArchiveMedia).
Implicit Types (batch : list InstagramArchiveMedia).
Implicit Types (batches : list (list InstagramArchiveMedia)).

Lemma greedy_snoc_same config batches batch batch' :
  batch_kind batch' = batch_kind batch →
  greedy config (batches ++ [batch]) → greedy config (batches ++ [batch']).
Proof.
  intros Hkind. induction batches as [|first batches IH]; simpl; [done|].
  destruct batches as [|second batches]; simpl in *.
  - intros [Hfull _]. split; [|done]. by rewrite Hkind.
  - intros [Hfull Hrest]. split; [done|]. by apply IH.
Qed.

Lemma greedy_snoc_new config batches batch batch' :
  (batch_kind batch = batch_kind batch' → full_batch config batch) →
  greedy config (batches ++ [batch]) →
  greedy config ((batches ++ [batch]) ++ [batch']).
Proof.
  intros Hfull. induction batches as [|first batches IH]; simpl; [done|].
  destruct batches as [|second batches]; simpl in *.
  - intros [Hfirst _]. done.
  - intros [Hfirst Hrest]. split; [done|]. by apply IH.
Qed.

Lemma greedy_lookup config batches i batch1 batch2 :
  greedy config batches →
  batches !! i = Some batch1 → batches !! S i = Some batch2 →
  batch_kind batch1 = batch_kind batch2 → full_batch config batch1.
Proof.
  revert i. induction batches as [|first batches IH]; intros i Hgreedy; [done|].
  destruct batches as [|second batches]; [by destruct i|].
  destruct Hgreedy as [Hfirst Hrest]. destruct i as [|i]; simpl.
  - intros [= <-] [= <-]. done.
  - intros H1 H2. by apply (IH i).
Qed.

Lemma batch_kind_all batch k :
  batch ≠ [] → Forall (λ entry, kind_of entry = k) batch → batch_kind batch = Some k.
Proof.
  intros Hne Hall. destruct batch as [|first rest]; [done|].
  apply Forall_cons_1 in Hall as [<- _]. done.
Qed.

Lemma partition_step_greedy config seen st entry st' :
  partition_inv config seen st →
  (∃ limit, limit_of config (kind_of entry) = Some limit ∧ 1 ≤ limit) →
  greedy config (partitions st ++ [current_partition st]) →
  partition_step config st entry = Ok st' →
  greedy config (partitions st' ++ [current_partition st']).
Proof.
  intros (Hps & Hcat & Hcur) (limit & Hlimit & Hpos) Hgreedy.
  unfold partition_step, kind_of in *.
  destruct (current_partition_type st) as [k|] eqn:Hty.
  - destruct Hcur as (Hne & Hkind & limit' & Hlimit' & Hlen).
    pose proof (batch_kind_all _ _ Hne Hkind) as Hbk.
    assert (Hsame : batch_kind (current_partition st ++ [entry])
                    = batch_kind (current_partition st))
      by (by destruct (current_partition st)).
    assert (Hswitch : ∀ k', k' ≠ k →
              greedy config ((partitions st ++ [current_partition st])
                             ++ [[entry]]) ∨ kind_of entry ≠ k').
    { intros k' Hk'. destruct (decide (kind_of entry = k')) as [He|He]; [left|by right].
      apply greedy_snoc_new; [|done]. rewrite Hbk. simpl. intros [= Heq]. congruence. }
    destruct k, (is_mp4 entry) eqn:Hmp4; simpl in *.
    + unfold get_max_videos_per_post. rewrite Hlimit. simpl.
      assert (limit' = limit) as -> by congruence.
      destruct (len (current_partition st) <? limit) eqn:Hlt; intros [= <-]; simpl.
      * by apply (greedy_snoc_same _ _ (current_partition st)).
      * apply Z.ltb_ge in Hlt. apply greedy_snoc_new; [|done].
        intros _. exists video. split; [done|]. simpl. rewrite Hlimit. f_equal. lia.
    + intros [= <-]; simpl.
      destruct (Hswitch image) as [?|Hk]; [done|done|].
      unfold kind_of in Hk. by rewrite Hmp4 in Hk.
    + intros [= <-]; simpl.
      destruct (Hswitch video) as [?|Hk]; [done|done|].
      unfold kind_of in Hk. by rewrite Hmp4 in Hk.
    + assert (limit' = limit) as -> by congruence.
      assert (max_images_per_post config = limit) as Himg by congruence.
      rewrite Himg in *.
      destruct (len (current_partition st) <? limit) eqn:Hlt; intros [= <-]; simpl.
      * by apply (greedy_snoc_same _ _ (current_partition st)).
      * apply Z.ltb_ge in Hlt. apply greedy_snoc_new; [|done].
        intros _. exists image. split; [done|]. simpl. rewrite Himg. f_equal. lia.
  - destruct Hcur as (Hps0 & Hcur0). rewrite Hps0, Hcur0 in *.
    destruct (is_mp4 entry) eqn:Hmp4; simpl in *.
    + unfold get_max_videos_per_post. rewrite Hlimit. simpl.
      assert ((len (@nil InstagramArchiveMedia) <? limit) = true) as ->
        by (apply Z.ltb_lt; unfold len; simpl; lia).
      by intros [= <-].
    + assert (max_images_per_post config = limit) as -> by congruence.
      assert ((len (@nil InstagramArchiveMedia) <? limit) = true) as ->
        by (apply Z.ltb_lt; unfold len; simpl; lia).
      by intros [= <-].
Qed.

Lemma partition_loop_greedy config media :
  ∀ seen st st',
  partition_inv config seen st →
  limits_configured config media →
  greedy config (partitions st ++ [current_partition st]) →
  partition_loop config st media = Ok st' →
  partition_inv config (seen ++ media) st' ∧
  greedy config (partitions st' ++ [current_partition st']).
Proof.
  induction media as [|entry media IH]; intros seen st st' Hinv Hlim Hgreedy; simpl.
  - intros [= <-]. by rewrite app_nil_r.
  - assert (∃ limit, limit_of config (kind_of entry) = Some limit ∧ 1 ≤ limit) as Hentry
      by (apply Hlim; by left).
    destruct (partition_step_inv config seen st entry Hinv Hentry) as (st1 & Hstep & Hinv1).
    rewrite Hstep. simpl. intros Hloop.
    replace (seen ++ entry :: media) with ((seen ++ [entry]) ++ media)
      by (by rewrite <- app_assoc).
    apply (IH _ st1); try done.
    + intros e He. apply Hlim. by right.
    + by apply (partition_step_greedy config seen st entry).
Qed.

(** The batches of a run with configured limits: well formed, in the
    order of the strategy, and greedy. *)
Lemma partition_media_greedy config media strategy batches :
  limits_configured config media →
  _partition_media config media strategy = Ok batches →
  Forall (batch_ok config) batches ∧
  concat batches = strategy_order strategy media ∧
  greedy config batches.
Proof.
  intros Hlim.
  pose (st0 := {| partitions := []; current_partition := [];
                  current_partition_type := None |}).
  unfold _partition_media. fold st0.
  destruct (partition_loop config st0 (reorder strategy media)) as [st|e] eqn:Hloop; [|done].
  destruct (partition_loop_greedy config (reorder strategy media) [] st0 st)
    as ((Hps & Hcat & Hcur) & Hgreedy); [by repeat split| |done|done|].
  { apply (limits_configured_perm _ media); [|done].
    rewrite reorder_strategy_order. apply strategy_order_perm. }
  simpl in Hcat. rewrite reorder_strategy_order in Hcat. simpl.
  destruct (current_partition st) as [|first rest] eqn:Hlast; intros [= <-].
  - destruct (current_partition_type st) as [k|]; [by destruct Hcur|].
    destruct Hcur as [Hps0 _]. rewrite app_nil_r in Hcat. by rewrite Hps0 in *.
  - rewrite concat_snoc. split; [|done].
    apply Forall_app. split; [done|]. constructor; [|done].
    destruct (current_partition_type st) as [k|]; [|by destruct Hcur].
    destruct Hcur as (Hne & Hkind & limit & Hlimit & Hlen).
    split; [done|]. by exists k, limit.
Qed.

(** X13: the partitioner is greedy.  With a limit of at least one
    configured for each kind in the list, a batch that is followed by a
    batch of the same kind holds exactly as many items as the limit of
    that kind: a batch is closed only when it is full or the kind changes. *)
Theorem partition_media_closes_only_full_batches config media strategy batches :
  limits_configured config media →
  _partition_media config media strategy = Ok batches →
  ∀ i batch1 batch2 first second,
    batches !! i = Some batch1 → batches !! S i = Some batch2 →
    head batch1 = Some first → head batch2 = Some second →
    kind_of first = kind_of second →
    limit_of config (kind_of first) = Some (len batch1).
Proof.
  intros Hlim Hrun i batch1 batch2 first second H1 H2 Hf Hs Hkind.
  destruct (partition_media_greedy config media strategy batches Hlim Hrun)
    as (_ & _ & Hgreedy).
  destruct (greedy_lookup config batches i batch1 batch2 Hgreedy H1 H2) as (k & Hk & Hfull).
  { unfold batch_kind. rewrite Hf, Hs. simpl. by rewrite Hkind. }
  unfold batch_kind in Hk. rewrite Hf in Hk. simpl in Hk. by injection Hk as ->.
Qed.

Lemma partition_media_returns config media strategy :
  limits_configured config media →
  ∃ batches, _partition_media config media strategy = Ok batches.
Proof.
  intros Hlim.
  pose (st0 := {| partitions := []; current_partition := [];
                  current_partition_type := None |}).
  destruct (partition_loop_inv config (reorder strategy media) [] st0)
    as (st & Hloop & _).
  { by repeat split. }
  { apply (limits_configured_perm _ media); [|done].
    rewrite reorder_strategy_order. apply strategy_order_perm. }
  unfold _partition_media. fold st0. rewrite Hloop. simpl.
  destruct (current_partition st); by eexists.
Qed.

Lemma filter_none {A} (f : A → bool) (l : list A) :
  Forall (λ x, f x = false) l → List.filter f l = [].
Proof. induction 1 as [|x l Hx _ IH]; simpl; [done|]. by rewrite Hx. Qed.

Lemma filter_all {A} (f : A → bool) (l : list A) :
  Forall (λ x, f x = true) l → List.filter f l = l.
Proof. induction 1 as [|x l Hx _ IH]; simpl; [done|]. by rewrite Hx, IH. Qed.

Lemma strategy_order_single_kind strategy media k :
  Forall (λ entry, kind_of entry = k) media → strategy_order strategy media = media.
Proof.
  intros Hkind. destruct strategy as [[]|]; simpl; try done.
  destruct k.
  - rewrite (filter_none (λ e, negb (is_mp4 e))), (filter_all is_mp4); [done| |].
    + eapply Forall_impl; [done|]. intros e. unfold kind_of. by destruct (is_mp4 e).
    + eapply Forall_impl; [done|]. intros e. unfold kind_of. by destruct (is_mp4 e).
  - rewrite (filter_all (λ e, negb (is_mp4 e))), (filter_none is_mp4);
      [by rewrite app_nil_r| |].
    + eapply Forall_impl; [done|]. intros e. unfold kind_of. by destruct (is_mp4 e).
    + eapply Forall_impl; [done|]. intros e. unfold kind_of. by destruct (is_mp4 e).
Qed.

(** X14: a list of media of a single kind is cut into runs of the limit of
    that kind.  With a limit of at least one, [_partition_media] returns
    batches whose concatenation is the list itself, every batch but the
    last holds exactly the limit, the last holds between one item and the
    limit; so a list that fits in the limit gives a single batch, the list
    itself. *)
Theorem partition_media_single_kind config media strategy k limit :
  media ≠ [] →
  Forall (λ entry, kind_of entry = k) media →
  limit_of config k = Some limit → 1 ≤ limit →
  ∃ batches,
    _partition_media config media strategy = Ok batches ∧
    concat batches = media ∧
    (∀ i batch, batches !! i = Some batch → (S i < length batches)%nat →
       len batch = limit) ∧
    (∀ batch, batch ∈ batches → 1 ≤ len batch ≤ limit) ∧
    (len media ≤ limit → batches = [media]).
Proof.
  intros Hne Hkind Hlimit Hpos.
  assert (limits_configured config media) as Hlim.
  { intros entry Hin. rewrite Forall_forall in Hkind. rewrite (Hkind _ Hin). eauto. }
  destruct (partition_media_returns config media strategy Hlim) as [batches Hrun].
  destruct (partition_media_greedy config media strategy batches Hlim Hrun)
    as (Hok & Hconcat & Hgreedy).
  rewrite (strategy_order_single_kind _ _ k Hkind) in Hconcat.
  assert (Hkinds : ∀ batch, batch ∈ batches →
            batch_kind batch = Some k ∧ 1 ≤ len batch ≤ limit).
  { intros batch Hin. rewrite Forall_forall in Hok.
    destruct (Hok batch Hin) as (Hbne & k' & limit' & Hall & Hlimit' & Hlen).
    assert (k' = k) as ->.
    { destruct batch as [|first rest]; [done|].
      apply Forall_cons_1 in Hall as [<- _]. rewrite Forall_forall in Hkind.
      apply Hkind. rewrite <- Hconcat. apply list_elem_of_In, in_concat.
      exists (first :: rest). split; apply list_elem_of_In; [done|by left]. }
    split; [by apply batch_kind_all|].
    assert (limit' = limit) as -> by congruence.
    split; [|done]. unfold len. destruct batch; [done|simpl; lia]. }
  assert (Hfull : ∀ i batch, batches !! i = Some batch → (S i < length batches)%nat →
            len batch = limit).
  { intros i batch Hi Hnext.
    destruct (lookup_lt_is_Some_2 batches (S i) Hnext) as [batch2 Hi2].
    destruct (greedy_lookup config batches i batch batch2 Hgreedy Hi Hi2)
      as (k' & Hk' & Hlen).
    - destruct (Hkinds batch) as [-> _]; [by eapply list_elem_of_lookup_2|].
      destruct (Hkinds batch2) as [-> _]; [by eapply list_elem_of_lookup_2|]. done.
    - destruct (Hkinds batch) as [Hk _]; [by eapply list_elem_of_lookup_2|].
      rewrite Hk in Hk'. injection Hk' as <-. congruence. }
  exists batches. split; [done|]. split; [done|]. split; [done|].
  split; [intros batch Hin; by apply Hkinds|].
  intros Hfits. destruct batches as [|batch1 [|batch2 rest]].
  - simpl in Hconcat. by subst media.
  - simpl in Hconcat. rewrite app_nil_r in Hconcat. by subst.
  - exfalso. pose proof (Hfull 0%nat batch1 eq_refl) as H1.
    destruct (Hkinds batch2) as [_ H2]; [by right; left|].
    rewrite <- Hconcat in Hfits. simpl in *. unfold len in *.
    rewrite !length_app in Hfits. lia.
Qed.

End Greedy.

(** ** The command line *)

Section CommandLine.
Context `{Environment}.
Implicit Types (args : Args) (w : world) (job : BlueSkyMigrationJob).

Lemma open_queue_same w files :
  in_sync w → is_listing files w → open_queue files w = (Ok tt, w).
Proof.
  intros [Hdense Hdisk] Hlist. unfold open_queue. rewrite load_sorts. simpl.
  assert (sorted_by job_index (files) = queue w) as Hsame.
  { pose proof (dense_increasing _ Hdense) as Hinc.
    apply sorted_by_increasing; [done|].
    unfold is_listing in Hlist. rewrite Hlist, Hdisk, saved_listing.
    - by rewrite map_to_list_empty.
    - by apply increasing_NoDup.
    - done. }
  rewrite Hsame. by destruct w.
Qed.

Lemma main_migrate args loaded insta_posts environ_password typed_password files w :
  command args = Migrate → in_sync w → is_listing files w →
  main args loaded insta_posts environ_password typed_password files w
  = (outcome_of
       (post_picked (migration_engine args loaded environ_password typed_password)
          (pick args) w).1,
     (post_picked (migration_engine args loaded environ_password typed_password)
        (pick args) w).2).
Proof.
  intros Hcommand Hsync Hlist. unfold main. rewrite Hcommand. simpl.
  rewrite bind_run, (open_queue_same w files Hsync Hlist).
  fold (migration_engine args loaded environ_password typed_password).
  by destruct (post_picked _ _ w).
Qed.

(** X15: [main] tests the picked index for truth, so a pick of zero is no
    pick: over a directory in sync with the queue [w] holds, the migrate
    command with [--pick 0] is the full run of [post] over the whole
    queue, as it is without [--pick], while with any other index the jobs
    of every other archive index are loaded and left as they are. *)
Theorem main_pick_zero_is_full_run args loaded insta_posts environ_password
    typed_password files w :
  command args = Migrate → in_sync w → is_listing files w →
  main (with_pick (Some 0) args) loaded insta_posts environ_password typed_password files w
  = (outcome_of
       (post (migration_engine args loaded environ_password typed_password) None w).1,
     (post (migration_engine args loaded environ_password typed_password) None w).2) ∧
  main (with_pick None args) loaded insta_posts environ_password typed_password files w
  = (outcome_of
       (post (migration_engine args loaded environ_password typed_password) None w).1,
     (post (migration_engine args loaded environ_password typed_password) None w).2) ∧
  (∀ v out w',
     v ≠ 0 →
     main (with_pick (Some v) args) loaded insta_posts environ_password typed_password
       files w = (out, w') →
     ∀ i job, queue w !! i = Some job → archive_index job ≠ v →
       queue w' !! i = Some job).
Proof.
  intros Hcommand Hsync Hlist. split; [|split].
  - by rewrite (main_migrate (with_pick (Some 0) args) _ _ _ _ _ _ Hcommand Hsync Hlist).
  - by rewrite (main_migrate (with_pick None args) _ _ _ _ _ _ Hcommand Hsync Hlist).
  - intros v out w' Hv.
    rewrite (main_migrate (with_pick (Some v) args) _ _ _ _ _ _ Hcommand Hsync Hlist).
    simpl. assert ((v =? 0) = false) as -> by lia.
    set (self := migration_engine (with_pick (Some v) args) loaded environ_password
                   typed_password).
    destruct (post self (Some v) w) as [r w1] eqn:Hpost. simpl. intros [= _ <-].
    revert Hpost. unfold post. rewrite bind_run.
    destruct (login_outcome self w) as (res0 & w0 & -> & Hq & _).
    destruct res0 as [[]|e]; [|intros [= _ <-]; by rewrite Hq].
    rewrite bind_run. unfold get_queue. intros Hloop i job Hjob Hother.
    destruct (post_only_loop self v (length (queue w0)) 0 w0 r w1 eq_refl Hloop)
      as (_ & Hkeep & _).
    apply Hkeep; [by rewrite Hq|auto].
Qed.

(** X16: the simulate command never builds its engine, and no other
    command fails that way.  [main] binds the password only for a run
    that is not simulated and then passes it to the engine: a run of
    [main] ends in [UnboundLocalError] exactly when the command is
    simulate, for every configuration, archive, environment and directory,
    and then nothing was read, written or sent. *)
Theorem main_simulate_is_unbound args loaded insta_posts environ_password
    typed_password files w out w' :
  main args loaded insta_posts environ_password typed_password files w = (out, w') →
  (out = UnboundLocal ↔ command args = Simulate) ∧
  (command args = Simulate → w' = w).
Proof.
  unfold main. destruct (command args); simpl.
  - destruct (extract_posts_to_queue _ _ _) as [[[]|e] w1]; intros [= <- <-]; by split.
  - destruct ((open_queue files;; post_picked _ (pick args)) w) as [[[]|e] w1];
      intros [= <- <-]; by split.
  - intros [= <- <-]. by split.
Qed.


End CommandLine.

(** ** A complete import *)

Section ImportCompletes.
Context `{Environment}.
Implicit Types (config : MigrationConfig) (post : InstagramArchivePost) (w : world).

Lemma normalize_post_ok index post w :
  importable post →
  ∃ post', normalize_post index post w = (Ok post', w) ∧ normalized post post'.
Proof.
  intros ((t & dt & Hts & Hdt) & title & Htitle). unfold normalize_post.
  rewrite Hts, bind_run, ret_run, bind_run, lift_run, Htitle, bind_run, lift_run, Hdt.
  eexists. split; [done|]. unfold normalized. simpl.
  split; [done|]. split; [done|]. split; [by eexists|]. by exists t, dt.
Qed.

Lemma normalize_loop_ok posts :
  ∀ index w,
  Forall importable posts →
  ∃ posts', normalize_loop index posts w = (Ok posts', w) ∧ Forall2 normalized posts posts'.
Proof.
  induction posts as [|post posts IH]; intros index w Hall; simpl.
  - exists []. by split.
  - apply Forall_cons in Hall as [Hpost Hall].
    destruct (normalize_post_ok index post w Hpost) as (post' & Hrun & Hnorm).
    destruct (IH (S index) w Hall) as (posts' & Hrest & Hall').
    exists (post' :: posts'). rewrite bind_run, Hrun, bind_run, Hrest.
    split; [done|]. by constructor.
Qed.

Lemma insert_by_Forall2 {A B} (R : A → B → Prop) (key : A → Z) (key' : B → Z) x x' l l' :
  (∀ a b, R a b → key a = key' b) →
  R x x' → Forall2 R l l' →
  Forall2 R (insert_by key x l) (insert_by key' x' l').
Proof.
  intros Hkey Hx Hall. induction Hall as [|y y' l l' Hy Hall IH]; simpl.
  - by repeat constructor.
  - rewrite (Hkey _ _ Hx), (Hkey _ _ Hy).
    destruct (key' x' <=? key' y'); by repeat constructor.
Qed.

Lemma sorted_by_Forall2 {A B} (R : A → B → Prop) (key : A → Z) (key' : B → Z) l l' :
  (∀ a b, R a b → key a = key' b) →
  Forall2 R l l' → Forall2 R (sorted_by key l) (sorted_by key' l').
Proof.
  intros Hkey Hall. induction Hall; simpl; [constructor|]. by apply insert_by_Forall2.
Qed.

Lemma sort_posts_dated posts :
  Forall (λ post, is_Some (p_creation_timestamp post)) posts →
  sort_posts posts = Ok (sorted_by timestamp_key posts).
Proof.
  intros Hall. unfold sort_posts.
  assert (forallb (λ p, bool_decide (is_Some (p_creation_timestamp p))) posts = true) as ->.
  { apply forallb_forall. intros post Hin. apply bool_decide_eq_true_2.
    rewrite Forall_forall in Hall. apply Hall. by apply list_elem_of_In. }
  by rewrite orb_true_r.
Qed.

Lemma post_text_returns config title index n :
  ∃ txt, post_text config (Some title) index n = Ok txt.
Proof.
  unfold post_text. destruct (1 <? n)%nat; simpl; destruct (_ <? _); by eexists.
Qed.

Lemma queue_partitions_returns config post a n rest :
  is_Some (p_title post) →
  (∃ t dt, p_creation_timestamp post = Some t ∧ fromtimestamp t = Ok dt) →
  (∀ t, ∃ built, build_rich_text t = Ok built) →
  ∀ index thread_start reply_to w,
  ∃ w', queue_partitions config post a n index thread_start reply_to rest w = (Ok tt, w').
Proof.
  intros [title Htitle] (t & dt & Hts & Hdt) Hbuild.
  induction rest as [|partition rest IH]; intros index thread_start reply_to w; simpl.
  - by eexists.
  - rewrite bind_run, lift_run, Htitle.
    destruct (post_text_returns config title index n) as [txt ->].
    rewrite bind_run, lift_run. destruct (Hbuild txt) as [built ->].
    rewrite bind_run. unfold get_queue at 1. rewrite Hts.
    rewrite bind_run, bind_run, lift_run, Hdt, ret_run.
    rewrite bind_run. unfold append, save. rewrite !bind_run. unfold get_queue, set_queue.
    simpl. apply IH.
Qed.

Lemma partition_media_concat config media strategy :
  limits_configured config media →
  ∃ batches,
    _partition_media config media strategy = Ok batches ∧
    concat batches = strategy_order strategy media ∧
    (media ≠ [] → batches ≠ []).
Proof.
  intros Hlim.
  pose (st0 := {| partitions := []; current_partition := [];
                  current_partition_type := None |}).
  destruct (partition_loop_inv config (reorder strategy media) [] st0)
    as (st & Hloop & Hps & Hcat & Hcur).
  { by repeat split. }
  { apply (limits_configured_perm _ media); [|done].
    rewrite reorder_strategy_order. apply strategy_order_perm. }
  simpl in Hcat. rewrite reorder_strategy_order in Hcat.
  assert (∃ batches,
            _partition_media config media strategy = Ok batches ∧
            concat batches = strategy_order strategy media)
    as (batches & Hrun & Hconcat).
  { unfold _partition_media. fold st0. rewrite Hloop. simpl.
    destruct (current_partition st) as [|first rest] eqn:Hlast.
    - eexists. split; [done|]. by rewrite app_nil_r in Hcat.
    - eexists. split; [done|]. by rewrite concat_snoc. }
  exists batches. split; [done|]. split; [done|].
  intros Hne ->. simpl in Hconcat.
  pose proof (strategy_order_perm strategy media) as Hperm.
  rewrite <- Hconcat in Hperm. by apply Permutation_nil in Hperm.
Qed.

Lemma queue_post_returns config post a w :
  limits_configured config (p_media post) →
  p_media post ≠ [] →
  is_Some (p_title post) →
  (∃ t dt, p_creation_timestamp post = Some t ∧ fromtimestamp t = Ok dt) →
  (∀ t, ∃ built, build_rich_text t = Ok built) →
  ∃ w' jobs,
    queue_post config post a w = (Ok tt, w') ∧
    queue w' = queue w ++ jobs ∧
    concat (embed <$> jobs) = strategy_order (media_strategy config) (p_media post).
Proof.
  intros Hlim Hne Htitle Hdated Hbuild.
  destruct (partition_media_concat config (p_media post) (media_strategy config) Hlim)
    as (batches & Hparts & Hconcat & Hnonempty).
  assert (∃ w', queue_post config post a w = (Ok tt, w')) as [w' Hrun].
  { unfold queue_post. rewrite bind_run, lift_run, Hparts.
    rewrite bool_decide_eq_true_2.
    - by apply queue_partitions_returns.
    - specialize (Hnonempty Hne). destruct batches; [done|]. unfold len. simpl. lia. }
  destruct (queue_post_any config post a w (Ok tt) w' Hrun)
    as (jobs & Hq & _ & _ & _ & _ & _ & Hbatches).
  destruct (Hbatches batches Hparts) as (Hembed & Hlen & _).
  exists w', jobs. split; [done|]. split; [done|].
  by rewrite Hembed, Hlen, firstn_all.
Qed.

Lemma strategy_order_nil strategy : strategy_order strategy [] = [].
Proof. by destruct strategy as [[]|]. Qed.

Lemma queue_loop_returns config posts :
  min_date config = None → max_date config = None →
  sane_limits config →
  (∀ t, ∃ built, build_rich_text t = Ok built) →
  ∀ index w,
  Forall (λ post, is_Some (p_title post) ∧
                  ∃ t dt, p_creation_timestamp post = Some t ∧ fromtimestamp t = Ok dt)
    posts →
  ∃ w' jobs,
    queue_loop config index posts w = (Ok tt, w') ∧
    queue w' = queue w ++ jobs ∧
    concat (embed <$> jobs)
    = concat ((λ post, strategy_order (media_strategy config) (p_media post)) <$> posts).
Proof.
  intros Hmin Hmax (Himg & (v & Hvid & Hv) & _) Hbuild.
  induction posts as [|post posts IH]; intros index w Hall.
  - exists w, []. by rewrite app_nil_r.
  - apply Forall_cons in Hall as [[Htitle Hdated] Hall].
    rewrite queue_loop_cons. cbv zeta. rewrite Hmin, Hmax.
    rewrite bind_run, ret_run, bind_run, ret_run.
    destruct (p_media post) as [|entry media] eqn:Hmedia.
    + rewrite bind_run, emit_run.
      destruct (IH (S index)
                  {| queue := queue w; disk := disk w; remote := remote w;
                     trace := trace w ++ [Warning (NoMedia index)] |} Hall)
        as (w' & jobs & -> & Hq & Hcat).
      exists w', jobs. split; [done|]. split; [done|].
      by rewrite fmap_cons, Hmedia, strategy_order_nil.
    + rewrite bind_run.
      destruct (queue_post_returns config post (Z.of_nat index) w)
        as (w1 & jobs1 & -> & Hq1 & Hcat1); [|by rewrite Hmedia|done|done|done|].
      { by apply (limits_configured_all config _ v). }
      destruct (IH (S index) w1 Hall) as (w' & jobs & -> & Hq & Hcat).
      exists w', (jobs1 ++ jobs). split; [done|].
      split; [by rewrite Hq, Hq1, app_assoc|].
      by rewrite fmap_app, concat_app, Hcat1, Hcat, fmap_cons.
Qed.

Lemma concat_fmap_perm {A B} (f g : A → list B) (l : list A) :
  (∀ x, f x ≡ₚ g x) → concat (f <$> l) ≡ₚ concat (g <$> l).
Proof.
  intros Hfg. induction l as [|x l IH]; simpl; [done|]. by rewrite IH, Hfg.
Qed.

Lemma concat_perm {A} (l l' : list (list A)) : l ≡ₚ l' → concat l ≡ₚ concat l'.
Proof.
  induction 1 as [|x l l' _ IH|x y l|l1 l2 l3 _ IH1 _ IH2]; simpl.
  - done.
  - by rewrite IH.
  - rewrite !app_assoc. by rewrite (Permutation_app_comm y x).
  - by rewrite IH1.
Qed.

(** X18: a complete import.  Without a date window, with both per-kind
    limits configured and at least one, when every post of the archive is
    dated (by itself or by its first media), has a title that can be
    figured out, and the libraries answer, [extract_posts_to_queue]
    returns without exception and no media is lost or repeated: read along
    the queue, the media of the new jobs are the media of the posts, post
    after post in the stable order of their rectified timestamps, each
    post's media in the order of the strategy.  A post without media is
    skipped and does not stop the import. *)
Theorem import_queues_all_media config insta_posts w :
  min_date config = None → max_date config = None →
  sane_limits config →
  Forall importable insta_posts →
  (∀ t, ∃ built, build_rich_text t = Ok built) →
  ∃ w' jobs,
    extract_posts_to_queue config insta_posts w = (Ok tt, w') ∧
    queue w' = queue w ++ jobs ∧
    concat (embed <$> jobs)
    = concat ((λ post, strategy_order (media_strategy config) (p_media post))
                <$> sorted_by rectified_key insta_posts) ∧
    concat (embed <$> jobs) ≡ₚ concat (p_media <$> insta_posts).
Proof.
  intros Hmin Hmax Hsane Hall Hbuild. unfold extract_posts_to_queue.
  destruct (normalize_loop_ok insta_posts 0 w Hall) as (posts' & Hnorm & Hrel).
  rewrite bind_run, Hnorm, bind_run, lift_run.
  rewrite sort_posts_dated.
  2: { clear Hnorm. induction Hrel as [|post post' l l' Hpost _ IH]; constructor.
       - destruct Hpost as (_ & _ & _ & t & dt & -> & _). by eexists.
       - apply IH. by apply Forall_cons in Hall as [_ Hall]. }
  assert (Hsorted : Forall2 normalized (sorted_by rectified_key insta_posts)
                      (sorted_by timestamp_key posts')).
  { apply sorted_by_Forall2; [|done]. intros post post' (_ & Hts & _).
    unfold rectified_key, timestamp_key. by rewrite Hts. }
  destruct (queue_loop_returns config (sorted_by timestamp_key posts')
              Hmin Hmax Hsane Hbuild 0 w) as (w' & jobs & Hrun & Hq & Hcat).
  { clear Hrel Hnorm. induction Hsorted as [|post post' l l' Hpost _ IH]; constructor; [|done].
    by destruct Hpost as (_ & _ & Htitle & Hdated). }
  assert (Hmedia : (λ post, strategy_order (media_strategy config) (p_media post))
                     <$> sorted_by timestamp_key posts'
                   = (λ post, strategy_order (media_strategy config) (p_media post))
                     <$> sorted_by rectified_key insta_posts).
  { clear Hrun Hcat. induction Hsorted as [|post post' l l' Hpost _ IH]; [done|].
    rewrite !fmap_cons, IH. by destruct Hpost as (-> & _). }
  exists w', jobs. split; [done|]. split; [done|].
  rewrite Hcat, Hmedia. split; [done|].
  rewrite (concat_fmap_perm _ p_media).
  - apply concat_perm. by rewrite (sorted_by_perm rectified_key insta_posts).
  - intros post. apply strategy_order_perm.
Qed.

End ImportCompletes.

(** ** The records of a full run *)

Section Records.
Context `{Environment}.
Implicit Types (self : BlueSkyPostingEngine) (w : world).
Implicit Types (job : BlueSkyMigrationJob) (q : list BlueSkyMigrationJob).

Lemma created_records_app (l1 l2 : list event) :
  created_records (l1 ++ l2) = created_records l1 ++ created_records l2.
Proof. apply omap_app. Qed.

Lemma no_records_in_uploads (new : list event) :
  Forall (λ e, is_upload e = true) new → created_records new = [].
Proof.
  induction 1 as [|e new He _ IH]; [done|]. by destruct e.
Qed.

Lemma no_records_in_login self : created_records (login_events self) = [].
Proof. unfold login_events. by destruct (simulate self). Qed.

Lemma map_each_length {A B} (body : A → M B) (l : list A) :
  ∀ w ys w', map_each l body w = (Ok ys, w') → length ys = length l.
Proof.
  induction l as [|x l IH]; intros w ys w'; simpl.
  - by intros [= <- _].
  - rewrite bind_run. destruct (body x w) as [[y|e] w1]; [|done].
    rewrite bind_run. destruct (map_each l body w1) as [[ys'|e] w2] eqn:Hrest; [|done].
    intros [= <- _]. simpl. by rewrite (IH _ _ _ Hrest).
Qed.

Lemma upload_media_shape self job w embeds w' :
  upload_media self job w = (Ok embeds, w') → embed_of job embeds.
Proof.
  unfold upload_media. destruct (embed job) as [|first rest] eqn:Hembed; [done|].
  destruct (is_mp4 first) eqn:Hmp4.
  - rewrite bind_run. destruct (upload self first w) as [[blob|e] w1]; [|done].
    intros [= <- _]. unfold embed_of. rewrite Hembed. by exists first.
  - rewrite bind_run.
    destruct (map_each (first :: rest) _ w) as [[blobs|e] w1] eqn:Hmap; [|done].
    intros [= <- _]. unfold embed_of. rewrite Hembed.
    split; [by apply map_each_length in Hmap|]. by exists first.
Qed.

Lemma strong_ref_at_run index w found ref :
  py_index (queue w) index = Ok found →
  create_strong_ref (cid found) (uri found) = Ok ref →
  strong_ref_at index w = (Ok ref, w).
Proof.
  intros Hfound Hmade. unfold strong_ref_at. rewrite bind_run. unfold get_queue.
  by rewrite bind_run, lift_run, Hfound, lift_run, Hmade.
Qed.

Lemma identified_ref job :
  (∀ c u, ∃ ref, create_strong_ref (Some c) (Some u) = Ok ref) →
  identified job → ∃ ref, create_strong_ref (cid job) (uri job) = Ok ref.
Proof. intros Href [[c ->] [u ->]]. apply Href. Qed.

(** The record of an attempt that succeeds. *)
Lemma post_to_bluesky_record self i w job :
  simulate self = false → service_answers self →
  queue w !! i = Some job → state job ≠ PROCESSED →
  postable_job self job →
  (∀ r p, root_index job = Some r → parent_index job = Some p →
     ∃ root_job parent_job,
       py_index (queue w) r = Ok root_job ∧ identified root_job ∧
       py_index (queue w) p = Ok parent_job ∧ identified parent_job) →
  ∃ response w' new record,
    _post_to_bluesky self i w = (Ok tt, w') ∧
    queue w' = <[i := mark_processed response job]> (queue w) ∧
    trace w' = trace w ++ new ∧
    created_records new = [record] ∧
    record_of (queue w) job record.
Proof.
  intros Hsim (_ & Hupload & Hcreate & Href) Hjob Hstate Hpostable Hrefs.
  unfold _post_to_bluesky.
  rewrite (bind_ok _ _ _ _ _ (job_at_run _ _ _ Hjob)), Hsim, decide_False by done.
  destruct (upload_media_ok self job w Hupload Hpostable)
    as (embeds & w1 & Hup & Hq1 & Hd1 & new1 & Ht1 & Hnew1).
  pose proof (upload_media_shape self job w embeds w1 Hup) as Hshape.
  rewrite bind_run, Hup, bind_run, lift_run.
  destruct Hpostable as (_ & _ & built & Hbuilt). rewrite Hbuilt.
  assert (∃ reply, reply_refs job w1 = (Ok reply, w1) ∧ reply_of (queue w) job reply)
    as (reply & Hreply & Hlinked).
  { unfold reply_refs, reply_of.
    destruct (root_index job) as [r|] eqn:Hr; [|by eexists].
    destruct (parent_index job) as [p|] eqn:Hp; [|by eexists].
    destruct (Hrefs r p eq_refl eq_refl) as (rj & pj & Hrj & Hidr & Hpj & Hidp).
    destruct (identified_ref rj Href Hidr) as [root_ref Hroot].
    destruct (identified_ref pj Href Hidp) as [parent_ref Hparent].
    exists (Some (parent_ref, root_ref)).
    rewrite bind_run, (strong_ref_at_run r w1 rj root_ref) by (by rewrite ?Hq1).
    rewrite bind_run, (strong_ref_at_run p w1 pj parent_ref) by (by rewrite ?Hq1).
    split; [done|]. by exists rj, pj, root_ref, parent_ref. }
  rewrite bind_run, Hreply, bind_run. unfold call at 1.
  match goal with
  | |- context [create_record ?record (remote w1)] =>
      destruct (Hcreate record (remote w1)) as (response & c & ->);
      exists response; eexists; exists (new1 ++ [CreatePost record]), record
  end.
  rewrite bind_run. unfold get_queue at 1. rewrite bind_run. unfold set_queue, save. simpl.
  split; [done|]. rewrite Hq1, Ht1, <- app_assoc.
  split; [done|]. split; [done|]. split.
  - by rewrite created_records_app, (no_records_in_uploads _ Hnew1).
  - unfold record_of. simpl. split; [by destruct built|]. done.
Qed.

Lemma reply_of_later q q' (a : nat) job reply :
  (∀ r p, root_index job = Some r → parent_index job = Some p →
     0 ≤ r < Z.of_nat a ∧ 0 ≤ p < Z.of_nat a) →
  (a ≤ length q)%nat → (a ≤ length q')%nat →
  (∀ i j, (i < a)%nat → q !! i = Some j → q' !! i = Some j) →
  reply_of q job reply → reply_of q' job reply.
Proof.
  intros Hrange Hlen Hlen' Hsame. unfold reply_of.
  destruct (root_index job) as [r|]; [|done].
  destruct (parent_index job) as [p|]; [|done].
  destruct (Hrange r p eq_refl eq_refl) as [Hr Hp].
  intros (rj & pj & rr & pr & Hrj & Hpj & Hrr & Hpr & ->).
  exists rj, pj, rr, pr.
  destruct (py_index_in_range q r a Hr Hlen) as (x & Hx & Hx').
  destruct (py_index_in_range q' r a Hr Hlen') as (x' & Hx1 & Hx1').
  destruct (py_index_in_range q p a Hp Hlen) as (y & Hy & Hy').
  destruct (py_index_in_range q' p a Hp Hlen') as (y' & Hy1 & Hy1').
  apply Hsame in Hx'; [|lia]. apply Hsame in Hy'; [|lia].
  assert (x' = rj) as -> by congruence.
  assert (y' = pj) as -> by congruence.
  done.
Qed.

(** The driver loop from position [a] on, with the records it creates. *)
Lemma full_run_records self k :
  simulate self = false → service_answers self → waits_return self →
  ∀ a w,
  (a + k)%nat = length (queue w) →
  well_linked self (queue w) →
  (∀ i job, (i < a)%nat → queue w !! i = Some job → state job = PROCESSED) →
  ∃ w' new,
    for_each (seq a k) (post_next self) w = (Ok tt, w') ∧
    trace w' = trace w ++ new ∧
    length (queue w') = length (queue w) ∧
    (∀ i job, (i < a)%nat → queue w !! i = Some job → queue w' !! i = Some job) ∧
    Forall2 (record_of (queue w'))
      (List.filter unprocessed (drop a (queue w))) (created_records new).
Proof.
  intros Hsim Hservice Hwaits. induction k as [|k IH]; intros a w Hlen Hwf Hdone; simpl.
  - exists w, []. rewrite app_nil_r, drop_ge by lia. do 4 (split; [done|]). constructor.
  - destruct (lookup_lt_is_Some_2 (queue w) a) as [job Hjob]; [lia|].
    rewrite (drop_S _ _ _ Hjob). cbn [List.filter]. unfold unprocessed at 1.
    rewrite bind_run. unfold post_next at 1.
    rewrite (bind_ok _ _ _ _ _ (job_at_run _ _ _ Hjob)).
    destruct (decide (state job = PROCESSED)) as [Hproc|Hproc].
    + rewrite ret_run, bool_decide_eq_false_2 by tauto.
      destruct (IH (S a) w) as (w' & new & Hrest & Ht & Hlen' & Hsame & Hall); [lia|done| |].
      { intros i job' Hi Hjob'.
        destruct (decide (i = a)) as [->|]; [congruence|]. apply (Hdone i); [lia|done]. }
      exists w', new. do 3 (split; [done|]). split; [|done].
      intros i job' Hi. apply Hsame. lia.
    + rewrite bool_decide_eq_true_2 by done.
      rewrite decide_True by (destruct (state job); tauto).
      set (waits := if (0 <? a)%nat
                    then [Sleep (api_rate_limit_delay_secs (config self))] else []).
      assert (Hwait : ∀ (k' : unit → M unit),
                ((if (0 <? a)%nat
                  then time_sleep (api_rate_limit_delay_secs (config self))
                  else mret tt) ≫= k') w = k' tt (with_events w waits)).
      { intros k'. rewrite bind_run. unfold waits.
        destruct (0 <? a)%nat;
          [by rewrite (time_sleep_run self w Hwaits)|by rewrite ret_run, with_events_nil]. }
      rewrite Hwait. clear Hwait.
      destruct (Hwf a job Hjob) as (Hpostable & _ & Hlinks).
      destruct (post_to_bluesky_record self a (with_events w waits) job Hsim Hservice)
        as (response & w1 & new1 & record & Hrun & Hq1 & Ht1 & Hrecord & Hof); try done.
      { intros r p Hr Hp. destruct (Hlinks r p Hr Hp) as [Hrange Hprange]. simpl.
        destruct (py_index_in_range (queue w) r a Hrange) as (rj & Hrj & Hrj'); [lia|].
        destruct (py_index_in_range (queue w) p a Hprange) as (pj & Hpj & Hpj'); [lia|].
        exists rj, pj. split; [done|]. split.
        { apply (Hwf _ _ Hrj'). apply (Hdone (Z.to_nat r)); [lia|done]. }
        split; [done|].
        apply (Hwf _ _ Hpj'). apply (Hdone (Z.to_nat p)); [lia|done]. }
      rewrite Hrun. simpl in Hq1, Ht1, Hof.
      destruct (IH (S a) w1) as (w' & new & Hrest & Ht & Hlen' & Hsame & Hall).
      { rewrite Hq1, length_insert. lia. }
      { rewrite Hq1. by apply well_linked_posted. }
      { intros i job' Hi Hjob'. rewrite Hq1 in Hjob'.
        apply list_lookup_insert_Some in Hjob' as [(<- & <- & _)|[Hne Hjob']]; [done|].
        apply (Hdone i); [lia|done]. }
      rewrite Hq1, length_insert in Hlen'.
      rewrite Hq1, drop_insert_lt in Hall by lia.
      assert (Hkept : ∀ i job', (i < a)%nat → queue w !! i = Some job' →
                        queue w' !! i = Some job').
      { intros i job' Hi Hjob'. apply Hsame; [lia|].
        rewrite Hq1, list_lookup_insert_ne by lia. done. }
      exists w', (waits ++ new1 ++ new). split; [done|].
      split; [by rewrite Ht, Ht1, <- !app_assoc|].
      split; [done|]. split; [done|].
      rewrite !created_records_app, Hrecord.
      assert (created_records waits = []) as ->.
      { unfold waits. by destruct (0 <? a)%nat. }
      simpl. constructor; [|done].
      destruct Hof as (Htext & Hdate & Hembed & Hreply).
      split; [done|]. split; [done|]. split; [done|].
      apply (reply_of_later (queue w) (queue w') a); [done|lia|lia|done|done].
Qed.

(** X19: the thread of the queue is the thread on the service.  When the
    run is not simulated, the service and the libraries answer,
    [time.sleep] of the configured delay returns (the delay is not
    negative) and the queue is well linked, a full run of [post] returns
    and the records it creates
    are, in the order of the queue, those of the jobs that were not
    PROCESSED: each record carries the text and facets built from the
    text of its job and the date of the job; it embeds one video when the
    first media of the job is a video, whatever else the job holds, and
    else one image for each media of the job; and the record of a job with
    root and parent replies to the posts that the jobs at those two
    positions are identified with when the run ends. *)
Theorem full_run_reproduces_threads self w :
  simulate self = false → service_answers self → waits_return self →
  well_linked self (queue w) →
  ∃ w' new,
    post self None w = (Ok tt, w') ∧
    trace w' = trace w ++ new ∧
    Forall2 (record_of (queue w'))
      (List.filter unprocessed (queue w)) (created_records new).
Proof.
  intros Hsim Hservice Hwaits Hwf.
  destruct (login_ok self w Hservice) as (w0 & Hlogin & Hq0 & Hd0 & Ht0).
  destruct (full_run_records self (length (queue w0)) Hsim Hservice Hwaits 0 w0)
    as (w' & new & Hloop & Ht & Hlen & _ & Hall).
  { done. } { by rewrite Hq0. } { intros i job Hi. lia. }
  exists w', (login_events self ++ new).
  split.
  - unfold post. rewrite bind_run, Hlogin, bind_run. unfold get_queue. done.
  - split; [by rewrite Ht, Ht0, app_assoc|].
    rewrite created_records_app, no_records_in_login. simpl.
    by rewrite Hq0 in Hall.
Qed.

End Records.

(** ** A run that raises *)

Section Stops.
Context `{Environment}.
Implicit Types (self : BlueSkyPostingEngine) (w : world) (job : BlueSkyMigrationJob).

Lemma time_sleep_frame secs w r w' :
  time_sleep secs w = (r, w') → queue w' = queue w ∧ disk w' = disk w.
Proof.
  unfold time_sleep. destruct (secs <? 0); [by intros [= _ <-]|].
  rewrite bind_run, lift_run. destruct (sleep secs); by intros [= _ <-].
Qed.

(** Every outcome of the driver loop from position [a] on. *)
Lemma post_next_outcomes self k :
  simulate self = false →
  ∀ a w res w',
  (a + k)%nat = length (queue w) →
  for_each (seq a k) (post_next self) w = (res, w') →
  length (queue w') = length (queue w) ∧
  ∃ stop,
    (a ≤ stop ≤ a + k)%nat ∧
    (res = Ok tt → stop = (a + k)%nat) ∧
    (∀ i job, (a ≤ i < stop)%nat → queue w' !! i = Some job → state job = PROCESSED) ∧
    (∀ i, (i < a)%nat ∨ (stop ≤ i)%nat → queue w' !! i = queue w !! i).
Proof.
  intros Hsim. induction k as [|k IH]; intros a w res w' Hlen; simpl.
  - intros [= <- <-]. split; [done|]. exists a. split; [lia|]. split; [intros _; lia|].
    split; [intros i job Hi; lia|done].
  - destruct (lookup_lt_is_Some_2 (queue w) a) as [job Hjob]; [lia|].
    rewrite bind_run. unfold post_next at 1.
    rewrite (bind_ok _ _ _ _ _ (job_at_run _ _ _ Hjob)).
    destruct (decide (state job = PROCESSED)) as [Hproc|Hproc].
    + rewrite ret_run. intros Hrest.
      destruct (IH (S a) w res w') as (Hlen' & stop & Hstop & Hok & Hdone & Hsame);
        [lia|done|].
      split; [done|]. exists stop. split; [lia|]. split; [intros Hres; specialize (Hok Hres); lia|].
      split.
      * intros i job' Hi Hjob'. destruct (decide (i = a)) as [->|Hne].
        -- rewrite Hsame in Hjob' by lia. congruence.
        -- apply (Hdone i); [lia|done].
      * intros i Hi. apply Hsame. lia.
    + rewrite decide_True by (destruct (state job); tauto).
      rewrite bind_run.
      destruct ((if (0 <? a)%nat
                 then time_sleep (api_rate_limit_delay_secs (config self))
                 else mret tt) w) as [waited w0] eqn:Hwait.
      assert (Hq0 : queue w0 = queue w).
      { destruct (0 <? a)%nat; [|by injection Hwait as _ <-].
        by apply time_sleep_frame in Hwait as [-> _]. }
      destruct waited as [[]|e]; cycle 1.
      { intros [= <- <-]. rewrite Hq0. split; [done|].
        exists a. split; [lia|]. split; [done|]. split; [intros i job' Hi; lia|done]. }
      rewrite <- Hq0 in Hjob.
      destruct (_post_to_bluesky self a w0) as [r w1] eqn:Hrun.
      destruct (post_to_bluesky_attempt self a w0 job r w1 Hjob Hsim Hproc Hrun)
        as [([e ->] & Hq1 & _)|(-> & response & Hq1 & _)].
      * intros [= <- <-]. rewrite Hq1, Hq0. split; [done|].
        exists a. split; [lia|]. split; [done|]. split; [intros i job' Hi; lia|done].
      * intros Hrest.
        destruct (IH (S a) w1 res w') as (Hlen' & stop & Hstop & Hok & Hdone & Hsame);
          [rewrite Hq1, length_insert, Hq0; lia|done|].
        rewrite Hq1, length_insert, Hq0 in Hlen'. split; [done|].
        exists stop. split; [lia|]. split; [intros Hres; specialize (Hok Hres); lia|].
        split.
        -- intros i job' Hi Hjob'. destruct (decide (i = a)) as [->|Hne].
           ++ rewrite Hsame, Hq1, list_lookup_insert_eq in Hjob' by (rewrite ?Hq0; lia).
              by injection Hjob' as <-.
           ++ apply (Hdone i); [lia|done].
        -- intros i Hi. rewrite Hsame, Hq1, list_lookup_insert_ne, Hq0 by lia. done.
Qed.

(** X20: a full run that is not simulated walks the queue in order and
    stops at the first exception.  Whatever its outcome there is a
    position such that, when the run ends, every job before it is
    PROCESSED and every job from it on is exactly as it was; a run that
    returns without exception reached the end of the queue, so every job
    is then PROCESSED. *)
Theorem post_stops_at_first_failure self w res w' :
  simulate self = false →
  post self None w = (res, w') →
  length (queue w') = length (queue w) ∧
  ∃ stop,
    (stop ≤ length (queue w))%nat ∧
    (res = Ok tt → stop = length (queue w)) ∧
    (∀ i job, (i < stop)%nat → queue w' !! i = Some job → state job = PROCESSED) ∧
    (∀ i, (stop ≤ i)%nat → queue w' !! i = queue w !! i).
Proof.
  intros Hsim. unfold post. rewrite bind_run.
  destruct (login_outcome self w) as (res0 & w0 & -> & Hq0 & _).
  destruct res0 as [[]|e].
  - rewrite bind_run. unfold get_queue. intros Hloop.
    destruct (post_next_outcomes self (length (queue w0)) Hsim 0 w0 res w' eq_refl Hloop)
      as (Hlen & stop & Hstop & Hok & Hdone & Hsame).
    rewrite Hq0 in Hlen, Hstop, Hok, Hsame. split; [done|].
    exists stop. split; [lia|]. split; [done|]. split.
    + intros i job Hi. apply Hdone. lia.
    + intros i Hi. apply Hsame. lia.
  - intros [= <- <-]. rewrite Hq0. split; [done|]. exists 0%nat.
    split; [lia|]. split; [done|]. split; [intros i job Hi; lia|done].
Qed.

End Stops.

(** ** The engines and the command line on concrete runs *)

Lemma demo_queue_in_sync jobs : dense jobs → in_sync (demo_queue jobs).
Proof. by split. Qed.



Lemma two_posts_dense : dense two_posts.
Proof. intros [|[|i]] job Hjob; simpl in Hjob; [by injection Hjob as <-..|done]. Qed.

Lemma demo_waits_return self :
  0 ≤ api_rate_limit_delay_secs (config self) → @waits_return demo_environment self.
Proof. by split. Qed.

Lemma demo_service_answers self : @service_answers demo_environment self.
Proof. repeat split; intros; by eexists _, _ || by eexists. Qed.

Lemma demo_files_readable folder name :
  ∃ data, @read_file demo_environment folder name = Ok data.
Proof. by eexists. Qed.

Lemma demo_texts_built t : ∃ built, @build_rich_text demo_environment t = Ok built.
Proof. by eexists. Qed.

Lemma demo_postable self j a st root parent ids :
  @postable_job demo_environment self (sample_job j a st root parent ids).
Proof.
  split; [done|]. split; [intros; apply demo_files_readable|apply demo_texts_built].
Qed.

Lemma ready_thread_well_linked self : @well_linked demo_environment self ready_thread.
Proof.
  intros [|[|i]] job Hjob; simpl in Hjob; [injection Hjob as <-..|done].
  - split; [apply demo_postable|]. split; [done|]. by intros r p [=].
  - split; [apply demo_postable|]. split; [done|]. intros r p [= <-] [= <-]. simpl. lia.
Qed.

Lemma posted_thread_well_linked self : @well_linked demo_environment self posted_thread.
Proof.
  intros [|[|[|i]]] job Hjob; simpl in Hjob; [injection Hjob as <-..|done].
  - split; [apply demo_postable|]. split; [|by intros r p [=]].
    intros _. split; by eexists.
  - split; [apply demo_postable|]. split; [intros _; split; by eexists|].
    intros r p [= <-] [= <-]. simpl. lia.
  - split; [apply demo_postable|]. split; [done|]. by intros r p [=].
Qed.

Lemma posted_thread_deletable job c :
  job ∈ posted_thread → state job ≠ READY →
  ∃ c', @delete_post demo_environment (uri job) c = (Ok tt, c').
Proof.
  intros Hin Hstate. apply list_elem_of_lookup in Hin as [i Hi].
  destruct i as [|[|[|i]]]; simpl in Hi; [injection Hi as <-..|done];
    [by exists c|by exists c|done].
Qed.

Lemma short_video_config_sane : sane_limits short_video_config.
Proof.
  split; [simpl; lia|]. split; [exists 1; split; [done|lia]|].
  unfold slen. simpl. lia.
Qed.

(** Eight accented characters are sixteen bytes and fit in a limit of ten
    characters: the text is kept. *)
Example accented_text_is_kept :
  slen "éééééééé" = 8 ∧
  post_text short_text_config (Some "éééééééé") 0 1 = Ok "éééééééé".
Proof. split; vm_compute; reflexivity. Qed.

(** A simulated run with a negative delay raises at the second job. *)
Example simulated_run_with_negative_delay :
  (post hasty_engine None (demo_queue ready_thread)).1 = Raise ValueError ∧
  trace (post hasty_engine None (demo_queue ready_thread)).2 = [].
Proof. split; vm_compute; reflexivity. Qed.

Lemma video_config_sane : sane_limits video_config.
Proof.
  split; [simpl; lia|]. split; [exists 1; split; [done|lia]|].
  unfold slen. simpl. lia.
Qed.



Lemma post_only_marks_processed_witness :
  length (queue picked_run.2) = length (queue (demo_queue ready_thread)) ∧
  ∀ i job, queue (demo_queue ready_thread) !! i = Some job →
    ∃ job', queue picked_run.2 !! i = Some job' ∧
      posted_or_untouched job job' ∧
      (state job = PROCESSED → job' = job) ∧
      (state job' = state job ∨ state job' = PROCESSED) ∧
      job_index job' = job_index job ∧ archive_index job' = archive_index job ∧
      text job' = text job ∧ embed job' = embed job ∧
      root_index job' = root_index job ∧ parent_index job' = parent_index job.
Proof.
  apply (@post_only_marks_processed demo_environment (demo_engine false) (Some 0)
           (demo_queue ready_thread) picked_run.1 picked_run.2).
  unfold picked_run. by destruct (post _ _ _).
Defined.

Lemma rollback_only_resets_state_witness :
  length (queue rollback_run.2) = length (queue (demo_queue posted_thread)) ∧
  ∀ i job, queue (demo_queue posted_thread) !! i = Some job →
    ∃ job', queue rollback_run.2 !! i = Some job' ∧
      reset_or_untouched job job' ∧
      (state job = READY → job' = job) ∧
      (state job' = state job ∨ state job' = READY) ∧
      cid job' = cid job ∧ uri job' = uri job ∧
      job_index job' = job_index job ∧ archive_index job' = archive_index job ∧
      text job' = text job ∧ embed job' = embed job ∧
      root_index job' = root_index job ∧ parent_index job' = parent_index job.
Proof.
  apply (@rollback_only_resets_state demo_environment (demo_engine false)
           (demo_queue posted_thread) rollback_run.1 rollback_run.2).
  unfold rollback_run. by destruct (rollback _ _).
Defined.


Lemma full_run_posts_every_job_witness :
  simulate (demo_engine false) = false ∧
  @waits_return demo_environment (demo_engine false) ∧
  ∃ w' new,
    post (demo_engine false) None (demo_queue ready_thread) = (Ok tt, w') ∧
    trace w' = trace (demo_queue ready_thread) ++ new ∧
    length (List.filter is_create new)
    = length (List.filter unprocessed (queue (demo_queue ready_thread))) ∧
    length (queue w') = length (queue (demo_queue ready_thread)) ∧
    ∀ i job, queue w' !! i = Some job → state job = PROCESSED ∧ identified job.
Proof.
  split; [reflexivity|]. split; [by apply demo_waits_return|].
  apply (@full_run_posts_every_job demo_environment (demo_engine false)
           (demo_queue ready_thread)).
  - reflexivity.
  - apply demo_service_answers.
  - by apply demo_waits_return.
  - apply ready_thread_well_linked.
Defined.

Lemma rollback_then_post_reposts_all_witness :
  state <$> posted_thread = [PROCESSED; PROCESSED; READY] ∧
  ∃ w1 w2 new,
    rollback (demo_engine false) (demo_queue posted_thread) = (Ok tt, w1) ∧
    (∀ i job, queue w1 !! i = Some job → state job = READY) ∧
    post (demo_engine false) None w1 = (Ok tt, w2) ∧
    trace w2 = trace w1 ++ new ∧
    length (List.filter is_create new) = length (queue (demo_queue posted_thread)) ∧
    ∀ i job, queue w2 !! i = Some job → state job = PROCESSED ∧ identified job.
Proof.
  split; [reflexivity|].
  apply (@rollback_then_post_reposts_all demo_environment (demo_engine false)
           (demo_queue posted_thread)).
  - reflexivity.
  - apply demo_service_answers.
  - by apply demo_waits_return.
  - apply posted_thread_deletable.
  - apply posted_thread_well_linked.
Defined.


Lemma post_text_within_limit_witness :
  slen accented_title = 12 ∧
  post_text_limit short_text_config = 10 ∧
  post_text short_text_config (Some accented_title) 0 1 = Ok "ééééééé..." ∧
  ∃ t,
    post_text short_text_config (Some accented_title) 0 1 = Ok t ∧
    slen t ≤ post_text_limit short_text_config ∧
    (slen accented_title ≤ post_text_limit short_text_config → t = accented_title) ∧
    (post_text_limit short_text_config < slen accented_title →
       slen t = post_text_limit short_text_config ∧
       endswith t (post_text_truncate_suffix short_text_config) = true).
Proof.
  split; [vm_compute; reflexivity|]. split; [reflexivity|].
  split; [vm_compute; reflexivity|].
  apply (post_text_within_limit short_text_config (Some accented_title) 0 1 accented_title).
  - reflexivity.
  - unfold slen. simpl. lia.
Defined.


Lemma import_appends_legal_jobs_witness :
  sane_limits short_video_config ∧
  (λ job, slen (text job)) <$> queue short_import_run.2 = [20; 20; 20; 20; 20] ∧
  ∃ jobs,
    queue short_import_run.2 = queue demo_world ++ jobs ∧
    ∀ job, job ∈ jobs → legal_job short_video_config job.
Proof.
  split; [apply short_video_config_sane|]. split; [vm_compute; reflexivity|].
  apply (@import_appends_legal_jobs demo_environment short_video_config five_days
           demo_world short_import_run.1 short_import_run.2).
  - apply short_video_config_sane.
  - unfold short_import_run. by destruct (extract_posts_to_queue _ _ _).
Defined.


Lemma partition_media_closes_only_full_batches_witness :
  _partition_media video_config five_images (Some ORDERED)
  = Ok [take 4 five_images; drop 4 five_images] ∧
  ∀ i batch1 batch2 first second,
    [take 4 five_images; drop 4 five_images] !! i = Some batch1 →
    [take 4 five_images; drop 4 five_images] !! S i = Some batch2 →
    head batch1 = Some first → head batch2 = Some second →
    kind_of first = kind_of second →
    limit_of video_config (kind_of first) = Some (len batch1).
Proof.
  split; [reflexivity|].
  apply (partition_media_closes_only_full_batches video_config five_images (Some ORDERED)).
  - apply (limits_configured_all video_config five_images 1); [simpl; lia|done|lia].
  - reflexivity.
Defined.

Lemma partition_media_single_kind_witness :
  ∃ batches,
    _partition_media video_config five_images (Some ORDERED) = Ok batches ∧
    concat batches = five_images ∧
    (∀ i batch, batches !! i = Some batch → (S i < length batches)%nat →
       len batch = 4) ∧
    (∀ batch, batch ∈ batches → 1 ≤ len batch ≤ 4) ∧
    (len five_images ≤ 4 → batches = [five_images]).
Proof.
  apply (partition_media_single_kind video_config five_images (Some ORDERED) image 4).
  - done.
  - by repeat constructor.
  - reflexivity.
  - lia.
Defined.

Lemma main_pick_zero_is_full_run_witness :
  archive_index <$> two_posts = [0; 1] ∧
  state <$> queue (pick_command_run (Some 0)).2 = [PROCESSED; PROCESSED] ∧
  state <$> queue (pick_command_run None).2 = [PROCESSED; PROCESSED] ∧
  state <$> queue (pick_command_run (Some 1)).2 = [READY; PROCESSED] ∧
  pick_command_run (Some 0)
  = (outcome_of
       (post (migration_engine (demo_args Migrate None) video_config None "secret")
          None (demo_queue two_posts)).1,
     (post (migration_engine (demo_args Migrate None) video_config None "secret")
        None (demo_queue two_posts)).2) ∧
  pick_command_run None
  = (outcome_of
       (post (migration_engine (demo_args Migrate None) video_config None "secret")
          None (demo_queue two_posts)).1,
     (post (migration_engine (demo_args Migrate None) video_config None "secret")
        None (demo_queue two_posts)).2) ∧
  (∀ v out w',
     v ≠ 0 →
     pick_command_run (Some v) = (out, w') →
     ∀ i job, queue (demo_queue two_posts) !! i = Some job → archive_index job ≠ v →
       queue w' !! i = Some job).
Proof.
  split; [reflexivity|]. split; [vm_compute; reflexivity|].
  split; [vm_compute; reflexivity|]. split; [vm_compute; reflexivity|].
  apply (@main_pick_zero_is_full_run demo_environment (demo_args Migrate None)
           video_config [] None "secret" (listing (demo_queue two_posts))
           (demo_queue two_posts)).
  - reflexivity.
  - apply demo_queue_in_sync, two_posts_dense.
  - unfold is_listing, listing. reflexivity.
Defined.

Lemma main_simulate_is_unbound_witness :
  (simulate_command_run.1 = UnboundLocal ↔ command (demo_args Simulate None) = Simulate) ∧
  (command (demo_args Simulate None) = Simulate →
   simulate_command_run.2 = demo_queue ready_thread).
Proof.
  apply (@main_simulate_is_unbound demo_environment (demo_args Simulate None)
           video_config [] None "secret" (listing (demo_queue ready_thread))
           (demo_queue ready_thread) simulate_command_run.1 simulate_command_run.2).
  unfold simulate_command_run. by destruct (main _ _ _ _ _ _ _).
Defined.


Lemma sample_post_importable title t uris :
  (∃ dt, utc_fromtimestamp t = Ok dt) →
  @importable demo_environment (sample_post title t uris).
Proof. intros [dt Hdt]. split; [by exists t, dt|by eexists]. Qed.

Lemma five_days_importable : Forall (@importable demo_environment) five_days.
Proof.
  repeat constructor; apply sample_post_importable; eexists; vm_compute; reflexivity.
Qed.

Lemma import_queues_all_media_witness :
  Forall (@importable demo_environment) five_days ∧
  ∃ w' jobs,
    extract_posts_to_queue video_config five_days demo_world = (Ok tt, w') ∧
    queue w' = queue demo_world ++ jobs ∧
    concat (embed <$> jobs)
    = concat ((λ post, strategy_order (media_strategy video_config) (p_media post))
                <$> sorted_by rectified_key five_days) ∧
    concat (embed <$> jobs) ≡ₚ concat (p_media <$> five_days).
Proof.
  split; [apply five_days_importable|].
  apply (@import_queues_all_media demo_environment video_config five_days demo_world).
  - reflexivity.
  - reflexivity.
  - apply video_config_sane.
  - apply five_days_importable.
  - apply demo_texts_built.
Defined.

Lemma full_run_reproduces_threads_witness :
  simulate (demo_engine false) = false ∧
  @waits_return demo_environment (demo_engine false) ∧
  ∃ w' new,
    post (demo_engine false) None (demo_queue ready_thread) = (Ok tt, w') ∧
    trace w' = trace (demo_queue ready_thread) ++ new ∧
    Forall2 (@record_of demo_environment (queue w'))
      (List.filter unprocessed (queue (demo_queue ready_thread))) (created_records new).
Proof.
  split; [reflexivity|]. split; [by apply demo_waits_return|].
  apply (@full_run_reproduces_threads demo_environment (demo_engine false)
           (demo_queue ready_thread)).
  - reflexivity.
  - apply demo_service_answers.
  - by apply demo_waits_return.
  - apply ready_thread_well_linked.
Defined.

Lemma post_stops_at_first_failure_witness :
  simulate (demo_engine false) = false ∧
  length (queue posted_run.2) = length (queue (demo_queue ready_thread)) ∧
  ∃ stop,
    (stop ≤ length (queue (demo_queue ready_thread)))%nat ∧
    (posted_run.1 = Ok tt → stop = length (queue (demo_queue ready_thread))) ∧
    (∀ i job, (i < stop)%nat → queue posted_run.2 !! i = Some job →
       state job = PROCESSED) ∧
    (∀ i, (stop ≤ i)%nat →
       queue posted_run.2 !! i = queue (demo_queue ready_thread) !! i).
Proof.
  split; [reflexivity|].
  apply (@post_stops_at_first_failure demo_environment (demo_engine false)
           (demo_queue ready_thread) posted_run.1 posted_run.2).
  - reflexivity.
  - unfold posted_run. by destruct (post _ _ _).
Defined.
